(** * Figma-Context-MCP: the tree simplification engine

    A shallow embedding of [src/services/simplify-node-response.ts] (the
    revision that has [parseGlobalVars] and [parseFigmaFileResponse]) and of
    the helpers of [~/utils/common] ([removeEmptyKeys], [convertColor],
    [generateVarId], [hexToRgba], [formatRGBAColor]).

    Conventions of the embedding.
    - JavaScript values are the inductive [JValue].  An object is the list of
      its own enumerable string-keyed properties in enumeration order, with
      pairwise distinct keys; [obj_set] keeps that order the way the
      language does (array-index keys first, ascending; then insertion order).
      The prototype of an object is not part of a [JValue]: every statement
      about an object is about its own properties.
    - JavaScript numbers are exact rationals ([Q]); [Math.round x] is
      [Qfloor (x + 1/2)].
    - [JSON.stringify] returns the syntax tree of the JSON text ([JSONText]),
      numbers reduced to lowest terms, so that two texts are the same string
      exactly when the trees are equal.
    - A thrown exception is an [Err] result; the store is threaded through
      the walk explicitly, together with the count of [Math.random] calls.
    - Raw input nodes follow the TypeScript types of [@figma/rest-api-spec]:
      a record with optional fields. *)

From Stdlib Require Import List String Ascii Bool Arith ZArith QArith Qround Lia Permutation.

Import ListNotations.

Set Warnings "-register-all".

Local Open Scope string_scope.

Local Open Scope list_scope.

Local Open Scope nat_scope.

(* ================================================================== *)
(** * JavaScript values *)
(* ================================================================== *)

Inductive JValue : Type :=
| JUndefined
| JNull
| JBool (b : bool)
| JNum (q : Q)
| JStr (s : string)
| JArr (items : list JValue)
| JObj (props : list (string * JValue)).

(** The nested occurrences need an induction principle of their own. *)
Section JValue_induction.
Variable P : JValue -> Prop.
Hypothesis Hundef : P JUndefined.
Hypothesis Hnull : P JNull.
Hypothesis Hbool : forall b, P (JBool b).
Hypothesis Hnum : forall q, P (JNum q).
Hypothesis Hstr : forall s, P (JStr s).
Hypothesis Harr : forall items, Forall P items -> P (JArr items).
Hypothesis Hobj : forall props, Forall (fun kv => P (snd kv)) props -> P (JObj props).

Fixpoint JValue_nested_ind (v : JValue) : P v :=
  match v with
  | JUndefined => Hundef
  | JNull => Hnull
  | JBool b => Hbool b
  | JNum q => Hnum q
  | JStr s => Hstr s
  | JArr items =>
      Harr items
        ((fix all (l : list JValue) : Forall P l :=
            match l with
            | [] => Forall_nil P
            | x :: l' => Forall_cons x (JValue_nested_ind x) (all l')
            end) items)
  | JObj props =>
      Hobj props
        ((fix all (l : list (string * JValue)) : Forall (fun kv => P (snd kv)) l :=
            match l with
            | [] => Forall_nil _
            | kv :: l' => Forall_cons kv (JValue_nested_ind (snd kv)) (all l')
            end) props)
  end.

End JValue_induction.

(** [typeof v === 'object'] *)
Definition typeof_object (v : JValue) : bool :=
  match v with
  | JNull | JArr _ | JObj _ => true
  | _ => false
  end.

Definition Array_isArray (v : JValue) : bool :=
  match v with JArr _ => true | _ => false end.

Definition is_undefined (v : JValue) : bool :=
  match v with JUndefined => true | _ => false end.

Definition is_null (v : JValue) : bool :=
  match v with JNull => true | _ => false end.

(** [v.length] of an array, [Object.keys(v).length] of an array or object. *)
Definition array_length (v : JValue) : nat :=
  match v with JArr items => List.length items | _ => 0 end.

Definition Object_keys_length (v : JValue) : nat :=
  match v with
  | JArr items => List.length items
  | JObj props => List.length props
  | JStr s => String.length s
  | _ => 0
  end.

(* ================================================================== *)
(** * utils/common: removeEmptyKeys *)
(* ================================================================== *)

(** The condition under which [removeEmptyKeys] writes [result[key]]. *)
Definition keepCleaned (cleanedValue : JValue) : bool :=
  negb (is_undefined cleanedValue)
  && negb (Array_isArray cleanedValue && (array_length cleanedValue =? 0))
  && negb (typeof_object cleanedValue
           && negb (is_null cleanedValue)
           && (Object_keys_length cleanedValue =? 0)).

(** Whether the assignment [result[key] = value] on a plain object creates
    an own property.  The key [__proto__] names the accessor inherited from
    [Object.prototype]: assigning to it changes the prototype of [result]
    (when the value is an object or null) and adds no property. *)
Definition createsOwnProperty (key : string) : bool :=
  negb (String.eqb key "__proto__").

(** The [for (const key in input)] loop, over the own properties. *)
Definition cleanProps (clean : JValue -> JValue) : list (string * JValue) -> list (string * JValue) :=
  fix loop (props : list (string * JValue)) : list (string * JValue) :=
    match props with
    | [] => []
    | (key, value) :: rest =>
        let cleanedValue := clean value in
        if keepCleaned cleanedValue && createsOwnProperty key
        then (key, cleanedValue) :: loop rest
        else loop rest
    end.

Fixpoint removeEmptyKeys (input : JValue) : JValue :=
  match input with
  | JArr items => JArr (map removeEmptyKeys items)
  | JObj props => JObj (cleanProps removeEmptyKeys props)
  | _ => input
  end.

(** What the pruner drops, in the words of the specification. *)
Definition isEmptyValue (v : JValue) : bool :=
  match v with
  | JUndefined => true
  | JArr [] => true
  | JObj [] => true
  | _ => false
  end.

(* ================================================================== *)
(** * utils/common: convertColor *)
(* ================================================================== *)

Record RGBA : Type := mkRGBA { r : Q; g : Q; b : Q; a : Q }.

Record ColorValue : Type := mkColorValue { hex : string; opacity : Q }.

(** [Math.round]: the nearest integer, halves towards plus infinity. *)
Definition Math_round (x : Q) : Z := Qfloor (x + (1 # 2)).

(** [ToInt32] and the left shift of 32-bit integers. *)
Definition toInt32 (z : Z) : Z :=
  let m := (z mod 2 ^ 32)%Z in
  if (m >=? 2 ^ 31)%Z then (m - 2 ^ 32)%Z else m.

Definition shl (x count : Z) : Z :=
  toInt32 (Z.shiftl (toInt32 x) (count mod 32)).

Definition hexDigit (d : Z) : ascii :=
  match d with
  | 0%Z => "0" | 1%Z => "1" | 2%Z => "2" | 3%Z => "3" | 4%Z => "4"
  | 5%Z => "5" | 6%Z => "6" | 7%Z => "7" | 8%Z => "8" | 9%Z => "9"
  | 10%Z => "a" | 11%Z => "b" | 12%Z => "c" | 13%Z => "d" | 14%Z => "e"
  | _ => "f"
  end%char.

Fixpoint hexDigits (fuel : nat) (n : Z) (acc : string) : string :=
  match fuel with
  | O => acc
  | S fuel' =>
      let acc' := String (hexDigit (n mod 16)) acc in
      if (n / 16 =? 0)%Z then acc' else hexDigits fuel' (n / 16) acc'
  end.

(** [n.toString(16)] of an integer. *)
Definition toString16 (n : Z) : string :=
  let digits m := hexDigits (S (Z.to_nat (Z.log2 m))) m EmptyString in
  if (n <? 0)%Z then String "-"%char (digits (- n)%Z) else digits n.

(** [s.slice(1)] *)
Definition slice1 (s : string) : string :=
  match s with
  | EmptyString => EmptyString
  | String _ rest => rest
  end.

Definition upperChar (c : ascii) : ascii :=
  let n := nat_of_ascii c in
  if (97 <=? n) && (n <=? 122) then ascii_of_nat (n - 32) else c.

Fixpoint toUpperCase (s : string) : string :=
  match s with
  | EmptyString => EmptyString
  | String c rest => String (upperChar c) (toUpperCase rest)
  end.

(** [convertColor(color, opacity = 1)]; [None] is the omitted argument. *)
Definition convertColor (color : RGBA) (opacity : option Q) : ColorValue :=
  let opacity := match opacity with Some o => o | None => 1%Q end in
  let r := Math_round (color.(r) * 255) in
  let g := Math_round (color.(g) * 255) in
  let b := Math_round (color.(b) * 255) in
  let a := (inject_Z (Math_round (opacity * color.(a) * 100)) / 100)%Q in
  let hex :=
    String "#"%char
      (toUpperCase (slice1 (toString16 (shl 1 24 + shl r 16 + shl g 8 + b)%Z))) in
  {| hex := hex; opacity := a |}.

Definition ColorValue_toJ (c : ColorValue) : JValue :=
  JObj [("hex", JStr c.(hex)); ("opacity", JNum c.(opacity))].

(** The opacity the specification describes: the rounded product, clamped. *)
Definition clamp01 (q : Q) : Q :=
  if Qle_bool q 0 then 0%Q else if Qle_bool 1 q then 1%Q else q.

Definition spec_opacity (color : RGBA) (opacity : Q) : Q :=
  clamp01 (inject_Z (Math_round (opacity * color.(a) * 100)) / 100).

Definition unitRange (q : Q) : Prop := (0 <= q /\ q <= 1)%Q.

(* ================================================================== *)
(** * Objects: own properties in enumeration order *)
(* ================================================================== *)

Section Objects.
Context {A : Type}.

Fixpoint obj_get (key : string) (o : list (string * A)) : option A :=
  match o with
  | [] => None
  | (k, v) :: rest => if String.eqb k key then Some v else obj_get key rest
  end.

Definition obj_has (key : string) (o : list (string * A)) : bool :=
  match obj_get key o with Some _ => true | None => false end.

(** Assignment to an existing property keeps its place. *)
Fixpoint obj_replace (key : string) (v : A) (o : list (string * A)) : list (string * A) :=
  match o with
  | [] => []
  | (k, w) :: rest =>
      if String.eqb k key then (k, v) :: rest else (k, w) :: obj_replace key v rest
  end.

Fixpoint obj_delete (key : string) (o : list (string * A)) : list (string * A) :=
  match o with
  | [] => []
  | (k, w) :: rest =>
      if String.eqb k key then obj_delete key rest else (k, w) :: obj_delete key rest
  end.

Definition obj_keys (o : list (string * A)) : list string := map fst o.

Definition obj_values (o : list (string * A)) : list A := map snd o.

End Objects.

(** A key is an array index when it is the canonical decimal numeral of an
    integer below 2^32 - 1; such keys are enumerated first, in ascending
    order. *)
Definition digitValue (c : ascii) : option N :=
  let n := nat_of_ascii c in
  if (48 <=? n) && (n <=? 57) then Some (N.of_nat (n - 48)) else None.

Fixpoint parseDigits (s : string) (acc : N) : option N :=
  match s with
  | EmptyString => Some acc
  | String c rest =>
      match digitValue c with
      | Some d => parseDigits rest (acc * 10 + d)%N
      | None => None
      end
  end.

Definition arrayIndex (key : string) : option N :=
  match key with
  | EmptyString => None
  | String c rest =>
      if Ascii.eqb c "0"%char
      then match rest with EmptyString => Some 0%N | _ => None end
      else match parseDigits key 0%N with
           | Some n => if (n <? 2 ^ 32 - 1)%N then Some n else None
           | None => None
           end
  end.

Section ObjectSet.
Context {A : Type}.

(** A new array-index property goes before the first property that is not
    an array index or has a larger index. *)
Fixpoint obj_insert_index (i : N) (key : string) (v : A) (o : list (string * A))
  : list (string * A) :=
  match o with
  | [] => [(key, v)]
  | (k, w) :: rest =>
      match arrayIndex k with
      | Some j => if (j <? i)%N
                  then (k, w) :: obj_insert_index i key v rest
                  else (key, v) :: o
      | None => (key, v) :: o
      end
  end.

(** [o[key] = v] on an ordinary object. *)
Definition obj_set (key : string) (v : A) (o : list (string * A)) : list (string * A) :=
  if obj_has key o then obj_replace key v o
  else match arrayIndex key with
       | Some i => obj_insert_index i key v o
       | None => o ++ [(key, v)]
       end.

End ObjectSet.

(** Property read [v.key]: undefined when absent or when [v] has no own
    properties. *)
Definition jget (key : string) (v : JValue) : JValue :=
  match v with
  | JObj props => match obj_get key props with Some x => x | None => JUndefined end
  | _ => JUndefined
  end.

(* ================================================================== *)
(** * JSON.stringify *)
(* ================================================================== *)

Inductive JSONText : Type :=
| TNull
| TBool (b : bool)
| TNum (q : Q)
| TStr (s : string)
| TArr (items : list JSONText)
| TObj (members : list (string * JSONText)).

Definition stringifyMembers (str : JValue -> option JSONText)
  : list (string * JValue) -> list (string * JSONText) :=
  fix loop (props : list (string * JValue)) : list (string * JSONText) :=
    match props with
    | [] => []
    | (k, v) :: rest =>
        match str v with
        | Some t => (k, t) :: loop rest
        | None => loop rest
        end
    end.

(** [JSON.stringify v]; [None] is the result [undefined].  A property whose
    value is undefined is left out, an undefined array element is written as
    null. *)
Fixpoint JSON_stringify (v : JValue) : option JSONText :=
  match v with
  | JUndefined => None
  | JNull => Some TNull
  | JBool b => Some (TBool b)
  | JNum q => Some (TNum (Qred q))
  | JStr s => Some (TStr s)
  | JArr items =>
      Some (TArr (map (fun x => match JSON_stringify x with
                                | Some t => t
                                | None => TNull
                                end) items))
  | JObj props => Some (TObj (stringifyMembers JSON_stringify props))
  end.

Definition Q_eqb (x y : Q) : bool :=
  Z.eqb (Qnum x) (Qnum y) && Pos.eqb (Qden x) (Qden y).

Fixpoint JSONText_eqb (x y : JSONText) : bool :=
  match x, y with
  | TNull, TNull => true
  | TBool b1, TBool b2 => Bool.eqb b1 b2
  | TNum q1, TNum q2 => Q_eqb q1 q2
  | TStr s1, TStr s2 => String.eqb s1 s2
  | TArr l1, TArr l2 =>
      (fix all (l1 l2 : list JSONText) : bool :=
         match l1, l2 with
         | [], [] => true
         | a1 :: r1, a2 :: r2 => JSONText_eqb a1 a2 && all r1 r2
         | _, _ => false
         end) l1 l2
  | TObj m1, TObj m2 =>
      (fix all (m1 m2 : list (string * JSONText)) : bool :=
         match m1, m2 with
         | [], [] => true
         | (k1, a1) :: r1, (k2, a2) :: r2 =>
             String.eqb k1 k2 && JSONText_eqb a1 a2 && all r1 r2
         | _, _ => false
         end) m1 m2
  | _, _ => false
  end.

(** [JSON.stringify(x) === JSON.stringify(y)] *)
Definition sameJSON (x y : JValue) : bool :=
  match JSON_stringify x, JSON_stringify y with
  | Some t1, Some t2 => JSONText_eqb t1 t2
  | None, None => true
  | _, _ => false
  end.

Section JSONText_induction.
Variable P : JSONText -> Prop.
Hypothesis Hnull : P TNull.
Hypothesis Hbool : forall b, P (TBool b).
Hypothesis Hnum : forall q, P (TNum q).
Hypothesis Hstr : forall s, P (TStr s).
Hypothesis Harr : forall items, Forall P items -> P (TArr items).
Hypothesis Hobj : forall members, Forall (fun kv => P (snd kv)) members -> P (TObj members).

Fixpoint JSONText_nested_ind (t : JSONText) : P t :=
  match t with
  | TNull => Hnull
  | TBool b => Hbool b
  | TNum q => Hnum q
  | TStr s => Hstr s
  | TArr items =>
      Harr items
        ((fix all (l : list JSONText) : Forall P l :=
            match l with
            | [] => Forall_nil P
            | x :: l' => Forall_cons x (JSONText_nested_ind x) (all l')
            end) items)
  | TObj members =>
      Hobj members
        ((fix all (l : list (string * JSONText)) : Forall (fun kv => P (snd kv)) l :=
            match l with
            | [] => Forall_nil _
            | kv :: l' => Forall_cons kv (JSONText_nested_ind (snd kv)) (all l')
            end) members)
  end.

End JSONText_induction.

(* ================================================================== *)
(** * Results, the store and the walk monad *)
(* ================================================================== *)

(** What a run can throw.  [OutsideModel] marks the few situations the
    embedding does not follow (a property named [__proto__], a bookkeeping
    bucket that is not a plain object of records); the walk never reaches
    them from the initial store unless a raw parent is called [__proto__]. *)
Inductive Error : Type :=
| UnknownPaintType (type : string)
| TypeError
| OutsideModel.

Inductive Result (A : Type) : Type :=
| Ok (value : A)
| Err (e : Error).

Arguments Ok {A} value.

Arguments Err {A} e.

Definition isOk {A} (res : Result A) : bool :=
  match res with Ok _ => true | Err _ => false end.

(** The store: the [globalVars] object and the number of [Math.random]
    calls made so far. *)
Record Store : Type := mkStore {
  globalVars : list (string * JValue);
  randomCalls : nat
}.

Definition M (A : Type) : Type := Store -> Result (A * Store).

Definition ret {A} (x : A) : M A := fun s => Ok (x, s).

Definition bind {A B} (m : M A) (k : A -> M B) : M B :=
  fun s => match m s with
           | Ok (x, s') => k x s'
           | Err e => Err e
           end.

Definition throw {A} (e : Error) : M A := fun _ => Err e.

Definition lift {A} (res : Result A) : M A :=
  fun s => match res with Ok x => Ok (x, s) | Err e => Err e end.

Notation "x <- m ;; k" := (bind m (fun x => k))
  (at level 61, m at next level, right associativity).

(** [xs.map(f)] for an [f] that may throw: left to right, stopping at the
    first exception. *)
Definition mapR {A B} (f : A -> Result B) : list A -> Result (list B) :=
  fix loop (xs : list A) : Result (list B) :=
    match xs with
    | [] => Ok []
    | x :: rest =>
        match f x with
        | Err e => Err e
        | Ok y => match loop rest with
                  | Err e => Err e
                  | Ok ys => Ok (y :: ys)
                  end
        end
    end.

Definition mapM {A B} (f : A -> M B) : list A -> M (list B) :=
  fix loop (xs : list A) : M (list B) :=
    match xs with
    | [] => ret []
    | x :: rest => y <- f x ;; ys <- loop rest ;; ret (y :: ys)
    end.

(** [.filter((child) => child !== null && child !== undefined)] *)
Fixpoint filterNonNull {A} (xs : list (option A)) : list A :=
  match xs with
  | [] => []
  | Some x :: rest => x :: filterNonNull rest
  | None :: rest => filterNonNull rest
  end.

(* ================================================================== *)
(** * Raw input: paints and nodes *)
(* ================================================================== *)

Record ColorStop : Type := mkColorStop {
  stop_position : Q;
  stop_color : RGBA
}.

(** A raw [Paint].  [p_color] and [p_gradientStops] are [None] when the
    property is missing; the pass-through properties are kept as values
    ([JUndefined] when missing). *)
Record Paint : Type := mkPaint {
  p_type : string;
  p_imageRef : JValue;
  p_scaleMode : JValue;
  p_color : option RGBA;
  p_opacity : option Q;
  p_gradientHandlePositions : JValue;
  p_gradientStops : option (list ColorStop)
}.

Record StrokeWeights : Type := mkStrokeWeights {
  sw_top : Q; sw_right : Q; sw_bottom : Q; sw_left : Q
}.

(** A raw document node.  [n_style] and [n_styles] are the raw values
    ([JUndefined] when the key is missing); absent and empty [children]
    are the same list. *)
Inductive RawNode : Type := mkRawNode {
  n_id : string;
  n_name : string;
  n_type : string;
  n_visible : option bool;
  n_style : JValue;
  n_fills : option (list Paint);
  n_styles : JValue;
  n_strokes : option (list Paint);
  n_characters : option string;
  n_strokeWeight : option Q;
  n_strokeDashes : option (list Q);
  n_individualStrokeWeights : option StrokeWeights;
  n_opacity : option Q;
  n_cornerRadius : option Q;
  n_children : list RawNode
}.

(** Modelled from the spec: the boundary helpers [hasValue], [isTruthy] and
    [isStrokeWeights] of [~/utils/identity] are imported by the walker but
    are not among the sources.  [hasValue] is true only if the field exists,
    is not null or undefined, and satisfies the predicate when one is given.
    A field is passed as [None] when it is missing, null or undefined. *)
Definition hasValue {A} (field : option A) (predicate : option (A -> bool)) : bool :=
  match field with
  | None => false
  | Some v => match predicate with Some p => p v | None => true end
  end.

Definition rawField (v : JValue) : option JValue :=
  if is_undefined v || is_null v then None else Some v.

(** The value of a property that [hasValue] has found; the default stands for
    a property that is not there and is never looked at. *)
Definition fieldOr {A} (default : A) (field : option A) : A :=
  match field with
  | Some v => v
  | None => default
  end.

Definition isTruthy (s : string) : bool := negb (String.length s =? 0).

Definition isStrokeWeights (w : StrokeWeights) : bool := true.

(** JavaScript truthiness. *)
Definition truthy (v : JValue) : bool :=
  match v with
  | JUndefined | JNull => false
  | JBool b => b
  | JNum q => negb (Qeq_bool q 0)
  | JStr s => negb (String.length s =? 0)
  | JArr _ | JObj _ => true
  end.

(** [x ?? y] *)
Definition nullish_coalesce (x y : JValue) : JValue :=
  if is_undefined x || is_null x then y else x.

(** [v !== 0] *)
Definition strict_neq_zero (v : JValue) : bool :=
  match v with JNum q => negb (Qeq_bool q 0) | _ => true end.

(* ================================================================== *)
(** * parsePaint *)
(* ================================================================== *)

Definition gradientTypes : list string :=
  ["GRADIENT_LINEAR"; "GRADIENT_RADIAL"; "GRADIENT_ANGULAR"; "GRADIENT_DIAMOND"].

Definition includes (l : list string) (s : string) : bool :=
  existsb (fun t => String.eqb t s) l.

Definition parsePaint (raw : Paint) : Result JValue :=
  if String.eqb raw.(p_type) "IMAGE" then
    Ok (JObj [("type", JStr "IMAGE");
              ("imageRef", raw.(p_imageRef));
              ("scaleMode", raw.(p_scaleMode))])
  else if String.eqb raw.(p_type) "SOLID" then
    match raw.(p_color) with
    | None => Err TypeError
    | Some color =>
        let cv := convertColor color raw.(p_opacity) in
        Ok (JObj [("type", JStr "SOLID");
                  ("hex", JStr cv.(hex));
                  ("opacity", JNum cv.(opacity))])
    end
  else if includes gradientTypes raw.(p_type) then
    match raw.(p_gradientStops) with
    | None => Err TypeError
    | Some stops =>
        Ok (JObj [("type", JStr raw.(p_type));
                  ("gradientHandlePositions", raw.(p_gradientHandlePositions));
                  ("gradientStops",
                   JArr (map (fun stop =>
                                JObj [("position", JNum stop.(stop_position));
                                      ("color", ColorValue_toJ (convertColor stop.(stop_color) None))])
                             stops))])
    end
  else Err (UnknownPaintType raw.(p_type)).

(** The paint kinds the normalizer knows. *)
Definition knownPaintType (t : string) : bool :=
  includes ("IMAGE" :: "SOLID" :: gradientTypes) t.

(** Induction over raw trees. *)
Section RawNode_induction.
Variable P : RawNode -> Prop.
Hypothesis Hnode :
  forall id name type visible style fills styles strokes characters strokeWeight
         strokeDashes individualStrokeWeights opacity cornerRadius children,
    Forall P children ->
    P (mkRawNode id name type visible style fills styles strokes characters strokeWeight
                 strokeDashes individualStrokeWeights opacity cornerRadius children).

Fixpoint RawNode_nested_ind (n : RawNode) : P n :=
  match n with
  | mkRawNode id name type visible style fills styles strokes characters strokeWeight
              strokeDashes individualStrokeWeights opacity cornerRadius children =>
      Hnode id name type visible style fills styles strokes characters strokeWeight
            strokeDashes individualStrokeWeights opacity cornerRadius children
        ((fix all (l : list RawNode) : Forall P l :=
            match l with
            | [] => Forall_nil P
            | c :: l' => Forall_cons c (RawNode_nested_ind c) (all l')
            end) children)
  end.

End RawNode_induction.

(* ================================================================== *)
(** * The engine *)
(* ================================================================== *)

Section Engine.

(** The layout builder of [~/transformers/layout] is a collaborator outside
    the sources: any function from a node and its parent to a layout
    object. *)
Variable buildSimplifiedLayout : RawNode -> option RawNode -> JValue.

(** The language's conversion of a number to a string, used by the template
    literal of [borderRadius]. *)
Variable numberToString : Q -> string.

(** [random k] stands for [Math.floor(Math.random() * chars.length)] at the
    k-th call of [Math.random]; only its residue below the alphabet's length
    is used. *)
Variable random : nat -> nat.

(** ** generateVarId *)

Definition chars : string := "ABCDEFGHIJKLMNOPQRSTUVWXYZ0123456789".

Definition charAt (s : string) (i : nat) : string :=
  match String.get i s with
  | Some c => String c EmptyString
  | None => "undefined"
  end.

Fixpoint randomChars (count call : nat) : string :=
  match count with
  | O => EmptyString
  | S count' =>
      let randomIndex := random call mod String.length chars in
      String.append (charAt chars randomIndex) (randomChars count' (S call))
  end.

Definition varIdAt (prefix : string) (call : nat) : string :=
  String.append prefix (String.append "_" (randomChars 6 call)).

Definition generateVarId (prefix : string) : M string :=
  fun s => Ok (varIdAt prefix s.(randomCalls),
               mkStore s.(globalVars) (s.(randomCalls) + 6)).

(** ** hexToRgba and formatRGBAColor *)

(** Strings are sequences of code units below 256; these two helpers of
    [utils/common] print numbers through the language's own conversion. *)

(** [hex.replace('#', '')]: the first [#], wherever it stands, is removed. *)
Fixpoint removeFirstHash (hex : string) : string :=
  match hex with
  | EmptyString => EmptyString
  | String c rest =>
      if Ascii.eqb c "#"%char then rest else String c (removeFirstHash rest)
  end.

(** The white space [parseInt] skips: TAB, LF, VT, FF, CR, SP and NBSP. *)
Definition isWhiteSpace (c : ascii) : bool :=
  let n := nat_of_ascii c in
  ((9 <=? n) && (n <=? 13)) || (n =? 32) || (n =? 160).

Fixpoint trimStart (s : string) : string :=
  match s with
  | EmptyString => EmptyString
  | String c rest => if isWhiteSpace c then trimStart rest else s
  end.

(** The value of a digit in radix 16. *)
Definition hexValue (c : ascii) : option Z :=
  let n := nat_of_ascii c in
  if (48 <=? n) && (n <=? 57) then Some (Z.of_nat (n - 48))
  else if (97 <=? n) && (n <=? 102) then Some (Z.of_nat (n - 87))
  else if (65 <=? n) && (n <=? 70) then Some (Z.of_nat (n - 55))
  else None.

(** The longest prefix of radix-16 digits, read as a number; [acc] is what
    has been read so far, [None] while no digit has been seen. *)
Fixpoint hexPrefix (s : string) (acc : option Z) : option Z :=
  match s with
  | EmptyString => acc
  | String c rest =>
      match hexValue c with
      | Some d =>
          hexPrefix rest (Some (match acc with
                                | Some v => (v * 16 + d)%Z
                                | None => d
                                end))
      | None => acc
      end
  end.

(** [parseInt(s, 16)]; [None] is NaN.  Leading white space is skipped, a
    sign is read, a [0x] or [0X] prefix is dropped, and the digits up to the
    first character that is none are the value.  Integers are exact (the
    callers pass two characters), and minus zero is zero. *)
Definition parseInt16 (s : string) : option Z :=
  let s := trimStart s in
  let '(sign, s) :=
    match s with
    | String "-"%char rest => ((-1)%Z, rest)
    | String "+"%char rest => (1%Z, rest)
    | _ => (1%Z, s)
    end in
  let s :=
    match s with
    | String "0"%char (String "x"%char rest) => rest
    | String "0"%char (String "X"%char rest) => rest
    | _ => s
    end in
  match hexPrefix s None with
  | Some v => Some (sign * v)%Z
  | None => None
  end.

(** The template literal's text of what [parseInt] returned. *)
Definition integerText (v : option Z) : string :=
  match v with
  | Some z => numberToString (inject_Z z)
  | None => "NaN"
  end.

(** [Math.max] and [Math.min] of two numbers. *)
Definition Math_max (x y : Q) : Q := if Qle_bool y x then x else y.

Definition Math_min (x y : Q) : Q := if Qle_bool x y then x else y.

(** [`rgba(${r}, ${g}, ${b}, ${a})`] *)
Definition rgbaText (r g b a : string) : string :=
  String.append "rgba("
    (String.append r
       (String.append ", "
          (String.append g
             (String.append ", "
                (String.append b
                   (String.append ", " (String.append a ")"))))))).

(** [hexToRgba(hex, opacity = 1)]; [None] is the omitted argument. *)
Definition hexToRgba (hex : string) (opacity : option Q) : string :=
  let opacity := match opacity with Some o => o | None => 1%Q end in
  let hex := removeFirstHash hex in
  let hex :=
    if String.length hex =? 3
    then String.append (charAt hex 0)
           (String.append (charAt hex 0)
              (String.append (charAt hex 1)
                 (String.append (charAt hex 1)
                    (String.append (charAt hex 2) (charAt hex 2)))))
    else hex in
  let r := parseInt16 (substring 0 2 hex) in
  let g := parseInt16 (substring 2 2 hex) in
  let b := parseInt16 (substring 4 2 hex) in
  let validOpacity := Math_min (Math_max opacity 0) 1 in
  rgbaText (integerText r) (integerText g) (integerText b) (numberToString validOpacity).

(** [formatRGBAColor(color, opacity = 1)] *)
Definition formatRGBAColor (color : RGBA) (opacity : option Q) : string :=
  let opacity := match opacity with Some o => o | None => 1%Q end in
  let r := Math_round (color.(r) * 255) in
  let g := Math_round (color.(g) * 255) in
  let b := Math_round (color.(b) * 255) in
  let a := (inject_Z (Math_round (opacity * color.(a) * 100)) / 100)%Q in
  rgbaText (numberToString (inject_Z r)) (numberToString (inject_Z g))
           (numberToString (inject_Z b)) (numberToString a).

(** ** findOrCreateVar *)

Definition findExisting (value : JValue) (vars : list (string * JValue))
  : option (string * JValue) :=
  find (fun entry => sameJSON (snd entry) value) vars.

Definition setVar (varId : string) (value : JValue) : M unit :=
  fun s => Ok (tt, mkStore (obj_set varId value s.(globalVars)) s.(randomCalls)).

Definition createVar (value : JValue) : M string :=
  varId <- generateVarId "var" ;;
  _ <- setVar varId value ;;
  ret varId.

Definition findOrCreateVar (value : JValue) : M string :=
  fun s =>
    match findExisting value s.(globalVars) with
    | Some (existingVarId, _) =>
        if negb (String.length existingVarId =? 0)
        then Ok (existingVarId, s)
        else createVar value s
    | None => createVar value s
    end.

(** ** parseNode *)

Definition textStyleOf (style : JValue) : JValue :=
  JObj [("fontFamily", jget "fontFamily" style);
        ("fontWeight", jget "fontWeight" style);
        ("fontSize", jget "fontSize" style);
        ("lineHeight", nullish_coalesce (jget "lineHeightPx" style) (jget "fontSize" style));
        ("letterSpacing",
         if truthy (jget "letterSpacing" style) && strict_neq_zero (jget "letterSpacing" style)
         then jget "letterSpacing" style
         else JUndefined);
        ("textCase", jget "textCase" style);
        ("textAlignHorizontal", jget "textAlignHorizontal" style);
        ("textAlignVertical", jget "textAlignVertical" style)].

Definition nonEmptyList {A} (l : list A) : bool := negb (List.length l =? 0).

(** The text block. *)
Definition parseTextStyle (n : RawNode) (simplified : list (string * JValue))
  : M (list (string * JValue)) :=
  if hasValue (rawField n.(n_style)) None && negb (Object_keys_length n.(n_style) =? 0)
  then varId <- findOrCreateVar (textStyleOf n.(n_style)) ;;
       ret (obj_set "textStyle" (JStr varId) simplified)
  else ret simplified.

(** A fill or stroke list: every paint normalized, the whole list one
    variable. *)
Definition parsePaints (key : string) (paints : option (list Paint))
    (simplified : list (string * JValue)) : M (list (string * JValue)) :=
  let raws := fieldOr [] paints in
  if hasValue paints None && nonEmptyList raws
  then normalized <- lift (mapR parsePaint raws) ;;
       varId <- findOrCreateVar (JArr normalized) ;;
       ret (obj_set key (JStr varId) simplified)
  else ret simplified.

Definition parseStyles (n : RawNode) (simplified : list (string * JValue))
  : M (list (string * JValue)) :=
  if hasValue (rawField n.(n_styles)) None
  then varId <- findOrCreateVar n.(n_styles) ;;
       ret (obj_set "styles" (JStr varId) simplified)
  else ret simplified.

Definition parseLayout (n : RawNode) (parent : option RawNode)
    (simplified : list (string * JValue)) : M (list (string * JValue)) :=
  let layout := buildSimplifiedLayout n parent in
  if 1 <? Object_keys_length layout
  then varId <- findOrCreateVar layout ;;
       ret (obj_set "layout" (JStr varId) simplified)
  else ret simplified.

(** [simplified.strokes?.length] *)
Definition strokesLength (simplified : list (string * JValue)) : bool :=
  match obj_get "strokes" simplified with
  | Some (JStr s) => negb (String.length s =? 0)
  | Some (JArr items) => nonEmptyList items
  | _ => false
  end.

(** The three assignments that need no variable: text, strokeWeight,
    strokeDashes. *)
Definition parseSimpleProps (n : RawNode) (simplified : list (string * JValue))
  : list (string * JValue) :=
  let simplified :=
    if hasValue n.(n_characters) (Some isTruthy)
    then match n.(n_characters) with
         | Some text => obj_set "text" (JStr text) simplified
         | None => simplified
         end
    else simplified in
  let simplified :=
    if hasValue n.(n_strokeWeight) None && strokesLength simplified
    then match n.(n_strokeWeight) with
         | Some w => obj_set "strokeWeight" (JNum w) simplified
         | None => simplified
         end
    else simplified in
  let dashes := fieldOr [] n.(n_strokeDashes) in
  if hasValue n.(n_strokeDashes) None && nonEmptyList dashes
  then obj_set "strokeDashes" (JArr (map JNum dashes)) simplified
  else simplified.

Definition parseStrokeWeights (n : RawNode) (simplified : list (string * JValue))
  : M (list (string * JValue)) :=
  if hasValue n.(n_individualStrokeWeights) (Some isStrokeWeights)
  then match n.(n_individualStrokeWeights) with
       | Some w =>
           let strokeWeights :=
             JObj [("top", JNum w.(sw_top)); ("right", JNum w.(sw_right));
                   ("bottom", JNum w.(sw_bottom)); ("left", JNum w.(sw_left))] in
           varId <- findOrCreateVar strokeWeights ;;
           ret (obj_set "individualStrokeWeights" (JStr varId) simplified)
       | None => ret simplified
       end
  else ret simplified.

Definition parseOpacityRadius (n : RawNode) (simplified : list (string * JValue))
  : list (string * JValue) :=
  let simplified :=
    if hasValue n.(n_opacity) None
    then match n.(n_opacity) with
         | Some o => obj_set "opacity" (JNum o) simplified
         | None => simplified
         end
    else simplified in
  if hasValue n.(n_cornerRadius) None
  then match n.(n_cornerRadius) with
       | Some radius =>
           obj_set "borderRadius" (JStr (String.append (numberToString radius) "px")) simplified
       | None => simplified
       end
  else simplified.

(** Everything [parseNode] does between the visibility test and the
    recursion into the children. *)
Definition parseOwnFields (n : RawNode) (parent : option RawNode) : M (list (string * JValue)) :=
  let simplified := [("id", JStr n.(n_id)); ("type", JStr n.(n_type))] in
  simplified <- parseTextStyle n simplified ;;
  simplified <- parsePaints "fills" n.(n_fills) simplified ;;
  simplified <- parseStyles n simplified ;;
  simplified <- parsePaints "strokes" n.(n_strokes) simplified ;;
  simplified <- parseLayout n parent simplified ;;
  simplified <- parseStrokeWeights n (parseSimpleProps n simplified) ;;
  ret (parseOpacityRadius n simplified).

(** [globalVars.vectorParents[parent.id] = {...}] *)
Definition vectorParentRecord (parent : RawNode) (vectorId : string) : JValue :=
  JObj [("parentId", JStr parent.(n_id));
        ("parentName", JStr parent.(n_name));
        ("parentType", JStr parent.(n_type));
        ("childrenId", JStr vectorId)].

Definition recordVectorParent (parent : RawNode) (vectorId : string) : M unit :=
  fun s =>
    match obj_get "vectorParents" s.(globalVars) with
    | Some (JObj vectorParents) =>
        if String.eqb parent.(n_id) "__proto__" then Err OutsideModel
        else
          let vectorParents' :=
            obj_set parent.(n_id) (vectorParentRecord parent vectorId) vectorParents in
          Ok (tt, mkStore (obj_set "vectorParents" (JObj vectorParents') s.(globalVars))
                          s.(randomCalls))
    | Some (JArr _) => Err OutsideModel
    | _ => Err TypeError
    end.

(** The VECTOR block: the node without its id is registered, and the parent,
    when there is one, is recorded under its own id. *)
Definition registerVector (parent : option RawNode) (simplified : list (string * JValue))
  : M unit :=
  let vectorNodeData := JObj (obj_delete "id" simplified) in
  vectorId <- findOrCreateVar vectorNodeData ;;
  match parent with
  | Some p => recordVectorParent p vectorId
  | None => ret tt
  end.

Definition isInvisible (n : RawNode) : bool :=
  match n.(n_visible) with
  | Some visible => negb visible
  | None => false
  end.

Definition attachChildren (children : list (option JValue))
    (simplified : list (string * JValue)) : list (string * JValue) :=
  let children := filterNonNull children in
  if nonEmptyList children
  then obj_set "children" (JArr children) simplified
  else simplified.

Fixpoint parseNode (n : RawNode) (parent : option RawNode) {struct n} : M (option JValue) :=
  if isInvisible n then ret None
  else
    simplified <- parseOwnFields n parent ;;
    simplified <-
      (if nonEmptyList n.(n_children)
       then children <- mapM (fun child => parseNode child (Some n)) n.(n_children) ;;
            ret (attachChildren children simplified)
       else ret simplified) ;;
    _ <- (if String.eqb n.(n_type) "VECTOR"
          then registerVector parent simplified
          else ret tt) ;;
    ret (Some (removeEmptyKeys (JObj simplified))).

(** ** findNodeById and the in-place rewrite *)

(** The [for (const node of nodes)] loop: the first node for which the body
    returns. *)
Definition firstFound {B} (f : JValue -> option B) : list JValue -> option B :=
  fix loop (nodes : list JValue) : option B :=
    match nodes with
    | [] => None
    | node :: rest =>
        match f node with
        | Some found => Some found
        | None => loop rest
        end
    end.

(** [node.children], when it is an array, handed to [k]. *)
Definition inChildren {B} (k : list JValue -> option B) : list (string * JValue) -> option B :=
  fix loop (props : list (string * JValue)) : option B :=
    match props with
    | [] => None
    | (key, v) :: rest =>
        if String.eqb key "children"
        then match v with JArr items => k items | _ => None end
        else loop rest
    end.

(** [node?.id === id] *)
Definition hasId (id : string) (props : list (string * JValue)) : bool :=
  match obj_get "id" props with
  | Some (JStr s) => String.eqb s id
  | _ => false
  end.

Fixpoint findInNode (id : string) (node : JValue) {struct node} : option JValue :=
  match node with
  | JObj props =>
      if hasId id props then Some node
      else inChildren (firstFound (findInNode id)) props
  | _ => None
  end.

Definition findNodeById (id : string) (nodes : list JValue) : option JValue :=
  firstFound (findInNode id) nodes.

(** The stub that [Object.assign] leaves in the found node once all of its
    keys are deleted. *)
Definition imageStub (id : string) : JValue :=
  JObj [("id", JStr id); ("type", JStr "IMAGE")].

(** The node [findNodeById] returns is an object of the tree, and the
    grouping pass mutates it where it is.  [rewriteInNode] follows the same
    search and rebuilds the tree around the changed node; [None] when the
    search finds nothing. *)
Definition rewriteFirst (f : JValue -> option JValue) : list JValue -> option (list JValue) :=
  fix loop (nodes : list JValue) : option (list JValue) :=
    match nodes with
    | [] => None
    | node :: rest =>
        match f node with
        | Some node' => Some (node' :: rest)
        | None => match loop rest with
                  | Some rest' => Some (node :: rest')
                  | None => None
                  end
        end
    end.

Definition rewriteChildren (k : list JValue -> option (list JValue))
  : list (string * JValue) -> option (list (string * JValue)) :=
  fix loop (props : list (string * JValue)) : option (list (string * JValue)) :=
    match props with
    | [] => None
    | (key, v) :: rest =>
        if String.eqb key "children"
        then match v with
             | JArr items =>
                 match k items with
                 | Some items' => Some ((key, JArr items') :: rest)
                 | None => None
                 end
             | _ => None
             end
        else match loop rest with
             | Some rest' => Some ((key, v) :: rest')
             | None => None
             end
    end.

Fixpoint rewriteInNode (id : string) (node : JValue) {struct node} : option JValue :=
  match node with
  | JObj props =>
      if hasId id props then Some (imageStub id)
      else match rewriteChildren (rewriteFirst (rewriteInNode id)) props with
           | Some props' => Some (JObj props')
           | None => None
           end
  | _ => None
  end.

(** One turn of the inner [parentIds.forEach]: look the parent up and, if it
    is found, turn it into the stub. *)
Definition rewriteParent (nodes : list JValue) (parentId : string) : list JValue :=
  match rewriteFirst (rewriteInNode parentId) nodes with
  | Some nodes' => nodes'
  | None => nodes
  end.

(** ** parseGlobalVars *)

(** Names a plain object inherits: [childrenToParents[name]] is truthy for
    them although the object has no such property of its own. *)
Definition objectPrototypeKeys : list string :=
  ["constructor"; "__defineGetter__"; "__defineSetter__"; "hasOwnProperty";
   "__lookupGetter__"; "__lookupSetter__"; "isPrototypeOf"; "propertyIsEnumerable";
   "toString"; "valueOf"; "__proto__"; "toLocaleString"].

(** [childrenToParents[childrenId].push(parentId)] *)
Definition pushParent (childrenId parentId : string)
    (childrenToParents : list (string * list string)) : list (string * list string) :=
  match obj_get childrenId childrenToParents with
  | Some parentIds => obj_set childrenId (parentIds ++ [parentId]) childrenToParents
  | None => childrenToParents
  end.

(** The first [forEach]: the entries of the bucket grouped by [childrenId];
    a group's variable is deleted from [globalVars] when the group is
    opened. *)
Fixpoint groupVectorParents (entries : list (string * JValue))
    (childrenToParents : list (string * list string))
    (vars : list (string * JValue))
  : Result (list (string * list string) * list (string * JValue)) :=
  match entries with
  | [] => Ok (childrenToParents, vars)
  | (parentId, data) :: rest =>
      match jget "childrenId" data with
      | JStr childrenId =>
          if includes objectPrototypeKeys childrenId then Err OutsideModel
          else
            let '(childrenToParents, vars) :=
              match obj_get childrenId childrenToParents with
              | None => (obj_set childrenId [] childrenToParents, obj_delete childrenId vars)
              | Some _ => (childrenToParents, vars)
              end in
            groupVectorParents rest (pushParent childrenId parentId childrenToParents) vars
      | _ => Err OutsideModel
      end
  end.

Definition childrenToParents_toJ (childrenToParents : list (string * list string)) : JValue :=
  JObj (map (fun group => (fst group, JArr (map JStr (snd group)))) childrenToParents).

(** Returns the store and the node list, both of which the source mutates
    in place. *)
Definition parseGlobalVars (vars : list (string * JValue)) (simplifiedNodes : list JValue)
  : Result (list (string * JValue) * list JValue) :=
  match obj_get "vectorParents" vars with
  | Some (JObj vectorParents) =>
      match groupVectorParents vectorParents [] vars with
      | Err e => Err e
      | Ok (childrenToParents, vars) =>
          let simplifiedNodes :=
            if nonEmptyList simplifiedNodes
            then fold_left
                   (fun nodes parentIds => fold_left rewriteParent parentIds nodes)
                   (obj_values childrenToParents) simplifiedNodes
            else simplifiedNodes in
          let vars := obj_set "childrenToParents" (childrenToParents_toJ childrenToParents) vars in
          Ok (obj_delete "vectorParents" vars, simplifiedNodes)
      end
  | None | Some JUndefined | Some JNull => Err TypeError
  | Some _ => Err OutsideModel
  end.

(** ** The two entry points *)

Record SimplifiedDesign : Type := mkSimplifiedDesign {
  sd_name : string;
  sd_lastModified : string;
  sd_nodes : list JValue;
  sd_globalVars : list (string * JValue)
}.

Record GetFileResponse : Type := mkGetFileResponse {
  file_name : string;
  file_lastModified : string;
  file_document : RawNode
}.

Record GetFileNodesResponse : Type := mkGetFileNodesResponse {
  nodes_name : string;
  nodes_lastModified : string;
  nodes_nodes : list (string * RawNode)
}.

Definition initialStore : Store := mkStore [("vectorParents", JObj [])] 0.

(** The walk over the top-level nodes, from the initial store. *)
Definition walkRoots (roots : list RawNode) : Result (list JValue * Store) :=
  match mapM (fun n => parseNode n None) roots initialStore with
  | Err e => Err e
  | Ok (parsed, s) => Ok (filterNonNull parsed, s)
  end.

(** The body the two entry points share. *)
Definition simplifyRoots (name lastModified : string) (roots : list RawNode)
  : Result SimplifiedDesign :=
  match walkRoots roots with
  | Err e => Err e
  | Ok (simplifiedNodes, s) =>
      match parseGlobalVars s.(globalVars) simplifiedNodes with
      | Err e => Err e
      | Ok (vars, nodes) => Ok (mkSimplifiedDesign name lastModified nodes vars)
      end
  end.

Definition parseFigmaFileResponse (data : GetFileResponse) : Result SimplifiedDesign :=
  simplifyRoots data.(file_name) data.(file_lastModified) data.(file_document).(n_children).

Definition parseFigmaResponse (data : GetFileNodesResponse) : Result SimplifiedDesign :=
  simplifyRoots data.(nodes_name) data.(nodes_lastModified) (map snd data.(nodes_nodes)).

(* ================================================================== *)
(** * Notions the statements are written in *)
(* ================================================================== *)

(** Every identifier [generateVarId] returns begins with [var_]. *)
Definition isVarKey (k : string) : bool :=
  match k with
  | String "v" (String "a" (String "r" (String "_" _))) => true
  | _ => false
  end.

(** The keys of the store during a walk: the bucket and minted variables. *)
Definition goodKey (k : string) : bool :=
  String.eqb k "vectorParents" || isVarKey k.

(** The two ways a call can end: a hit leaves the store as it is, a miss
    mints the next identifier and binds it. *)
Inductive findOrCreateVar_outcome (value : JValue) (s : Store) (id : string) (s' : Store) : Prop :=
| outcome_hit w :
    findExisting value s.(globalVars) = Some (id, w) ->
    id <> "" -> s' = s ->
    findOrCreateVar_outcome value s id s'
| outcome_miss :
    (forall k w, findExisting value s.(globalVars) = Some (k, w) -> k = "") ->
    id = varIdAt "var" s.(randomCalls) ->
    s' = mkStore (obj_set id value s.(globalVars)) (s.(randomCalls) + 6) ->
    findOrCreateVar_outcome value s id s'.

(** One step of a run, as far as the store is concerned: a call of
    [findOrCreateVar], the VECTOR block, or the walk of a whole subtree. *)
Inductive runStep : Store -> Store -> Prop :=
| step_find value id s s' :
    findOrCreateVar value s = Ok (id, s') -> runStep s s'
| step_register parent simplified s s' :
    registerVector parent simplified s = Ok (tt, s') -> runStep s s'
| step_node n parent result s s' :
    parseNode n parent s = Ok (result, s') -> runStep s s'.

(** [sameRun s s']: the store [s'] is reached from [s] by steps of a run. *)
Inductive sameRun : Store -> Store -> Prop :=
| run_here s : sameRun s s
| run_more s s1 s2 : runStep s s1 -> sameRun s1 s2 -> sameRun s s2.

(** The keys under which the walk of [n] writes the bucket: the parents of
    the visible VECTOR nodes it reaches, in the order of the writes. *)
Fixpoint recordKeys (n : RawNode) (parent : option RawNode) {struct n} : list string :=
  if isInvisible n then []
  else
    flat_map (fun child => recordKeys child (Some n)) n.(n_children)
    ++ (if String.eqb n.(n_type) "VECTOR"
        then match parent with Some p => [p.(n_id)] | None => [] end
        else []).

(** [id] is minted on the way from [s] to [s']: identifiers are drawn six
    random calls apart. *)
Definition mintedBetween (s s' : Store) (id : string) : Prop :=
  exists i, randomCalls s + 6 * i < randomCalls s'
            /\ id = varIdAt "var" (randomCalls s + 6 * i).

Definition callsAdvance (s s' : Store) : Prop :=
  exists m, randomCalls s' = randomCalls s + 6 * m.

(** The JSON text of a vector-parent record. *)
Definition isRecordText (t : JSONText) : bool :=
  match t with
  | TObj [(k1, TStr _); (k2, TStr _); (k3, TStr _); (k4, TStr _)] =>
      String.eqb k1 "parentId" && String.eqb k2 "parentName"
      && String.eqb k3 "parentType" && String.eqb k4 "childrenId"
  | _ => false
  end.

(** No member of the payload's JSON text is a vector-parent record: the
    payload cannot be mistaken for a bucket that holds one. *)
Definition holdsNoRecord (value : JValue) : bool :=
  match JSON_stringify value with
  | Some (TObj members) => forallb (fun m => negb (isRecordText (snd m))) members
  | _ => true
  end.

(** ** A registered payload keeps its identifier *)

Definition keepsMatches (s s' : Store) : Prop :=
  callsAdvance s s'
  /\ forall value id w,
       findExisting value s.(globalVars) = Some (id, w) ->
       id <> "" -> id <> "vectorParents" -> holdsNoRecord value = true ->
       ~ mintedBetween s s' id ->
       findExisting value s'.(globalVars) = Some (id, w).

(** ** A bound identifier keeps its payload *)

Definition keepsBindings (s s' : Store) : Prop :=
  callsAdvance s s'
  /\ forall k w,
       obj_get k s.(globalVars) = Some w ->
       k <> "vectorParents" -> ~ mintedBetween s s' k ->
       obj_get k s'.(globalVars) = Some w.

Definition recordEntry (entry : string * JValue) : Prop :=
  exists p vectorId,
    entry = (p.(n_id), vectorParentRecord p vectorId) /\ goodKey vectorId = true.

(** The keys are the bucket's and minted identifiers, without repetition;
    the bucket is an object of vector-parent records, keyed by parent. *)
Definition wellFormed (s : Store) : Prop :=
  NoDup (obj_keys s.(globalVars))
  /\ Forall (fun k => goodKey k = true) (obj_keys s.(globalVars))
  /\ exists vectorParents,
       obj_get "vectorParents" s.(globalVars) = Some (JObj vectorParents)
       /\ NoDup (obj_keys vectorParents)
       /\ Forall recordEntry vectorParents.

Definition keepsWellFormed (s s' : Store) : Prop := wellFormed s -> wellFormed s'.

(** The parents listed under a content address; none when there is no such
    group. *)
Definition groupOf (childrenId : string) (childrenToParents : list (string * list string))
  : list string :=
  match obj_get childrenId childrenToParents with
  | Some parentIds => parentIds
  | None => []
  end.

(** The content addresses the records of a bucket name. *)
Definition recordedChildrenIds (entries : list (string * JValue)) : list string :=
  flat_map (fun entry => match jget "childrenId" (snd entry) with
                         | JStr childrenId => [childrenId]
                         | _ => []
                         end) entries.

(** One turn of the first loop, on the two objects it changes. *)
Definition groupStep (childrenId parentId : string)
    (acc : list (string * list string) * list (string * JValue))
  : list (string * list string) * list (string * JValue) :=
  let '(childrenToParents, vars) :=
    match obj_get childrenId (fst acc) with
    | None => (obj_set childrenId [] (fst acc), obj_delete childrenId (snd acc))
    | Some _ => acc
    end in
  (pushParent childrenId parentId childrenToParents, vars).

(** The rewrite follows the search: it fails exactly when the search does,
    and after it the search returns the stub. *)
Definition searchAgrees (id : string) (node : JValue) : Prop :=
  match findInNode id node with
  | None => rewriteInNode id node = None
  | Some _ =>
      exists node', rewriteInNode id node = Some node'
                    /\ findInNode id node' = Some (imageStub id)
  end.

Definition searchAgreesList (id : string) (nodes : list JValue) : Prop :=
  match firstFound (findInNode id) nodes with
  | None => rewriteFirst (rewriteInNode id) nodes = None
  | Some _ =>
      exists nodes', rewriteFirst (rewriteInNode id) nodes = Some nodes'
                     /\ firstFound (findInNode id) nodes' = Some (imageStub id)
  end.

Definition searchAgreesDeep (id : string) (v : JValue) : Prop :=
  searchAgrees id v
  /\ match v with JArr items => searchAgreesList id items | _ => True end.

(** The search only returns nodes that carry the identifier it looks for. *)
Definition foundHasId (id : string) (v : JValue) : Prop :=
  (forall found, findInNode id v = Some found -> jget "id" found = JStr id)
  /\ match v with
     | JArr items =>
         forall found, firstFound (findInNode id) items = Some found ->
                       jget "id" found = JStr id
     | _ => True
     end.

(** [setsOnly keys o o']: [o'] comes from [o] by assignments to properties
    named in [keys]. *)
Inductive setsOnly (keys : list string)
  : list (string * JValue) -> list (string * JValue) -> Prop :=
| sets_none o : setsOnly keys o o
| sets_more o k v o' :
    In k keys -> setsOnly keys (obj_set k v o) o' -> setsOnly keys o o'.

(** The keys the blocks after the text block may assign. *)
Definition laterFieldKeys : list string :=
  ["fills"; "styles"; "strokes"; "layout"; "text"; "strokeWeight"; "strokeDashes";
   "individualStrokeWeights"; "opacity"; "borderRadius"].

(** The skeleton of a tree: identifiers and nesting. *)
Inductive IdTree : Type :=
| IdNode (id : string) (children : list IdTree).

(** The raw tree without its invisible nodes and everything below them. *)
Fixpoint visibleTree (n : RawNode) : option IdTree :=
  if isInvisible n then None
  else Some (IdNode n.(n_id) (filterNonNull (map visibleTree n.(n_children)))).

(** The skeleton of a simplified node: its [id] and, under [children], the
    skeletons of the nodes listed there. *)
Fixpoint outputTree (node : JValue) : option IdTree :=
  match node with
  | JObj props =>
      match obj_get "id" props with
      | Some (JStr id) =>
          Some (IdNode id
                  (match inChildren
                           (fun items => Some (filterNonNull (map outputTree items))) props with
                   | Some trees => trees
                   | None => []
                   end))
      | _ => None
      end
  | _ => None
  end.

Fixpoint treeIds (t : IdTree) : list string :=
  match t with
  | IdNode id children => id :: flat_map treeIds children
  end.

Definition visibleIds (roots : list RawNode) : list string :=
  flat_map treeIds (filterNonNull (map visibleTree roots)).

Definition outputIds (nodes : list JValue) : list string :=
  flat_map treeIds (filterNonNull (map outputTree nodes)).

Definition resultTree (result : option JValue) : option IdTree :=
  match result with
  | Some node => outputTree node
  | None => None
  end.

Definition optTreeIds (t : option IdTree) : list string :=
  match t with
  | Some tree => treeIds tree
  | None => []
  end.

(** The rewrite adds no identifier to a tree. *)
Definition shrinks (id : string) (v : JValue) : Prop :=
  (forall v', rewriteInNode id v = Some v' ->
              incl (optTreeIds (outputTree v')) (optTreeIds (outputTree v)))
  /\ match v with
     | JArr items =>
         forall items', rewriteFirst (rewriteInNode id) items = Some items' ->
                        incl (outputIds items') (outputIds items)
     | _ => True
     end.

(** The bucket of a store. *)
Definition bucketOf (s : Store) : list (string * JValue) :=
  match obj_get "vectorParents" s.(globalVars) with
  | Some (JObj vectorParents) => vectorParents
  | _ => []
  end.

Definition bucketKeysWithin (keys : list string) (s s' : Store) : Prop :=
  incl (obj_keys (bucketOf s')) (obj_keys (bucketOf s) ++ keys).

(** The member of a value's JSON text under a key, if the text is an object
    that has one. *)
Definition textMember (key : string) (v : JValue) : option JSONText :=
  match JSON_stringify v with
  | Some (TObj members) => obj_get key members
  | _ => None
  end.

Definition carriesTextStyle (n : RawNode) : bool :=
  hasValue (rawField n.(n_style)) None && negb (Object_keys_length n.(n_style) =? 0).


(** ** The calls of the walk *)





(** The VECTOR block of the walk of [v], a child of [p] reached on the
    store [sc]: [payload] is the simplified node without its [id], built
    from the fields of [v] and its walked children; [sy] is the store on
    which [findOrCreateVar] is called for it, [vectorId] what the call
    returns; the record of [p] is then written, and [sv] is the store the
    walk of [v] leaves. *)
Definition vectorRegistration (v p : RawNode) (sc : Store) (payload : JValue)
    (sy : Store) (vectorId : string) (sv : Store) : Prop :=
  exists own sx children sz result,
    parseOwnFields v (Some p) sc = Ok (own, sx)
    /\ mapM (fun c => parseNode c (Some v)) v.(n_children) sx = Ok (children, sy)
    /\ payload = JObj (obj_delete "id" (attachChildren children own))
    /\ findOrCreateVar payload sy = Ok (vectorId, sz)
    /\ recordVectorParent p vectorId sz = Ok (tt, sv)
    /\ parseNode v (Some p) sc = Ok (result, sv).



(** ** Notions for the further properties *)

(** No object inside [v] has a member that the pruner drops: none holds an
    undefined value, an empty array or an empty object, and none is an own
    property named [__proto__]. *)
Fixpoint noEmptyMembers (v : JValue) : bool :=
  match v with
  | JArr items => forallb noEmptyMembers items
  | JObj props =>
      forallb (fun kv => let '(key, x) := kv in
                         negb (isEmptyValue x) && createsOwnProperty key && noEmptyMembers x)
              props
  | _ => true
  end.

(** The own property [key] of [v], when it has one. *)
Definition ownProperty (key : string) (v : JValue) : option JValue :=
  match v with
  | JObj props => obj_get key props
  | _ => None
  end.

(** A colour channel after scaling: an integer from 0 to 255. *)
Definition byteRange (v : Z) : Prop := (0 <= v <= 255)%Z.

(** The two upper-case hexadecimal digits of a byte. *)
Definition hexByte (v : Z) : string :=
  String (upperChar (hexDigit (v / 16)))
    (String (upperChar (hexDigit (v mod 16))) EmptyString).

(** The characters of a string. *)
Definition charsOf (s : string) : list ascii := list_ascii_of_string s.

(** The alphabet's character at an index below its length. *)
Definition alphabetChar (i : nat) : ascii :=
  match String.get i chars with
  | Some c => c
  | None => "?"%char
  end.


(** A fill or stroke list that [parsePaint] maps without an exception; a
    missing list is one. *)
Definition paintsNormalize (paints : option (list Paint)) : bool :=
  isOk (mapR parsePaint (fieldOr [] paints)).

(** Every fill and stroke list of every node the walk reaches normalizes. *)
Fixpoint treeNormalizes (n : RawNode) : bool :=
  isInvisible n
  || (paintsNormalize n.(n_fills) && paintsNormalize n.(n_strokes)
      && forallb treeNormalizes n.(n_children)).

(** The search reaches every identifier of a tree's skeleton. *)
Definition idsAreFound (v : JValue) : Prop :=
  (forall id, In id (optTreeIds (outputTree v)) -> findInNode id v <> None)
  /\ match v with
     | JArr items =>
         forall id, In id (outputIds items) -> firstFound (findInNode id) items <> None
     | _ => True
     end.

(** The rewrite of a parent leaves a pruned tree pruned. *)
Definition staysPruned (id : string) (v : JValue) : Prop :=
  (forall v', rewriteInNode id v = Some v' ->
              noEmptyMembers v = true -> noEmptyMembers v' = true)
  /\ match v with
     | JArr items =>
         forall items', rewriteFirst (rewriteInNode id) items = Some items' ->
                        forallb noEmptyMembers items = true ->
                        forallb noEmptyMembers items' = true /\ items' <> []
     | _ => True
     end.

(** The properties of a simplified node that hold an identifier of the
    store. *)
Definition referenceKeys : list string :=
  ["textStyle"; "fills"; "styles"; "strokes"; "layout"; "individualStrokeWeights"].

(** No key of the store is lost on the way from [s] to [s']. *)
Definition keysKept (s s' : Store) : Prop :=
  incl (obj_keys s.(globalVars)) (obj_keys s'.(globalVars)).

(** Every reference the object under construction holds is a key of the
    store. *)
Definition refsBound (simplified : list (string * JValue)) (s : Store) : Prop :=
  forall key v,
    In key referenceKeys -> obj_get key simplified = Some v ->
    exists id, v = JStr id /\ In id (obj_keys s.(globalVars)).

(** The stores of the pass over a node's own fields, in the order of the
    source: [s1] after the text style, [s2] after the fills, [s3] after the
    styles, [s4] after the strokes, [s5] after the layout and [s6] after the
    stroke weights, where the pass ends. *)
Definition ownFieldStores (n : RawNode) (parent : option RawNode)
    (s s1 s2 s3 s4 s5 s6 : Store) : Prop :=
  exists x1 x2 x3 x4 x5 x6,
    parseTextStyle n [("id", JStr n.(n_id)); ("type", JStr n.(n_type))] s = Ok (x1, s1)
    /\ parsePaints "fills" n.(n_fills) x1 s1 = Ok (x2, s2)
    /\ parseStyles n x2 s2 = Ok (x3, s3)
    /\ parsePaints "strokes" n.(n_strokes) x3 s3 = Ok (x4, s4)
    /\ parseLayout n parent x4 s4 = Ok (x5, s5)
    /\ parseStrokeWeights n (parseSimpleProps n x5) s5 = Ok (x6, s6).

(** The field holds the identifier that [findOrCreateVar] returns for the
    payload on the store [sa], the call leaves the store [sb], and [sb]
    binds the identifier to a payload with the same serialization. *)
Definition registeredAt (payload field : JValue) (sa sb : Store) : Prop :=
  exists id w,
    findOrCreateVar payload sa = Ok (id, sb)
    /\ field = JStr id
    /\ In (id, w) sb.(globalVars)
    /\ JSON_stringify w = JSON_stringify payload.

(** Nothing is registered: the field is missing and the store is as it
    was. *)
Definition notRegistered (field : JValue) (sa sb : Store) : Prop :=
  field = JUndefined /\ sb = sa.

(** A fill or stroke list between the stores [sa] and [sb]: a missing or
    empty list registers nothing; any other list is normalized, one paint
    for each raw paint, and the array is registered. *)
Definition paintsRegisteredAt (paints : option (list Paint)) (field : JValue)
    (sa sb : Store) : Prop :=
  match paints with
  | Some (raw :: rest) =>
      exists normalized,
        mapR parsePaint (raw :: rest) = Ok normalized
        /\ List.length normalized = List.length (raw :: rest)
        /\ registeredAt (JArr normalized) field sa sb
  | _ => notRegistered field sa sb
  end.

(** The object [parseNode] registers for the four stroke weights. *)
Definition strokeWeightsOf (w : StrokeWeights) : JValue :=
  JObj [("top", JNum w.(sw_top)); ("right", JNum w.(sw_right));
        ("bottom", JNum w.(sw_bottom)); ("left", JNum w.(sw_left))].

(* ================================================================== *)
(** * Sample inputs *)
(* ================================================================== *)

(** A layout builder that reports a single field, which the walker drops. *)
Definition trivialLayout (n : RawNode) (parent : option RawNode) : JValue :=
  JObj [("mode", JStr "none")].

Definition sampleNumberToString (q : Q) : string := "0".

(** A random source that walks through the alphabet. *)
Definition countingRandom (call : nat) : nat := call.

(** A random source that repeats its first identifier once. *)
Definition repeatingRandom (call : nat) : nat := if call <? 12 then 0 else 1.

Definition bareNode (id type : string) (children : list RawNode) : RawNode :=
  mkRawNode id id type None JUndefined None JUndefined None None None None None None None
            children.

Definition styledNode (id type : string) (styles : JValue) : RawNode :=
  mkRawNode id id type None JUndefined None styles None None None None None None None [].

Definition resultNodes (res : Result SimplifiedDesign) : list JValue :=
  match res with Ok design => design.(sd_nodes) | Err _ => [] end.

Definition resultVars (res : Result SimplifiedDesign) : list (string * JValue) :=
  match res with Ok design => design.(sd_globalVars) | Err _ => [] end.

Definition walkNodes (res : Result (list JValue * Store)) : list JValue :=
  match res with Ok (nodes, _) => nodes | Err _ => [] end.

Definition walkVars (res : Result (list JValue * Store)) : list (string * JValue) :=
  match res with Ok (_, s) => s.(globalVars) | Err _ => [] end.

(** Two frames, each around one bare vector. *)
Definition twoFrames : list RawNode :=
  [bareNode "1:2" "FRAME" [bareNode "1:3" "VECTOR" []];
   bareNode "1:5" "FRAME" [bareNode "1:6" "VECTOR" []]].

(** The same, with a second, different vector in the first frame. *)
Definition twoFramesThreeVectors : list RawNode :=
  [bareNode "1:2" "FRAME" [bareNode "1:3" "VECTOR" [];
                           styledNode "1:7" "VECTOR" (JStr "s")];
   bareNode "1:5" "FRAME" [bareNode "1:6" "VECTOR" []]].



(** A frame around a vector and a second frame around another vector. *)
Definition nestedFrames : list RawNode :=
  [bareNode "1:2" "FRAME" [bareNode "1:3" "VECTOR" [];
                           bareNode "1:4" "FRAME" [bareNode "1:5" "VECTOR" []]]].

(** Two nodes with an empty [styles] object around a frame with a vector. *)
Definition emptyStylesAroundVector : list RawNode :=
  [styledNode "1:1" "RECTANGLE" (JObj []);
   bareNode "1:2" "FRAME" [bareNode "1:3" "VECTOR" []];
   styledNode "1:4" "RECTANGLE" (JObj [])].

(** ** C5: see [convertColor_opacity_witness] *)

(** ** C6 *)

Definition emojiPaint : Paint :=
  mkPaint "EMOJI" JUndefined JUndefined None None JUndefined None.

Definition solidRed : Paint :=
  mkPaint "SOLID" JUndefined JUndefined (Some (mkRGBA 1 0 0 1)) None JUndefined None.

(** ** C2, C8, C10: the statements at work *)

Definition hiddenNode (id type : string) (children : list RawNode) : RawNode :=
  mkRawNode id id type (Some false) JUndefined None JUndefined None None None None None None
            None children.

Definition textNode (id : string) (style : JValue) : RawNode :=
  mkRawNode id id "TEXT" None style None JUndefined None (Some "hello") None None None None
            None [].

(** ** Samples for the further properties *)

(** A number printer for the samples: integers in decimal, any other number
    as its reduced numerator and denominator. *)
Fixpoint natDigits (fuel n : nat) (acc : string) : string :=
  match fuel with
  | O => acc
  | S fuel' =>
      let acc' := String (ascii_of_nat (48 + n mod 10)) acc in
      if n / 10 =? 0 then acc' else natDigits fuel' (n / 10) acc'
  end.

Definition sampleDecimal (q : Q) : string :=
  let q := Qred q in
  let sign := if (Qnum q <? 0)%Z then "-" else "" in
  let numerator := natDigits 30 (Z.to_nat (Z.abs (Qnum q))) "" in
  if (Qden q =? 1)%positive
  then String.append sign numerator
  else String.append sign
         (String.append numerator
            (String.append "/" (natDigits 30 (Pos.to_nat (Qden q)) ""))).

Definition orange : RGBA := mkRGBA 1 (1 # 2) 0 1.

(** A rectangle with one solid fill and one solid stroke, a stroke weight,
    and an opacity of zero. *)
Definition strokedNode : RawNode :=
  mkRawNode "2:1" "box" "RECTANGLE" None JUndefined (Some [solidRed]) JUndefined
            (Some [solidRed]) None (Some 2%Q) None None (Some 0%Q) None [].

(** The same without the strokes. *)
Definition unstrokedNode : RawNode :=
  mkRawNode "2:2" "box" "RECTANGLE" None JUndefined (Some [solidRed]) JUndefined
            None None (Some 2%Q) None None (Some 0%Q) None [].

(** A frame whose only child is hidden, between a hidden and a visible
    top-level node. *)
Definition partlyHidden : list RawNode :=
  [bareNode "3:1" "FRAME" [hiddenNode "3:2" "VECTOR" []];
   hiddenNode "3:3" "FRAME" [];
   bareNode "3:4" "TEXT" []].

(** A vector at the top level: it has no parent to record. *)
Definition loneVector : list RawNode := [bareNode "4:1" "VECTOR" []].

(** A rectangle whose only fill is of a kind the normalizer does not know. *)
Definition unknownFill : list RawNode :=
  [mkRawNode "5:1" "bad" "RECTANGLE" None JUndefined (Some [emojiPaint]) JUndefined
             None None None None None None None []].

(* ================================================================== *)
(** * Facts about the utilities *)
(* ================================================================== *)

Lemma keepCleaned_isEmptyValue v : keepCleaned v = negb (isEmptyValue v).
Proof.
  destruct v as [| | b | q | s | [|x l] | [|kv l]]; reflexivity.
Qed.

Lemma cleanProps_filter clean props :
  cleanProps clean props =
  filter (fun kv => keepCleaned (snd kv) && createsOwnProperty (fst kv))
         (map (fun kv => (fst kv, clean (snd kv))) props).
Proof.
  induction props as [|[k v] rest IH]; simpl; [reflexivity|].
  destruct (keepCleaned (clean v) && createsOwnProperty k); simpl; now rewrite IH.
Qed.

Lemma cleanProps_kept clean props :
  Forall (fun kv => keepCleaned (snd kv) = true /\ createsOwnProperty (fst kv) = true)
         (cleanProps clean props).
Proof.
  induction props as [|[k v] rest IH]; simpl; [constructor|].
  destruct (keepCleaned (clean v) && createsOwnProperty k) eqn:E; [constructor|]; try assumption.
  now apply andb_true_iff in E.
Qed.

Lemma removeEmptyKeys_idem (x : JValue) :
  removeEmptyKeys (removeEmptyKeys x) = removeEmptyKeys x.
Proof.
  induction x as [| | b | q | s | items IH | props IH] using JValue_nested_ind;
    simpl; try reflexivity.
  - f_equal. rewrite map_map. apply map_ext_Forall. exact IH.
  - f_equal. induction IH as [|[k v] rest Hv _ IHrest]; simpl; [reflexivity|].
    simpl in Hv.
    destruct (keepCleaned (removeEmptyKeys v) && createsOwnProperty k) eqn:E; simpl.
    + rewrite Hv, E. now f_equal.
    + exact IHrest.
Qed.

(** C7. The empty-key pruner returns a value that is not an object or is
    null unchanged, maps an array elementwise, keeps in an object exactly the
    keys whose pruned value is not undefined, not an empty array and not an
    empty object (an own property named [__proto__] apart, which the
    assignment of the result never creates), and is idempotent: pruning a
    pruned value changes nothing. *)
Theorem removeEmptyKeys_idempotent :
  (forall x, removeEmptyKeys (removeEmptyKeys x) = removeEmptyKeys x)
  /\ removeEmptyKeys JUndefined = JUndefined
  /\ removeEmptyKeys JNull = JNull
  /\ (forall b, removeEmptyKeys (JBool b) = JBool b)
  /\ (forall q, removeEmptyKeys (JNum q) = JNum q)
  /\ (forall s, removeEmptyKeys (JStr s) = JStr s)
  /\ (forall items, removeEmptyKeys (JArr items) = JArr (map removeEmptyKeys items))
  /\ (forall props,
        removeEmptyKeys (JObj props) =
        JObj (filter (fun kv => negb (isEmptyValue (snd kv))
                                && negb (String.eqb (fst kv) "__proto__"))
                     (map (fun kv => (fst kv, removeEmptyKeys (snd kv))) props))).
Proof.
  split; [exact removeEmptyKeys_idem|].
  repeat (split; [reflexivity|]).
  intros props. simpl. rewrite cleanProps_filter. f_equal.
  apply filter_ext. intros kv. now rewrite keepCleaned_isEmptyValue.
Qed.

Example convertColor_red :
  hex (convertColor (mkRGBA 1 0 0 1) None) = "#FF0000".
Proof. vm_compute. reflexivity. Qed.

Example convertColor_grey :
  hex (convertColor (mkRGBA (1 # 2) (1 # 2) (1 # 2) 1) None) = "#808080".
Proof. vm_compute. reflexivity. Qed.

Lemma Math_round_mono x y : (x <= y)%Q -> (Math_round x <= Math_round y)%Z.
Proof.
  intros H. unfold Math_round. apply Qfloor_resp_le.
  apply Qplus_le_compat; [exact H | apply Qle_refl].
Qed.

Lemma rounded_percent_unit (x : Q) :
  (0 <= x)%Q -> (x <= 1)%Q ->
  unitRange (inject_Z (Math_round (x * 100)) / 100).
Proof.
  intros H0 H1.
  assert (Hlo : (0 <= Math_round (x * 100))%Z).
  { change 0%Z with (Math_round 0). apply Math_round_mono.
    setoid_replace 0%Q with (0 * 100)%Q by reflexivity.
    apply Qmult_le_compat_r; [exact H0 | discriminate]. }
  assert (Hhi : (Math_round (x * 100) <= 100)%Z).
  { change 100%Z with (Math_round 100). apply Math_round_mono.
    setoid_replace 100%Q with (1 * 100)%Q by reflexivity.
    apply Qmult_le_compat_r; [exact H1 | discriminate]. }
  unfold unitRange. split.
  - apply Qle_shift_div_l; [reflexivity|]. rewrite Qmult_0_l.
    change 0%Q with (inject_Z 0). rewrite <- Zle_Qle. exact Hlo.
  - apply Qle_shift_div_r; [reflexivity|]. rewrite Qmult_1_l.
    change 100%Q with (inject_Z 100). rewrite <- Zle_Qle. exact Hhi.
Qed.


Lemma Q_eqb_eq x y : Q_eqb x y = true <-> x = y.
Proof.
  unfold Q_eqb. destruct x as [n1 d1], y as [n2 d2]. simpl.
  rewrite andb_true_iff, Z.eqb_eq, Pos.eqb_eq. split.
  - intros [-> ->]. reflexivity.
  - intros H. inversion H. auto.
Qed.

Lemma JSONText_eqb_eq : forall x y, JSONText_eqb x y = true <-> x = y.
Proof.
  induction x as [| b1 | q1 | s1 | items IH | members IH] using JSONText_nested_ind;
    destruct y as [| b2 | q2 | s2 | items2 | members2]; simpl;
    try (split; [discriminate | congruence]); try tauto.
  - rewrite Bool.eqb_true_iff. split; congruence.
  - rewrite Q_eqb_eq. split; congruence.
  - rewrite String.eqb_eq. split; congruence.
  - revert items2. induction IH as [|x l Hx _ IHl]; intros [|y l2];
      try (split; [discriminate | congruence]); try tauto.
    rewrite andb_true_iff, Hx, IHl. split.
    + intros [-> H]. congruence.
    + intros H. inversion H. auto.
  - revert members2. induction IH as [|[k x] l Hx _ IHl]; intros [|[k2 y] l2];
      try (split; [discriminate | congruence]); try tauto.
    simpl in Hx. rewrite !andb_true_iff, String.eqb_eq, Hx, IHl. split.
    + intros [[-> ->] H]. congruence.
    + intros H. inversion H. auto.
Qed.

Lemma JSONText_eqb_refl t : JSONText_eqb t t = true.
Proof. now apply JSONText_eqb_eq. Qed.

Lemma sameJSON_eq x y : sameJSON x y = true <-> JSON_stringify x = JSON_stringify y.
Proof.
  unfold sameJSON.
  destruct (JSON_stringify x) as [t1|], (JSON_stringify y) as [t2|];
    try (split; [discriminate | congruence]); try tauto.
  rewrite JSONText_eqb_eq. split; congruence.
Qed.

Lemma sameJSON_refl x : sameJSON x x = true.
Proof. now apply sameJSON_eq. Qed.

Lemma sameJSON_congr_r e x y :
  JSON_stringify x = JSON_stringify y -> sameJSON e x = sameJSON e y.
Proof. unfold sameJSON. now intros ->. Qed.

(* ================================================================== *)
(** * Facts about objects *)
(* ================================================================== *)

Section ObjectFacts.
Context {A : Type}.
Implicit Types (o : list (string * A)) (key k : string) (v w : A).

Lemma obj_get_In key o v : obj_get key o = Some v -> In (key, v) o.
Proof.
  induction o as [|[k w] rest IH]; simpl; [discriminate|].
  destruct (String.eqb_spec k key) as [->|Hne].
  - intros [= ->]. now left.
  - intros H. right. auto.
Qed.

Lemma obj_get_None key o : obj_get key o = None <-> ~ In key (obj_keys o).
Proof.
  induction o as [|[k w] rest IH]; simpl; [tauto|].
  destruct (String.eqb_spec k key) as [->|Hne].
  - split; [discriminate | intros H; exfalso; apply H; now left].
  - rewrite IH. unfold obj_keys. tauto.
Qed.

Lemma obj_get_Some_key key o v : obj_get key o = Some v -> In key (obj_keys o).
Proof. intros H. apply obj_get_In in H. now apply (in_map fst) in H. Qed.

Lemma In_obj_get key o v :
  NoDup (obj_keys o) -> In (key, v) o -> obj_get key o = Some v.
Proof.
  induction o as [|[k w] rest IH]; simpl; [tauto|].
  intros Hnd [H | H].
  - inversion H; subst. now rewrite String.eqb_refl.
  - inversion Hnd as [|? ? Hnot Hnd']; subst.
    destruct (String.eqb_spec k key) as [->|Hne].
    + exfalso. apply Hnot. now apply (in_map fst) in H.
    + auto.
Qed.

Lemma obj_has_true key o : obj_has key o = true <-> In key (obj_keys o).
Proof.
  unfold obj_has. destruct (obj_get key o) eqn:E.
  - split; [intros _; eapply obj_get_Some_key; eauto | reflexivity].
  - split; [discriminate | intros H; now apply obj_get_None in E].
Qed.

Lemma obj_has_false key o : obj_has key o = false <-> ~ In key (obj_keys o).
Proof.
  rewrite <- obj_has_true. destruct (obj_has key o); split; congruence.
Qed.

Lemma obj_keys_replace key v o : obj_keys (obj_replace key v o) = obj_keys o.
Proof.
  induction o as [|[k w] rest IH]; simpl; [reflexivity|].
  destruct (String.eqb k key); simpl; [reflexivity | now rewrite IH].
Qed.

Lemma obj_get_replace_same key v o :
  In key (obj_keys o) -> obj_get key (obj_replace key v o) = Some v.
Proof.
  induction o as [|[k w] rest IH]; simpl; [tauto|].
  destruct (String.eqb_spec k key) as [->|Hne]; simpl.
  - now rewrite String.eqb_refl.
  - intros [H | H]; [congruence|].
    destruct (String.eqb_spec k key); [congruence | auto].
Qed.

Lemma obj_get_replace_other key k v o :
  k <> key -> obj_get k (obj_replace key v o) = obj_get k o.
Proof.
  intros Hne. induction o as [|[k' w] rest IH]; simpl; [reflexivity|].
  destruct (String.eqb_spec k' key) as [->|Hne']; simpl.
  - destruct (String.eqb_spec key k); [congruence | reflexivity].
  - now rewrite IH.
Qed.

Lemma obj_keys_insert_index i key v o :
  Permutation (obj_keys (obj_insert_index i key v o)) (key :: obj_keys o).
Proof.
  induction o as [|[k w] rest IH]; simpl; [reflexivity|].
  destruct (arrayIndex k) as [j|]; [|reflexivity].
  destruct (j <? i)%N; [|reflexivity].
  simpl. rewrite IH. apply perm_swap.
Qed.

Lemma obj_get_insert_index_same i key v o :
  ~ In key (obj_keys o) -> obj_get key (obj_insert_index i key v o) = Some v.
Proof.
  induction o as [|[k w] rest IH]; simpl.
  - now rewrite String.eqb_refl.
  - intros Hnot.
    destruct (arrayIndex k) as [j|]; [destruct (j <? i)%N|]; simpl;
      try now rewrite String.eqb_refl.
    destruct (String.eqb_spec k key) as [->|Hne]; [tauto | apply IH; tauto].
Qed.

Lemma obj_get_insert_index_other i key k v o :
  k <> key -> obj_get k (obj_insert_index i key v o) = obj_get k o.
Proof.
  intros Hne. induction o as [|[k' w] rest IH]; simpl.
  - destruct (String.eqb_spec key k); [congruence | reflexivity].
  - destruct (arrayIndex k') as [j|]; [destruct (j <? i)%N|]; simpl;
      try (destruct (String.eqb_spec key k); [congruence | reflexivity]).
    now rewrite IH.
Qed.

Lemma obj_get_app key o1 o2 :
  obj_get key (o1 ++ o2) =
  match obj_get key o1 with Some v => Some v | None => obj_get key o2 end.
Proof.
  induction o1 as [|[k w] rest IH]; simpl; [reflexivity|].
  destruct (String.eqb k key); [reflexivity | exact IH].
Qed.

Lemma obj_keys_set key v o :
  Permutation (obj_keys (obj_set key v o))
              (if obj_has key o then obj_keys o else key :: obj_keys o).
Proof.
  unfold obj_set. destruct (obj_has key o).
  - now rewrite obj_keys_replace.
  - destruct (arrayIndex key) as [i|].
    + apply obj_keys_insert_index.
    + unfold obj_keys. rewrite map_app. simpl.
      rewrite Permutation_app_comm. reflexivity.
Qed.

Lemma obj_keys_set_In key v o k :
  In k (obj_keys (obj_set key v o)) <-> k = key \/ In k (obj_keys o).
Proof.
  pose proof (obj_keys_set key v o) as HP.
  destruct (obj_has key o) eqn:E.
  - apply obj_has_true in E. split.
    + intros H. right. eapply Permutation_in; eauto.
    + intros [-> | H]; (eapply Permutation_in; [symmetry; exact HP|]); assumption.
  - split.
    + intros H. eapply Permutation_in in H; [|exact HP]. destruct H; auto.
    + intros H. eapply Permutation_in; [symmetry; exact HP|].
      destruct H; [left | right]; auto.
Qed.

Lemma obj_set_NoDup key v o : NoDup (obj_keys o) -> NoDup (obj_keys (obj_set key v o)).
Proof.
  intros Hnd. pose proof (obj_keys_set key v o) as HP.
  destruct (obj_has key o) eqn:E.
  - eapply Permutation_NoDup; [symmetry; exact HP | exact Hnd].
  - eapply Permutation_NoDup; [symmetry; exact HP|].
    constructor; [now apply obj_has_false | exact Hnd].
Qed.

Lemma obj_get_set_same key v o : obj_get key (obj_set key v o) = Some v.
Proof.
  unfold obj_set. destruct (obj_has key o) eqn:E.
  - apply obj_get_replace_same. now apply obj_has_true.
  - apply obj_has_false in E. destruct (arrayIndex key) as [i|].
    + now apply obj_get_insert_index_same.
    + rewrite obj_get_app. apply obj_get_None in E. rewrite E. simpl.
      now rewrite String.eqb_refl.
Qed.

Lemma obj_get_set_other key k v o :
  k <> key -> obj_get k (obj_set key v o) = obj_get k o.
Proof.
  intros Hne. unfold obj_set. destruct (obj_has key o).
  - now apply obj_get_replace_other.
  - destruct (arrayIndex key) as [i|].
    + now apply obj_get_insert_index_other.
    + rewrite obj_get_app. destruct (obj_get k o); [reflexivity|]. simpl.
      destruct (String.eqb_spec key k); [congruence | reflexivity].
Qed.

Lemma obj_set_fresh key v o :
  arrayIndex key = None -> ~ In key (obj_keys o) -> obj_set key v o = o ++ [(key, v)].
Proof.
  intros Hidx Hnot. unfold obj_set. apply obj_has_false in Hnot.
  now rewrite Hnot, Hidx.
Qed.

Lemma obj_get_delete_same key o : obj_get key (obj_delete key o) = None.
Proof.
  induction o as [|[k w] rest IH]; simpl; [reflexivity|].
  destruct (String.eqb_spec k key) as [->|Hne]; simpl; [exact IH|].
  destruct (String.eqb_spec k key); [congruence | exact IH].
Qed.

Lemma obj_get_delete_other key k o :
  k <> key -> obj_get k (obj_delete key o) = obj_get k o.
Proof.
  intros Hne. induction o as [|[k' w] rest IH]; simpl; [reflexivity|].
  destruct (String.eqb_spec k' key) as [->|Hne']; simpl.
  - destruct (String.eqb_spec key k); [congruence | exact IH].
  - now rewrite IH.
Qed.

Lemma obj_keys_delete_In key k o :
  In k (obj_keys (obj_delete key o)) <-> k <> key /\ In k (obj_keys o).
Proof.
  induction o as [|[k' w] rest IH]; simpl; [tauto|].
  destruct (String.eqb_spec k' key) as [->|Hne]; simpl; rewrite IH.
  - split; [tauto | intros [H1 [H2 | H2]]; [congruence | tauto]].
  - split; [intros [-> | H]; tauto | tauto].
Qed.

Lemma obj_delete_NoDup key o : NoDup (obj_keys o) -> NoDup (obj_keys (obj_delete key o)).
Proof.
  induction o as [|[k w] rest IH]; simpl; [auto|].
  intros Hnd. inversion Hnd as [|? ? Hnot Hnd']; subst.
  destruct (String.eqb k key); simpl; [auto|].
  constructor; [|auto]. rewrite obj_keys_delete_In. tauto.
Qed.

Lemma obj_replace_In key v o k w :
  In (k, w) (obj_replace key v o) -> (k = key /\ w = v) \/ In (k, w) o.
Proof.
  induction o as [|[k' w'] rest IH]; simpl; [tauto|].
  destruct (String.eqb_spec k' key) as [->|Hne]; simpl.
  - intros [H | H]; [inversion H; auto | auto].
  - intros [H | H]; [auto|]. destruct (IH H); auto.
Qed.

Lemma obj_insert_index_In i key v o k w :
  In (k, w) (obj_insert_index i key v o) -> (k = key /\ w = v) \/ In (k, w) o.
Proof.
  induction o as [|[k' w'] rest IH]; simpl.
  - intros [H | []]. inversion H; auto.
  - destruct (arrayIndex k') as [j|]; [destruct (j <? i)%N|]; simpl;
      try solve [intros [H1 | H1]; [inversion H1; auto | auto]].
    intros [H1 | H1]; [auto|]. destruct (IH H1); auto.
Qed.

Lemma obj_set_In key v o k w :
  In (k, w) (obj_set key v o) -> (k = key /\ w = v) \/ In (k, w) o.
Proof.
  unfold obj_set. destruct (obj_has key o).
  - apply obj_replace_In.
  - destruct (arrayIndex key) as [i|].
    + apply obj_insert_index_In.
    + intros H. apply in_app_or in H. destruct H as [H1 | [H1 | []]]; [auto|].
      inversion H1; auto.
Qed.


End ObjectFacts.

(* ================================================================== *)
(** * Facts about the walk monad *)
(* ================================================================== *)

Lemma bind_Ok {A B} (m : M A) (k : A -> M B) s y s' :
  bind m k s = Ok (y, s') ->
  exists x s1, m s = Ok (x, s1) /\ k x s1 = Ok (y, s').
Proof.
  unfold bind. destruct (m s) as [[x s1]|e]; [|discriminate].
  intros H. now exists x, s1.
Qed.

Lemma bind_Err {A B} (m : M A) (k : A -> M B) s e :
  m s = Err e -> bind m k s = Err e.
Proof. unfold bind. now intros ->. Qed.

Lemma bind_step {A B} (m : M A) (k : A -> M B) s x s1 :
  m s = Ok (x, s1) -> bind m k s = k x s1.
Proof. unfold bind. now intros ->. Qed.

Lemma ret_Ok {A} (x y : A) s s' : ret x s = Ok (y, s') -> y = x /\ s' = s.
Proof. unfold ret. intros [= -> ->]. auto. Qed.

Lemma lift_Ok {A} (res : Result A) s y s' :
  lift res s = Ok (y, s') -> res = Ok y /\ s' = s.
Proof. unfold lift. destruct res; [intros [= -> ->]; auto | discriminate]. Qed.

Lemma mapM_Ok_cons {A B} (f : A -> M B) x rest s ys s' :
  mapM f (x :: rest) s = Ok (ys, s') ->
  exists y s1 ys', f x s = Ok (y, s1) /\ mapM f rest s1 = Ok (ys', s') /\ ys = y :: ys'.
Proof.
  simpl. intros H.
  apply bind_Ok in H. destruct H as (y & s1 & Hf & H).
  apply bind_Ok in H. destruct H as (ys' & s2 & Hrest & H).
  apply ret_Ok in H. destruct H as [-> ->].
  now exists y, s1, ys'.
Qed.


Lemma mapR_Ok_length {A B} (f : A -> Result B) xs ys :
  mapR f xs = Ok ys -> List.length ys = List.length xs.
Proof.
  revert ys. induction xs as [|x rest IH]; simpl; intros ys.
  - intros [= <-]. reflexivity.
  - destruct (f x); [|discriminate]. destruct (mapR f rest); [|discriminate].
    intros [= <-]. simpl. f_equal. auto.
Qed.

Lemma RawNode_children_ind (P : RawNode -> Prop) :
  (forall n, Forall P n.(n_children) -> P n) -> forall n, P n.
Proof.
  intros H. induction n using RawNode_nested_ind. apply H. assumption.
Qed.

Lemma parseNode_unfold n parent :
  parseNode n parent =
  if isInvisible n then ret None
  else
    simplified <- parseOwnFields n parent ;;
    simplified <-
      (if nonEmptyList n.(n_children)
       then children <- mapM (fun child => parseNode child (Some n)) n.(n_children) ;;
            ret (attachChildren children simplified)
       else ret simplified) ;;
    _ <- (if String.eqb n.(n_type) "VECTOR"
          then registerVector parent simplified
          else ret tt) ;;
    ret (Some (removeEmptyKeys (JObj simplified))).
Proof. destruct n; reflexivity. Qed.

(* ================================================================== *)
(** * Facts about findOrCreateVar *)
(* ================================================================== *)

Lemma varIdAt_isVarKey call : isVarKey (varIdAt "var" call) = true.
Proof. reflexivity. Qed.

Lemma isVarKey_arrayIndex k : isVarKey k = true -> arrayIndex k = None.
Proof.
  destruct k as [|c k]; [discriminate|].
  destruct c as [[] [] [] [] [] [] [] []]; try discriminate.
  intros _. reflexivity.
Qed.

Lemma isVarKey_inv k :
  isVarKey k = true ->
  exists rest, k = String "v" (String "a" (String "r" (String "_" rest))).
Proof.
  destruct k as [|c1 k]; [discriminate|].
  destruct c1 as [[] [] [] [] [] [] [] []]; try discriminate.
  destruct k as [|c2 k]; [discriminate|].
  destruct c2 as [[] [] [] [] [] [] [] []]; try discriminate.
  destruct k as [|c3 k]; [discriminate|].
  destruct c3 as [[] [] [] [] [] [] [] []]; try discriminate.
  destruct k as [|c4 k]; [discriminate|].
  destruct c4 as [[] [] [] [] [] [] [] []]; try discriminate.
  intros _. now exists k.
Qed.

Lemma isVarKey_not_literal k :
  isVarKey k = true ->
  k <> "" /\ k <> "vectorParents" /\ k <> "childrenToParents" /\ k <> "__proto__"
  /\ includes objectPrototypeKeys k = false.
Proof.
  intros H. apply isVarKey_inv in H. destruct H as [rest ->].
  repeat split; try discriminate.
Qed.

Lemma goodKey_facts k :
  goodKey k = true ->
  k <> "" /\ k <> "childrenToParents" /\ k <> "__proto__"
  /\ includes objectPrototypeKeys k = false.
Proof.
  unfold goodKey. intros H. apply orb_true_iff in H. destruct H as [H | H].
  - apply String.eqb_eq in H. subst. repeat split; discriminate.
  - apply isVarKey_not_literal in H. tauto.
Qed.

Lemma createVar_eq value s :
  createVar value s =
  Ok (varIdAt "var" s.(randomCalls),
      mkStore (obj_set (varIdAt "var" s.(randomCalls)) value s.(globalVars))
              (s.(randomCalls) + 6)).
Proof. reflexivity. Qed.

Lemma findExisting_Some value vars k w :
  findExisting value vars = Some (k, w) -> In (k, w) vars /\ sameJSON w value = true.
Proof. unfold findExisting. intros H. apply find_some in H. exact H. Qed.

Lemma findExisting_None value vars :
  findExisting value vars = None -> forall k w, In (k, w) vars -> sameJSON w value = false.
Proof.
  unfold findExisting. intros H k w Hin.
  exact (find_none _ _ H (k, w) Hin).
Qed.

Lemma findExisting_congr v1 v2 vars :
  JSON_stringify v1 = JSON_stringify v2 -> findExisting v1 vars = findExisting v2 vars.
Proof.
  intros H. unfold findExisting. induction vars as [|[k w] rest IH]; simpl; [reflexivity|].
  now rewrite (sameJSON_congr_r w v1 v2 H), IH.
Qed.

Lemma findExisting_exists value vars k w :
  In (k, w) vars -> sameJSON w value = true ->
  exists k' w', findExisting value vars = Some (k', w').
Proof.
  intros Hin Hsame. unfold findExisting.
  destruct (find (fun entry => sameJSON (snd entry) value) vars) as [[k' w']|] eqn:E.
  - now exists k', w'.
  - pose proof (find_none _ _ E (k, w) Hin) as H. simpl in H. congruence.
Qed.

Lemma findOrCreateVar_inv value s id s' :
  findOrCreateVar value s = Ok (id, s') -> findOrCreateVar_outcome value s id s'.
Proof.
  unfold findOrCreateVar.
  destruct (findExisting value (globalVars s)) as [[k w]|] eqn:E.
  - destruct k as [|c k]; simpl.
    + rewrite createVar_eq. intros [= <- <-].
      apply outcome_miss; auto. intros k w' Hk. congruence.
    + intros [= <- <-]. eapply outcome_hit; eauto. discriminate.
  - rewrite createVar_eq. intros [= <- <-].
    apply outcome_miss; auto. intros k w Hk. congruence.
Qed.

Lemma findOrCreateVar_total value s :
  exists id s', findOrCreateVar value s = Ok (id, s').
Proof.
  unfold findOrCreateVar.
  destruct (findExisting value (globalVars s)) as [[k w]|].
  - destruct (negb (String.length k =? 0)); [now eauto|].
    rewrite createVar_eq. eauto.
  - rewrite createVar_eq. eauto.
Qed.

Lemma findOrCreateVar_hit value s k w :
  findExisting value s.(globalVars) = Some (k, w) -> k <> "" ->
  findOrCreateVar value s = Ok (k, s).
Proof.
  intros E Hne. unfold findOrCreateVar. rewrite E.
  destruct k; [congruence | reflexivity].
Qed.

Lemma find_append {A} (p : A -> bool) l1 l2 :
  find p (l1 ++ l2) = match find p l1 with Some x => Some x | None => find p l2 end.
Proof.
  induction l1 as [|x rest IH]; simpl; [reflexivity|].
  destruct (p x); [reflexivity | exact IH].
Qed.

Lemma find_all_false {A} (p : A -> bool) l :
  (forall x, In x l -> p x = false) -> find p l = None.
Proof.
  induction l as [|x rest IH]; simpl; [reflexivity|].
  intros H. rewrite (H x) by now left. apply IH. intros y Hy. apply H. now right.
Qed.

(** A search is not disturbed by an assignment under another key of a value
    that does not match. *)
Lemma findExisting_replace_other value vars key x k w :
  findExisting value vars = Some (k, w) -> k <> key -> sameJSON x value = false ->
  findExisting value (obj_replace key x vars) = Some (k, w).
Proof.
  unfold findExisting. intros H Hne Hx.
  induction vars as [|[k' w'] rest IH]; simpl in *; [discriminate|].
  destruct (String.eqb_spec k' key) as [->|Hne'].
  - destruct (sameJSON w' value) eqn:E; [congruence|]. simpl. now rewrite Hx.
  - simpl. destruct (sameJSON w' value); [assumption | auto].
Qed.

Lemma findExisting_insert_other value vars i key x e :
  findExisting value vars = Some e -> sameJSON x value = false ->
  findExisting value (obj_insert_index i key x vars) = Some e.
Proof.
  unfold findExisting. intros H Hx.
  induction vars as [|[k' w'] rest IH]; simpl in *; [discriminate|].
  destruct (arrayIndex k') as [j|]; [destruct (j <? i)%N|]; simpl;
    try (rewrite Hx; exact H).
  destruct (sameJSON w' value); [assumption | auto].
Qed.

Lemma findExisting_set_other value vars key x k w :
  findExisting value vars = Some (k, w) -> k <> key -> sameJSON x value = false ->
  findExisting value (obj_set key x vars) = Some (k, w).
Proof.
  intros H Hne Hx. unfold obj_set. destruct (obj_has key vars).
  - now apply findExisting_replace_other.
  - destruct (arrayIndex key) as [i|].
    + now apply findExisting_insert_other.
    + unfold findExisting in *. rewrite find_append, H. reflexivity.
Qed.

(** After an assignment of a matching value where nothing matched before,
    the search finds the assigned entry. *)
Lemma findExisting_set_new value vars key x :
  (forall k w, In (k, w) vars -> sameJSON w value = false) ->
  sameJSON x value = true ->
  findExisting value (obj_set key x vars) = Some (key, x).
Proof.
  intros Hnone Hx. unfold obj_set, findExisting. destruct (obj_has key vars) eqn:Ehas.
  - apply obj_has_true in Ehas.
    induction vars as [|[k' w'] rest IH]; simpl in *; [tauto|].
    destruct (String.eqb_spec k' key) as [->|Hne]; simpl.
    + now rewrite Hx.
    + rewrite (Hnone k' w') by now left.
      apply IH; [intros; eapply Hnone; right; eauto | tauto].
  - destruct (arrayIndex key) as [i|].
    + clear Ehas. induction vars as [|[k' w'] rest IH]; simpl.
      * now rewrite Hx.
      * destruct (arrayIndex k') as [j|]; [destruct (j <? i)%N|]; simpl;
          try now rewrite Hx.
        rewrite (Hnone k' w') by now left.
        apply IH. intros; eapply Hnone; right; eauto.
    + rewrite find_append, find_all_false.
      * simpl. now rewrite Hx.
      * intros [k w] Hin. simpl. eauto.
Qed.

Lemma obj_set_length {A} key (v : A) o :
  List.length (obj_set key v o) <= S (List.length o).
Proof.
  unfold obj_set. destruct (obj_has key o).
  - induction o as [|[k w] rest IH]; simpl; [lia|].
    destruct (String.eqb k key); simpl; lia.
  - destruct (arrayIndex key) as [i|].
    + induction o as [|[k w] rest IH]; simpl; [lia|].
      destruct (arrayIndex k) as [j|]; [destruct (j <? i)%N|]; simpl; lia.
    + rewrite length_app. simpl. lia.
Qed.

(** What a call leaves in the store under the identifier it returns. *)
Lemma findOrCreateVar_bound value s id s' :
  findOrCreateVar value s = Ok (id, s') ->
  exists w, In (id, w) s'.(globalVars) /\ JSON_stringify w = JSON_stringify value.
Proof.
  intros H. apply findOrCreateVar_inv in H. destruct H as [w E Hne -> | Hnone -> ->].
  - apply findExisting_Some in E. destruct E as [Hin Hsame].
    exists w. split; [assumption | now apply sameJSON_eq].
  - exists value. split; [|reflexivity]. simpl.
    apply obj_get_In. apply obj_get_set_same.
Qed.

(** Two calls in a row with payloads of equal serialization. *)
Lemma findOrCreateVar_twice s v1 v2 id s1 :
  ~ In "" (obj_keys s.(globalVars)) ->
  JSON_stringify v1 = JSON_stringify v2 ->
  findOrCreateVar v1 s = Ok (id, s1) ->
  findOrCreateVar v2 s1 = Ok (id, s1)
  /\ List.length s1.(globalVars) <= S (List.length s.(globalVars)).
Proof.
  intros Hkeys Heq H. apply findOrCreateVar_inv in H.
  destruct H as [w E Hne -> | Hnone -> ->].
  - split; [|lia]. eapply findOrCreateVar_hit; [|exact Hne].
    rewrite <- (findExisting_congr v1 v2 _ Heq). exact E.
  - split; [|apply obj_set_length].
    assert (Hmiss : forall k w, In (k, w) (globalVars s) -> sameJSON w v1 = false).
    { destruct (findExisting v1 (globalVars s)) as [[k w]|] eqn:E.
      - pose proof (Hnone k w eq_refl) as ->.
        apply findExisting_Some in E. destruct E as [Hin _].
        exfalso. apply Hkeys. now apply (in_map fst) in Hin.
      - now apply findExisting_None. }
    eapply findOrCreateVar_hit.
    + simpl. rewrite <- (findExisting_congr v1 v2 _ Heq).
      apply findExisting_set_new; [exact Hmiss | apply sameJSON_refl].
    + discriminate.
Qed.

Ltac monad_inv H :=
  match type of H with
  | bind _ _ _ = Ok _ =>
      let x := fresh "x" in
      let s := fresh "s" in
      let H1 := fresh "Hstep" in
      let H2 := fresh "Hrest" in
      apply bind_Ok in H; destruct H as (x & s & H1 & H2); monad_inv H2
  | ret _ _ = Ok _ =>
      apply ret_Ok in H; destruct H as [? ?]; subst
  | lift _ _ = Ok _ =>
      apply lift_Ok in H; destruct H as [? ?]; subst
  | _ => idtac
  end.

(* ================================================================== *)
(** * What the walk of a subtree preserves *)
(* ================================================================== *)

Lemma recordKeys_unfold n parent :
  recordKeys n parent =
  if isInvisible n then []
  else
    flat_map (fun child => recordKeys child (Some n)) n.(n_children)
    ++ (if String.eqb n.(n_type) "VECTOR"
        then match parent with Some p => [p.(n_id)] | None => [] end
        else []).
Proof. destruct n; reflexivity. Qed.

(** A relation between stores that the two store operations of the walk
    establish is established by the walk of any subtree.  The relation may
    depend on the bucket keys the walk is allowed to write. *)
Section WalkPreservesKeys.
Variable R : list string -> Store -> Store -> Prop.
Hypothesis R_refl : forall keys s, R keys s s.
Hypothesis R_trans : forall keys s1 s2 s3, R keys s1 s2 -> R keys s2 s3 -> R keys s1 s3.
Hypothesis R_mono : forall keys keys' s s', incl keys keys' -> R keys s s' -> R keys' s s'.
Hypothesis R_find :
  forall keys value id s s', findOrCreateVar value s = Ok (id, s') -> R keys s s'.
Hypothesis R_register :
  forall parent simplified s s',
    registerVector parent simplified s = Ok (tt, s') ->
    R (match parent with Some p => [p.(n_id)] | None => [] end) s s'.

Lemma parseTextStyle_preserves keys n simplified s x s' :
  parseTextStyle n simplified s = Ok (x, s') -> R keys s s'.
Proof.
  unfold parseTextStyle.
  destruct (hasValue (rawField (n_style n)) None && negb (Object_keys_length (n_style n) =? 0));
    intros H; monad_inv H; eauto.
Qed.

Lemma parsePaints_preserves keys key paints simplified s x s' :
  parsePaints key paints simplified s = Ok (x, s') -> R keys s s'.
Proof.
  unfold parsePaints.
  cbv zeta. destruct (hasValue paints None && nonEmptyList (fieldOr [] paints));
    intros H; monad_inv H; eauto.
  monad_inv Hstep. eauto.
Qed.

Lemma parseStyles_preserves keys n simplified s x s' :
  parseStyles n simplified s = Ok (x, s') -> R keys s s'.
Proof.
  unfold parseStyles.
  destruct (hasValue (rawField (n_styles n)) None); intros H; monad_inv H; eauto.
Qed.

Lemma parseLayout_preserves keys n parent simplified s x s' :
  parseLayout n parent simplified s = Ok (x, s') -> R keys s s'.
Proof.
  unfold parseLayout.
  destruct (1 <? Object_keys_length (buildSimplifiedLayout n parent));
    intros H; monad_inv H; eauto.
Qed.

Lemma parseStrokeWeights_preserves keys n simplified s x s' :
  parseStrokeWeights n simplified s = Ok (x, s') -> R keys s s'.
Proof.
  unfold parseStrokeWeights.
  destruct (hasValue (n_individualStrokeWeights n) (Some isStrokeWeights));
    [destruct (n_individualStrokeWeights n)|];
    intros H; monad_inv H; eauto.
Qed.

Lemma parseOwnFields_preserves keys n parent s x s' :
  parseOwnFields n parent s = Ok (x, s') -> R keys s s'.
Proof.
  unfold parseOwnFields. intros H. monad_inv H.
  repeat match goal with
  | Hs : parseTextStyle _ _ _ = Ok _ |- _ => apply (parseTextStyle_preserves keys) in Hs
  | Hs : parsePaints _ _ _ _ = Ok _ |- _ => apply (parsePaints_preserves keys) in Hs
  | Hs : parseStyles _ _ _ = Ok _ |- _ => apply (parseStyles_preserves keys) in Hs
  | Hs : parseLayout _ _ _ _ = Ok _ |- _ => apply (parseLayout_preserves keys) in Hs
  | Hs : parseStrokeWeights _ _ _ = Ok _ |- _ => apply (parseStrokeWeights_preserves keys) in Hs
  end.
  eauto 10.
Qed.

Lemma mapM_preserves_keys {A B} (f : A -> M B) (keysOf : A -> list string) xs :
  Forall (fun x => forall s y s', f x s = Ok (y, s') -> R (keysOf x) s s') xs ->
  forall s ys s', mapM f xs s = Ok (ys, s') -> R (flat_map keysOf xs) s s'.
Proof.
  induction 1 as [|x rest Hx _ IH]; intros s ys s' H.
  - simpl in H. monad_inv H. apply R_refl.
  - apply mapM_Ok_cons in H. destruct H as (y & s1 & ys' & Hf & Hrest & _).
    simpl. eapply R_trans.
    + eapply R_mono; [|eapply Hx; exact Hf]. apply incl_appl, incl_refl.
    + eapply R_mono; [|eapply IH; exact Hrest]. apply incl_appr, incl_refl.
Qed.

Lemma parseNode_preserves_keys n :
  forall parent s result s',
    parseNode n parent s = Ok (result, s') -> R (recordKeys n parent) s s'.
Proof.
  induction n as [n IH] using RawNode_children_ind.
  intros parent s result s' H. rewrite parseNode_unfold in H. rewrite recordKeys_unfold.
  destruct (isInvisible n); [monad_inv H; apply R_refl|].
  monad_inv H.
  apply (parseOwnFields_preserves
           (flat_map (fun child => recordKeys child (Some n)) (n_children n)
            ++ (if String.eqb (n_type n) "VECTOR"
                then match parent with Some p => [n_id p] | None => [] end
                else []))) in Hstep.
  eapply R_trans; [exact Hstep|]. eapply R_trans.
  - eapply R_mono; [apply incl_appl, incl_refl|].
    destruct (nonEmptyList (n_children n)); monad_inv Hstep0; [|apply R_refl].
    match goal with
    | Hm : mapM _ _ _ = Ok _ |- _ =>
        eapply (mapM_preserves_keys _ (fun child => recordKeys child (Some n))); [|exact Hm]
    end.
    eapply Forall_impl; [|exact IH]. intros c Hc. intros ? ? ?. apply Hc.
  - eapply R_mono; [apply incl_appr, incl_refl|].
    destruct (String.eqb (n_type n) "VECTOR"); [|monad_inv Hstep1; apply R_refl].
    destruct x1. eauto.
Qed.

End WalkPreservesKeys.

Section WalkPreserves.
Variable R : Store -> Store -> Prop.
Hypothesis R_refl : forall s, R s s.
Hypothesis R_trans : forall s1 s2 s3, R s1 s2 -> R s2 s3 -> R s1 s3.
Hypothesis R_find :
  forall value id s s', findOrCreateVar value s = Ok (id, s') -> R s s'.
Hypothesis R_register :
  forall parent simplified s s', registerVector parent simplified s = Ok (tt, s') -> R s s'.

Lemma parseNode_preserves n parent s result s' :
  parseNode n parent s = Ok (result, s') -> R s s'.
Proof.
  apply (parseNode_preserves_keys (fun _ => R)); eauto.
Qed.

Lemma sameRun_preserves s s' : sameRun s s' -> R s s'.
Proof.
  induction 1 as [s | s s1 s2 Hstep _ IH]; [apply R_refl|].
  eapply R_trans; [|exact IH].
  destruct Hstep; eauto using parseNode_preserves.
Qed.

End WalkPreserves.

Lemma sameRun_trans s1 s2 s3 : sameRun s1 s2 -> sameRun s2 s3 -> sameRun s1 s3.
Proof.
  induction 1 as [|s s' s'' Hstep _ IH]; [auto|].
  intros H. eapply run_more; eauto.
Qed.

Lemma sameRun_mapM_parseNode parent roots s ys s' :
  mapM (fun n => parseNode n parent) roots s = Ok (ys, s') -> sameRun s s'.
Proof.
  revert s ys. induction roots as [|n rest IH]; intros s ys H.
  - simpl in H. monad_inv H. constructor.
  - apply mapM_Ok_cons in H. destruct H as (y & s1 & ys' & Hf & Hrest & _).
    eapply run_more; [eapply step_node; exact Hf | eauto].
Qed.

Lemma walkRoots_sameRun roots nodes s :
  walkRoots roots = Ok (nodes, s) -> sameRun initialStore s.
Proof.
  unfold walkRoots.
  destruct (mapM (fun n => parseNode n None) roots initialStore) as [[parsed s1]|e] eqn:E;
    [|discriminate].
  intros [= _ <-]. eapply sameRun_mapM_parseNode; eauto.
Qed.

(* ================================================================== *)
(** * What a run keeps *)
(* ================================================================== *)

Lemma callsAdvance_refl s : callsAdvance s s.
Proof. exists 0. lia. Qed.

Lemma callsAdvance_trans s1 s2 s3 :
  callsAdvance s1 s2 -> callsAdvance s2 s3 -> callsAdvance s1 s3.
Proof. intros [m1 H1] [m2 H2]. exists (m1 + m2). lia. Qed.

Lemma mintedBetween_left s1 s2 s3 id :
  callsAdvance s2 s3 -> mintedBetween s1 s2 id -> mintedBetween s1 s3 id.
Proof. intros [m Hm] [i [Hi ->]]. exists i. split; [lia | reflexivity]. Qed.

Lemma mintedBetween_right s1 s2 s3 id :
  callsAdvance s1 s2 -> mintedBetween s2 s3 id -> mintedBetween s1 s3 id.
Proof.
  intros [m Hm] [i [Hi ->]]. exists (m + i). split; [lia|].
  f_equal. lia.
Qed.

Lemma mintedBetween_same s id : ~ mintedBetween s s id.
Proof. intros [i [Hi _]]. lia. Qed.

Lemma registerVector_inv parent simplified s s' :
  registerVector parent simplified s = Ok (tt, s') ->
  exists vectorId s1,
    findOrCreateVar (JObj (obj_delete "id" simplified)) s = Ok (vectorId, s1)
    /\ match parent with
       | Some p => recordVectorParent p vectorId s1 = Ok (tt, s')
       | None => s' = s1
       end.
Proof.
  unfold registerVector. intros H. apply bind_Ok in H.
  destruct H as (vectorId & s1 & Hfind & H). exists vectorId, s1. split; [assumption|].
  destruct parent; [assumption|]. apply ret_Ok in H. tauto.
Qed.

Lemma recordVectorParent_inv p vectorId s s' :
  recordVectorParent p vectorId s = Ok (tt, s') ->
  exists vectorParents,
    obj_get "vectorParents" s.(globalVars) = Some (JObj vectorParents)
    /\ p.(n_id) <> "__proto__"
    /\ s' = mkStore
              (obj_set "vectorParents"
                 (JObj (obj_set p.(n_id) (vectorParentRecord p vectorId) vectorParents))
                 s.(globalVars))
              s.(randomCalls).
Proof.
  unfold recordVectorParent.
  destruct (obj_get "vectorParents" (globalVars s)) as [[| | | | | |vp]|]; try discriminate.
  destruct (String.eqb_spec (n_id p) "__proto__"); [discriminate|].
  intros [= <-]. now exists vp.
Qed.

Lemma stringifyMembers_In props k v t :
  In (k, v) props -> JSON_stringify v = Some t ->
  In (k, t) (stringifyMembers JSON_stringify props).
Proof.
  induction props as [|[k' v'] rest IH]; simpl; [tauto|].
  intros [H | H] Ht.
  - inversion H; subst. rewrite Ht. now left.
  - destruct (JSON_stringify v'); [right|]; auto.
Qed.

Lemma bucket_not_same value vectorParents key p vectorId :
  holdsNoRecord value = true ->
  In (key, vectorParentRecord p vectorId) vectorParents ->
  sameJSON (JObj vectorParents) value = false.
Proof.
  intros Hno Hin.
  destruct (sameJSON (JObj vectorParents) value) eqn:E; [|reflexivity].
  apply sameJSON_eq in E. unfold holdsNoRecord in Hno. rewrite <- E in Hno.
  simpl in Hno. rewrite forallb_forall in Hno.
  eapply stringifyMembers_In in Hin; [|reflexivity].
  apply Hno in Hin. discriminate.
Qed.

Lemma keepsMatches_refl s : keepsMatches s s.
Proof. split; [apply callsAdvance_refl | auto]. Qed.

Lemma keepsMatches_trans s1 s2 s3 :
  keepsMatches s1 s2 -> keepsMatches s2 s3 -> keepsMatches s1 s3.
Proof.
  intros [Ha1 H1] [Ha2 H2]. split; [eapply callsAdvance_trans; eauto|].
  intros value id w E Hne Hnb Hno Hmint.
  apply H2; auto.
  - apply H1; auto. intros Hm. apply Hmint. eapply mintedBetween_left; eauto.
  - intros Hm. apply Hmint. eapply mintedBetween_right; eauto.
Qed.

Lemma keepsMatches_find value id s s' :
  findOrCreateVar value s = Ok (id, s') -> keepsMatches s s'.
Proof.
  intros H. apply findOrCreateVar_inv in H. destruct H as [w E Hne -> | Hnone -> ->].
  - apply keepsMatches_refl.
  - split; [exists 1; simpl; lia|].
    intros value' id' w' E' Hne' _ _ Hmint. simpl.
    apply findExisting_set_other; auto.
    + intros ->. apply Hmint. exists 0. simpl. split; [lia | f_equal; lia].
    + destruct (sameJSON value value') eqn:Esame; [|reflexivity].
      apply sameJSON_eq in Esame.
      rewrite <- (findExisting_congr value value' _ Esame) in E'.
      apply Hnone in E'. congruence.
Qed.

Lemma keepsMatches_record p vectorId s s' :
  recordVectorParent p vectorId s = Ok (tt, s') -> keepsMatches s s'.
Proof.
  intros H. apply recordVectorParent_inv in H. destruct H as (vp & Hvp & _ & ->).
  split; [exists 0; simpl; lia|].
  intros value id w E Hne Hnb Hno _. simpl.
  apply findExisting_set_other; auto.
  eapply bucket_not_same; [exact Hno|].
  apply obj_get_In. apply obj_get_set_same.
Qed.

Lemma keepsMatches_register parent simplified s s' :
  registerVector parent simplified s = Ok (tt, s') -> keepsMatches s s'.
Proof.
  intros H. apply registerVector_inv in H. destruct H as (vid & s1 & Hfind & H).
  apply keepsMatches_find in Hfind. destruct parent as [p|].
  - eapply keepsMatches_trans; [exact Hfind | eapply keepsMatches_record; eauto].
  - now subst.
Qed.

Lemma sameRun_keepsMatches s s' : sameRun s s' -> keepsMatches s s'.
Proof.
  apply sameRun_preserves.
  - apply keepsMatches_refl.
  - apply keepsMatches_trans.
  - apply keepsMatches_find.
  - apply keepsMatches_register.
Qed.

Lemma keepsBindings_refl s : keepsBindings s s.
Proof. split; [apply callsAdvance_refl | auto]. Qed.

Lemma keepsBindings_trans s1 s2 s3 :
  keepsBindings s1 s2 -> keepsBindings s2 s3 -> keepsBindings s1 s3.
Proof.
  intros [Ha1 H1] [Ha2 H2]. split; [eapply callsAdvance_trans; eauto|].
  intros k w E Hnb Hmint.
  apply H2; auto.
  - apply H1; auto. intros Hm. apply Hmint. eapply mintedBetween_left; eauto.
  - intros Hm. apply Hmint. eapply mintedBetween_right; eauto.
Qed.

Lemma keepsBindings_find value id s s' :
  findOrCreateVar value s = Ok (id, s') -> keepsBindings s s'.
Proof.
  intros H. apply findOrCreateVar_inv in H. destruct H as [w E Hne -> | Hnone -> ->].
  - apply keepsBindings_refl.
  - split; [exists 1; simpl; lia|].
    intros k w E _ Hmint. simpl. rewrite obj_get_set_other; [assumption|].
    intros ->. apply Hmint. exists 0. simpl. split; [lia | f_equal; lia].
Qed.

Lemma keepsBindings_register parent simplified s s' :
  registerVector parent simplified s = Ok (tt, s') -> keepsBindings s s'.
Proof.
  intros H. apply registerVector_inv in H. destruct H as (vid & s1 & Hfind & H).
  apply keepsBindings_find in Hfind. destruct parent as [p|]; [|now subst].
  eapply keepsBindings_trans; [exact Hfind|].
  apply recordVectorParent_inv in H. destruct H as (vp & Hvp & _ & ->).
  split; [exists 0; simpl; lia|].
  intros k w E Hnb _. simpl. now rewrite obj_get_set_other.
Qed.

Lemma sameRun_keepsBindings s s' : sameRun s s' -> keepsBindings s s'.
Proof.
  apply sameRun_preserves.
  - apply keepsBindings_refl.
  - apply keepsBindings_trans.
  - apply keepsBindings_find.
  - apply keepsBindings_register.
Qed.

(* ================================================================== *)
(** * The shape of the store during a run *)
(* ================================================================== *)

Lemma wellFormed_initial : wellFormed initialStore.
Proof.
  repeat split; simpl.
  - repeat constructor. simpl. tauto.
  - repeat constructor.
  - exists []. repeat split; constructor.
Qed.

Lemma Forall_keys_set {A} (P : string -> Prop) key (v : A) o :
  P key -> Forall P (obj_keys o) -> Forall P (obj_keys (obj_set key v o)).
Proof.
  intros Hkey Hall. rewrite Forall_forall in *. intros k Hk.
  apply obj_keys_set_In in Hk. destruct Hk as [-> | Hk]; auto.
Qed.

Lemma wellFormed_find value id s s' :
  findOrCreateVar value s = Ok (id, s') ->
  wellFormed s -> wellFormed s' /\ goodKey id = true.
Proof.
  intros H (Hnd & Hkeys & vp & Hvp & Hndvp & Hrec).
  apply findOrCreateVar_inv in H. destruct H as [w E Hne -> | Hnone -> ->].
  - split; [repeat split; eauto|].
    apply findExisting_Some in E. destruct E as [Hin _].
    rewrite Forall_forall in Hkeys. apply Hkeys. now apply (in_map fst) in Hin.
  - assert (Hgood : goodKey (varIdAt "var" (randomCalls s)) = true) by reflexivity.
    split; [|exact Hgood]. repeat split; simpl.
    + now apply obj_set_NoDup.
    + now apply Forall_keys_set.
    + exists vp. repeat split; auto. rewrite obj_get_set_other; [assumption | discriminate].
Qed.

Lemma wellFormed_record p vectorId s s' :
  recordVectorParent p vectorId s = Ok (tt, s') ->
  goodKey vectorId = true -> wellFormed s -> wellFormed s'.
Proof.
  intros H Hgood (Hnd & Hkeys & vp & Hvp & Hndvp & Hrec).
  apply recordVectorParent_inv in H. destruct H as (vp' & Hvp' & _ & ->).
  rewrite Hvp in Hvp'. injection Hvp' as <-.
  repeat split; simpl.
  - now apply obj_set_NoDup.
  - apply Forall_keys_set; [reflexivity | assumption].
  - eexists. repeat split; [apply obj_get_set_same | now apply obj_set_NoDup |].
    rewrite Forall_forall in *. intros [k w] Hin.
    apply obj_set_In in Hin. destruct Hin as [[-> ->] | Hin]; [|auto].
    now exists p, vectorId.
Qed.

Lemma sameRun_wellFormed s s' : sameRun s s' -> wellFormed s -> wellFormed s'.
Proof.
  apply (sameRun_preserves keepsWellFormed); unfold keepsWellFormed.
  - auto.
  - auto.
  - intros value id s1 s2 H Hwf. eapply wellFormed_find; eauto.
  - intros parent simplified s1 s2 H Hwf.
    apply registerVector_inv in H. destruct H as (vid & s3 & Hfind & H).
    destruct (wellFormed_find _ _ _ _ Hfind Hwf) as [Hwf3 Hgood].
    destruct parent as [p|]; [|now subst].
    eapply wellFormed_record; eauto.
Qed.

Lemma walkRoots_wellFormed roots nodes s :
  walkRoots roots = Ok (nodes, s) -> wellFormed s.
Proof.
  intros H. eapply sameRun_wellFormed; [eapply walkRoots_sameRun; eauto|].
  apply wellFormed_initial.
Qed.

(* ================================================================== *)
(** * Facts about the grouping pass *)
(* ================================================================== *)

Lemma groupVectorParents_cons parentId data rest childrenToParents vars childrenId :
  jget "childrenId" data = JStr childrenId ->
  includes objectPrototypeKeys childrenId = false ->
  groupVectorParents ((parentId, data) :: rest) childrenToParents vars =
  groupVectorParents rest
    (fst (groupStep childrenId parentId (childrenToParents, vars)))
    (snd (groupStep childrenId parentId (childrenToParents, vars))).
Proof.
  intros Hc Hp. cbn [groupVectorParents]. rewrite Hc, Hp. unfold groupStep.
  cbn [fst snd].
  destruct (obj_get childrenId childrenToParents); reflexivity.
Qed.

Lemma groupVectorParents_inv parentId data rest childrenToParents vars res :
  groupVectorParents ((parentId, data) :: rest) childrenToParents vars = Ok res ->
  exists childrenId,
    jget "childrenId" data = JStr childrenId
    /\ includes objectPrototypeKeys childrenId = false
    /\ groupVectorParents rest
         (fst (groupStep childrenId parentId (childrenToParents, vars)))
         (snd (groupStep childrenId parentId (childrenToParents, vars))) = Ok res.
Proof.
  intros H.
  destruct (jget "childrenId" data) as [| | | |childrenId| |] eqn:Hc;
    try (cbn [groupVectorParents] in H; rewrite Hc in H; discriminate).
  destruct (includes objectPrototypeKeys childrenId) eqn:Hp;
    [cbn [groupVectorParents] in H; rewrite Hc, Hp in H; discriminate|].
  exists childrenId. repeat split; auto.
  now rewrite <- (groupVectorParents_cons _ _ _ _ _ _ Hc Hp).
Qed.

Lemma groupStep_groupOf childrenId parentId acc cid :
  groupOf cid (fst (groupStep childrenId parentId acc)) =
  if String.eqb cid childrenId
  then groupOf cid (fst acc) ++ [parentId]
  else groupOf cid (fst acc).
Proof.
  destruct acc as [c2p vars]. unfold groupStep, groupOf, pushParent. simpl.
  destruct (String.eqb_spec cid childrenId) as [->|Hne].
  - destruct (obj_get childrenId c2p) as [ps|] eqn:E; simpl.
    + rewrite E. now rewrite obj_get_set_same.
    + rewrite obj_get_set_same. now rewrite obj_get_set_same.
  - destruct (obj_get childrenId c2p) as [ps|] eqn:E; simpl.
    + rewrite E. now rewrite obj_get_set_other.
    + rewrite obj_get_set_same. now rewrite !obj_get_set_other.
Qed.

Lemma groupStep_keys childrenId parentId acc cid :
  In cid (obj_keys (fst (groupStep childrenId parentId acc)))
  <-> cid = childrenId \/ In cid (obj_keys (fst acc)).
Proof.
  destruct acc as [c2p vars]. unfold groupStep, pushParent. simpl.
  destruct (obj_get childrenId c2p) as [ps|] eqn:E; simpl.
  - rewrite E. rewrite obj_keys_set_In.
    split; [tauto|]. intros [-> | H]; auto.
  - rewrite obj_get_set_same. rewrite !obj_keys_set_In. tauto.
Qed.

Lemma groupStep_NoDup childrenId parentId acc :
  NoDup (obj_keys (fst acc)) -> NoDup (obj_keys (fst (groupStep childrenId parentId acc))).
Proof.
  destruct acc as [c2p vars]. unfold groupStep, pushParent. simpl.
  destruct (obj_get childrenId c2p) as [ps|] eqn:E; simpl.
  - rewrite E. apply obj_set_NoDup.
  - rewrite obj_get_set_same. intros H. now repeat apply obj_set_NoDup.
Qed.

Lemma groupStep_vars childrenId parentId acc k :
  obj_get k (snd (groupStep childrenId parentId acc)) =
  if String.eqb k childrenId && negb (obj_has childrenId (fst acc))
  then None else obj_get k (snd acc).
Proof.
  destruct acc as [c2p vars]. unfold groupStep, obj_has. simpl.
  destruct (obj_get childrenId c2p) as [ps|] eqn:E; simpl.
  - now rewrite andb_false_r.
  - rewrite andb_true_r. destruct (String.eqb_spec k childrenId) as [->|Hne].
    + apply obj_get_delete_same.
    + now apply obj_get_delete_other.
Qed.

Lemma groupStep_vars_NoDup childrenId parentId acc :
  NoDup (obj_keys (snd acc)) -> NoDup (obj_keys (snd (groupStep childrenId parentId acc))).
Proof.
  destruct acc as [c2p vars]. unfold groupStep. simpl.
  destruct (obj_get childrenId c2p); simpl; [auto | apply obj_delete_NoDup].
Qed.

(** Who ends up in which group: a parent is listed under a content address
    exactly when one of its records names that address. *)
Lemma groupVectorParents_members entries :
  forall childrenToParents vars result vars',
    groupVectorParents entries childrenToParents vars = Ok (result, vars') ->
    forall cid pid,
      In pid (groupOf cid result)
      <-> In pid (groupOf cid childrenToParents)
          \/ exists data, In (pid, data) entries /\ jget "childrenId" data = JStr cid.
Proof.
  induction entries as [|[parentId data] rest IH]; intros c2p vars result vars' H cid pid.
  - simpl in H. injection H as <- <-. split; [auto|]. intros [H | (d & [] & _)]. exact H.
  - apply groupVectorParents_inv in H. destruct H as (childrenId & Hc & Hp & H).
    rewrite (IH _ _ _ _ H cid pid). rewrite groupStep_groupOf. simpl.
    destruct (String.eqb_spec cid childrenId) as [->|Hne].
    + rewrite in_app_iff. simpl. split.
      * intros [[H1 | [<- | []]] | (d & Hd & Hd')]; eauto 6.
      * intros [H1 | (d & [Hd | Hd] & Hd')]; eauto 6.
        inversion Hd; subst. auto.
    + split.
      * intros [H1 | (d & Hd & Hd')]; eauto 6.
      * intros [H1 | (d & [Hd | Hd] & Hd')]; eauto 6.
        inversion Hd; subst. congruence.
Qed.

Lemma groupVectorParents_keys entries :
  forall childrenToParents vars result vars',
    groupVectorParents entries childrenToParents vars = Ok (result, vars') ->
    (forall cid, In cid (obj_keys result)
                 <-> In cid (obj_keys childrenToParents) \/ In cid (recordedChildrenIds entries))
    /\ (NoDup (obj_keys childrenToParents) -> NoDup (obj_keys result)).
Proof.
  induction entries as [|[parentId data] rest IH]; intros c2p vars result vars' H.
  - simpl in H. injection H as <- <-. simpl. split; [tauto | auto].
  - apply groupVectorParents_inv in H. destruct H as (childrenId & Hc & Hp & H).
    destruct (IH _ _ _ _ H) as [IHkeys IHnd]. split.
    + intros cid. rewrite IHkeys, groupStep_keys. simpl. rewrite Hc. simpl.
      split; intros H'; intuition (subst; auto).
    + intros Hnd. apply IHnd. now apply groupStep_NoDup.
Qed.

(** What the pass leaves of the store: the variables that some record names
    are gone, every other binding is as it was. *)
Lemma groupVectorParents_vars entries :
  forall childrenToParents vars result vars',
    groupVectorParents entries childrenToParents vars = Ok (result, vars') ->
    forall k,
      obj_get k vars' =
      if existsb (String.eqb k) (recordedChildrenIds entries)
         && negb (obj_has k childrenToParents)
      then None else obj_get k vars.
Proof.
  induction entries as [|[parentId data] rest IH]; intros c2p vars result vars' H k.
  - simpl in H. injection H as <- <-. reflexivity.
  - apply groupVectorParents_inv in H. destruct H as (childrenId & Hc & Hp & H).
    rewrite (IH _ _ _ _ H k). rewrite groupStep_vars. simpl. rewrite Hc. simpl.
    assert (Hhas : obj_has k (fst (groupStep childrenId parentId (c2p, vars)))
                   = String.eqb k childrenId || obj_has k c2p).
    { apply eq_true_iff_eq. rewrite orb_true_iff, String.eqb_eq, !obj_has_true.
      apply groupStep_keys. }
    rewrite Hhas. clear Hhas.
    destruct (String.eqb k childrenId) eqn:Ek; simpl; [|reflexivity].
    apply String.eqb_eq in Ek. subst k.
    rewrite andb_false_r. simpl. now destruct (obj_has childrenId c2p).
Qed.

Lemma groupVectorParents_total entries :
  Forall recordEntry entries ->
  forall childrenToParents vars,
    exists result vars', groupVectorParents entries childrenToParents vars = Ok (result, vars').
Proof.
  induction 1 as [|[k w] rest (p & vid & Hentry & Hgood) _ IH]; intros c2p vars.
  - simpl. eauto.
  - injection Hentry as -> ->.
    rewrite (groupVectorParents_cons _ _ _ _ _ vid); [apply IH | reflexivity |].
    now apply goodKey_facts.
Qed.

(* ================================================================== *)
(** * Facts about the search and the rewrite *)
(* ================================================================== *)

Lemma hasId_true id props : hasId id props = true -> obj_get "id" props = Some (JStr id).
Proof.
  unfold hasId. destruct (obj_get "id" props) as [[| | | |s| |]|]; try discriminate.
  intros H. apply String.eqb_eq in H. now subst.
Qed.

Lemma rewriteChildren_id k props props' :
  rewriteChildren k props = Some props' -> obj_get "id" props' = obj_get "id" props.
Proof.
  revert props'. induction props as [|[key v] rest IH]; simpl; intros props'; [discriminate|].
  destruct (String.eqb_spec key "children") as [->|Hne].
  - destruct v; try discriminate. destruct (k items); [|discriminate].
    intros [= <-]. reflexivity.
  - destruct (rewriteChildren k rest) as [rest'|]; [|discriminate].
    intros [= <-]. simpl. destruct (String.eqb key "id"); [reflexivity | now apply IH].
Qed.

Lemma searchAgrees_list id nodes :
  Forall (searchAgrees id) nodes -> searchAgreesList id nodes.
Proof.
  unfold searchAgreesList.
  induction 1 as [|node rest Hnode _ IH]; simpl; [reflexivity|].
  unfold searchAgrees in Hnode.
  destruct (findInNode id node) as [found|] eqn:E.
  - destruct Hnode as (node' & -> & Hfound). exists (node' :: rest). simpl.
    now rewrite Hfound.
  - rewrite Hnode. destruct (firstFound (findInNode id) rest) as [found|].
    + destruct IH as (rest' & -> & Hfound). exists (node :: rest'). simpl.
      now rewrite E.
    + now rewrite IH.
Qed.

Lemma searchAgrees_props id props :
  Forall (fun kv => searchAgreesDeep id (snd kv)) props ->
  match inChildren (firstFound (findInNode id)) props with
  | None => rewriteChildren (rewriteFirst (rewriteInNode id)) props = None
  | Some _ =>
      exists props', rewriteChildren (rewriteFirst (rewriteInNode id)) props = Some props'
                     /\ inChildren (firstFound (findInNode id)) props' = Some (imageStub id)
  end.
Proof.
  induction 1 as [|[key v] rest Hv _ IH]; simpl; [reflexivity|].
  destruct (String.eqb key "children") eqn:Ekey.
  - destruct v as [| | | | |items|]; try reflexivity.
    destruct Hv as [_ Hitems]. simpl in Hitems. unfold searchAgreesList in Hitems.
    destruct (firstFound (findInNode id) items) as [found|].
    + destruct Hitems as (items' & -> & Hfound). eexists. split; [reflexivity|].
      simpl. now rewrite Ekey.
    + now rewrite Hitems.
  - destruct (inChildren (firstFound (findInNode id)) rest) as [found|].
    + destruct IH as (rest' & -> & Hfound). exists ((key, v) :: rest'). simpl.
      now rewrite Ekey.
    + now rewrite IH.
Qed.

Lemma searchAgreesDeep_all id v : searchAgreesDeep id v.
Proof.
  induction v as [| | b | q | s | items IH | props IH] using JValue_nested_ind;
    try (split; [reflexivity | exact I]).
  - split; [reflexivity|]. apply searchAgrees_list.
    eapply Forall_impl; [|exact IH]. intros x [Hx _]. exact Hx.
  - split; [|exact I]. unfold searchAgrees. simpl.
    destruct (hasId id props) eqn:Eid.
    + exists (imageStub id). split; [reflexivity|]. simpl. unfold hasId. simpl.
      now rewrite String.eqb_refl.
    + pose proof (searchAgrees_props id props IH) as Hprops.
      destruct (inChildren (firstFound (findInNode id)) props) as [found|].
      * destruct Hprops as (props' & Hrw & Hfound). rewrite Hrw.
        exists (JObj props'). split; [reflexivity|]. simpl.
        unfold hasId in *. rewrite (rewriteChildren_id _ _ _ Hrw), Eid. exact Hfound.
      * now rewrite Hprops.
Qed.

Lemma searchAgreesList_all id nodes : searchAgreesList id nodes.
Proof.
  apply searchAgrees_list. apply Forall_forall. intros x _. apply searchAgreesDeep_all.
Qed.

Lemma foundHasId_list id nodes :
  Forall (foundHasId id) nodes ->
  forall found, firstFound (findInNode id) nodes = Some found -> jget "id" found = JStr id.
Proof.
  induction 1 as [|node rest [Hnode _] _ IH]; simpl; intros found; [discriminate|].
  destruct (findInNode id node) as [f|] eqn:E; [|apply IH].
  intros [= <-]. now apply Hnode.
Qed.

Lemma foundHasId_all id v : foundHasId id v.
Proof.
  induction v as [| | b | q | s | items IH | props IH] using JValue_nested_ind;
    try (split; [discriminate | exact I]).
  - split; [discriminate|]. now apply foundHasId_list.
  - split; [|exact I]. intros found. simpl. destruct (hasId id props) eqn:Eid.
    + intros [= <-]. simpl. now rewrite (hasId_true _ _ Eid).
    + clear Eid. induction IH as [|[key v] rest Hv _ IHrest]; simpl; [discriminate|].
      destruct (String.eqb key "children"); [|exact IHrest].
      destruct v as [| | | | |items|]; try discriminate.
      destruct Hv as [_ Hitems]. apply Hitems.
Qed.

Lemma findNodeById_id id nodes found :
  findNodeById id nodes = Some found -> jget "id" found = JStr id.
Proof.
  apply foundHasId_list. apply Forall_forall. intros x _. apply foundHasId_all.
Qed.

(** A parent the search does not find is passed over. *)
Lemma rewriteParent_missing nodes parentId :
  findNodeById parentId nodes = None -> rewriteParent nodes parentId = nodes.
Proof.
  intros H. pose proof (searchAgreesList_all parentId nodes) as Hagree.
  unfold searchAgreesList, findNodeById in *. rewrite H in Hagree.
  unfold rewriteParent. now rewrite Hagree.
Qed.


Lemma fold_rewriteParent_nil parentIds : fold_left rewriteParent parentIds [] = [].
Proof. induction parentIds as [|p rest IH]; simpl; auto. Qed.

Lemma fold_left_concat {A B} (f : A -> B -> A) (ls : list (list B)) (x : A) :
  fold_left (fun acc l => fold_left f l acc) ls x = fold_left f (List.concat ls) x.
Proof.
  revert x. induction ls as [|l rest IH]; intros x; simpl; [reflexivity|].
  now rewrite fold_left_app, IH.
Qed.

(** The whole of [parseGlobalVars], spelled out. *)
Lemma parseGlobalVars_inv vars simplifiedNodes vars' nodes' :
  parseGlobalVars vars simplifiedNodes = Ok (vars', nodes') ->
  exists vectorParents childrenToParents vars1,
    obj_get "vectorParents" vars = Some (JObj vectorParents)
    /\ groupVectorParents vectorParents [] vars = Ok (childrenToParents, vars1)
    /\ vars' = obj_delete "vectorParents"
                 (obj_set "childrenToParents" (childrenToParents_toJ childrenToParents) vars1)
    /\ nodes' = fold_left rewriteParent (List.concat (obj_values childrenToParents)) simplifiedNodes.
Proof.
  unfold parseGlobalVars.
  destruct (obj_get "vectorParents" vars) as [[| | | | | |vp]|]; try discriminate.
  destruct (groupVectorParents vp [] vars) as [[c2p vars1]|e] eqn:E; [|discriminate].
  intros [= <- <-]. exists vp, c2p, vars1. repeat split; [exact E|].
  rewrite <- fold_left_concat.
  destruct simplifiedNodes as [|n rest]; simpl; [|reflexivity].
  rewrite fold_left_concat. symmetry. apply fold_rewriteParent_nil.
Qed.

Lemma parseGlobalVars_total vars simplifiedNodes vectorParents :
  obj_get "vectorParents" vars = Some (JObj vectorParents) ->
  Forall recordEntry vectorParents ->
  exists vars' nodes', parseGlobalVars vars simplifiedNodes = Ok (vars', nodes').
Proof.
  intros Hvp Hrec. unfold parseGlobalVars. rewrite Hvp.
  destruct (groupVectorParents_total _ Hrec [] vars) as (c2p & vars1 & ->). eauto.
Qed.

(* ================================================================== *)
(** * Content addressing (C1) *)
(* ================================================================== *)

Lemma findOrCreateVar_registers value s id s1 :
  ~ In "" (obj_keys s.(globalVars)) ->
  findOrCreateVar value s = Ok (id, s1) ->
  id <> "" /\ exists w, findExisting value s1.(globalVars) = Some (id, w).
Proof.
  intros Hkeys H. apply findOrCreateVar_inv in H.
  destruct H as [w E Hne -> | Hnone -> ->].
  - split; [assumption | eauto].
  - split; [discriminate|]. exists value. simpl.
    apply findExisting_set_new; [|apply sameJSON_refl].
    destruct (findExisting value (globalVars s)) as [[k w]|] eqn:E.
    + pose proof (Hnone k w eq_refl) as ->.
      apply findExisting_Some in E. destruct E as [Hin _].
      exfalso. apply Hkeys. now apply (in_map fst) in Hin.
    + now apply findExisting_None.
Qed.

(** C1, amended. Two payloads with the same serialization passed to
    [findOrCreateVar] one right after the other get the same identifier, and
    the store gains at most one entry; a payload that an entry of the store
    already serializes to gets an existing identifier and allocates nothing;
    and the identifier is found again after any further steps of the run,
    as long as none of them mints that identifier anew, it is not the
    bookkeeping bucket, and the payload has no member that is a
    vector-parent record. *)
Theorem findOrCreateVar_content_addressed :
  forall (s : Store) (v1 v2 : JValue) (id : string) (s1 : Store),
    ~ In "" (obj_keys s.(globalVars)) ->
    JSON_stringify v1 = JSON_stringify v2 ->
    findOrCreateVar v1 s = Ok (id, s1) ->
    findOrCreateVar v2 s1 = Ok (id, s1)
    /\ List.length s1.(globalVars) <= S (List.length s.(globalVars))
    /\ ((exists k w, In (k, w) s.(globalVars) /\ JSON_stringify w = JSON_stringify v1) ->
        s1 = s /\ In id (obj_keys s.(globalVars)))
    /\ (forall s2,
          sameRun s1 s2 ->
          id <> "vectorParents" -> holdsNoRecord v1 = true -> ~ mintedBetween s1 s2 id ->
          findOrCreateVar v2 s2 = Ok (id, s2)).
Proof.
  intros s v1 v2 id s1 Hkeys Heq H.
  destruct (findOrCreateVar_twice s v1 v2 id s1 Hkeys Heq H) as [Htwice Hlen].
  split; [exact Htwice|]. split; [exact Hlen|]. split.
  - intros (k & w & Hin & Hw).
    apply sameJSON_eq in Hw.
    destruct (findExisting_exists v1 _ k w Hin Hw) as (k' & w' & E).
    pose proof (findExisting_Some _ _ _ _ E) as [Hin' _].
    assert (Hk' : k' <> "").
    { intros ->. apply Hkeys. now apply (in_map fst) in Hin'. }
    rewrite (findOrCreateVar_hit _ _ _ _ E Hk') in H. injection H as <- <-.
    split; [reflexivity|]. now apply (in_map fst) in Hin'.
  - intros s2 Hrun Hnb Hno Hmint.
    destruct (findOrCreateVar_registers _ _ _ _ Hkeys H) as [Hne (w & E)].
    destruct (sameRun_keepsMatches _ _ Hrun) as [_ Hkeep].
    specialize (Hkeep v1 id w E Hne Hnb Hno Hmint).
    eapply findOrCreateVar_hit; [|exact Hne].
    rewrite <- (findExisting_congr v1 v2 _ Heq). exact Hkeep.
Qed.

(* ================================================================== *)
(** * What stays in the store (C4) *)
(* ================================================================== *)

(** C4, amended. During the walk an identifier keeps its payload unless the
    generator mints it a second time; the grouping pass then removes the
    bookkeeping bucket and every variable that a vector-parent record names
    as its content address, and nothing else: every other identifier bound
    during the walk is a key of the returned [globalVars], with the payload
    it had. *)
Theorem bindings_survive_run :
  forall (name lastModified : string) (roots : list RawNode)
         (nodes : list JValue) (s : Store) (design : SimplifiedDesign),
    walkRoots roots = Ok (nodes, s) ->
    simplifyRoots name lastModified roots = Ok design ->
    exists vectorParents,
      obj_get "vectorParents" s.(globalVars) = Some (JObj vectorParents)
      /\ obj_get "vectorParents" design.(sd_globalVars) = None
      /\ (forall k, In k (recordedChildrenIds vectorParents) ->
                    obj_get k design.(sd_globalVars) = None)
      /\ (forall s1 k w,
            sameRun initialStore s1 -> sameRun s1 s ->
            obj_get k s1.(globalVars) = Some w ->
            k <> "vectorParents" ->
            ~ mintedBetween s1 s k ->
            ~ In k (recordedChildrenIds vectorParents) ->
            obj_get k design.(sd_globalVars) = Some w).
Proof.
  intros name lastModified roots nodes s design Hwalk Hrun.
  unfold simplifyRoots in Hrun. rewrite Hwalk in Hrun.
  destruct (parseGlobalVars (globalVars s) nodes) as [[vars' nodes']|e] eqn:Epg; [|discriminate].
  injection Hrun as <-. simpl.
  apply parseGlobalVars_inv in Epg.
  destruct Epg as (vp & c2p & vars1 & Hvp & Hgroup & -> & _).
  exists vp. split; [exact Hvp|]. split; [apply obj_get_delete_same|].
  pose proof (groupVectorParents_vars _ _ _ _ _ Hgroup) as Hvars.
  split.
  - intros k Hk.
    destruct (String.eqb_spec k "vectorParents") as [->|Hnb]; [apply obj_get_delete_same|].
    rewrite obj_get_delete_other by assumption.
    pose proof (walkRoots_wellFormed _ _ _ Hwalk) as (_ & Hgood & _).
    assert (Hc2p : k <> "childrenToParents").
    { intros Heq. subst k. clear -Hk Hvp Hwalk.
      pose proof (walkRoots_wellFormed _ _ _ Hwalk) as (_ & _ & vp' & Hvp' & _ & Hrec).
      rewrite Hvp in Hvp'. injection Hvp' as <-.
      unfold recordedChildrenIds in Hk. apply in_flat_map in Hk.
      destruct Hk as ([k' d] & Hin & Hd).
      rewrite Forall_forall in Hrec. destruct (Hrec _ Hin) as (p & vid & Hentry & Hvid).
      injection Hentry as -> ->. simpl in Hd. destruct Hd as [Hd | []].
      subst vid. discriminate Hvid. }
    rewrite obj_get_set_other by assumption.
    rewrite Hvars. simpl.
    replace (existsb (String.eqb k) (recordedChildrenIds vp)) with true; [reflexivity|].
    symmetry. apply existsb_exists. exists k. split; [assumption | apply String.eqb_refl].
  - intros s1 k w Hinit Hrest Hk Hnb Hmint Hnot.
    destruct (sameRun_keepsBindings _ _ Hrest) as [_ Hkeep].
    specialize (Hkeep k w Hk Hnb Hmint).
    pose proof (sameRun_wellFormed _ _ Hinit wellFormed_initial) as (_ & Hgood & _).
    assert (Hc2p : k <> "childrenToParents").
    { rewrite Forall_forall in Hgood. apply obj_get_Some_key in Hk.
      apply Hgood in Hk. apply goodKey_facts in Hk. tauto. }
    rewrite obj_get_delete_other by assumption.
    rewrite obj_get_set_other by assumption.
    rewrite Hvars. simpl.
    replace (existsb (String.eqb k) (recordedChildrenIds vp)) with false; [exact Hkeep|].
    symmetry. apply not_true_is_false. intros Hex. apply Hnot.
    apply existsb_exists in Hex. destruct Hex as (k' & Hin & Hk').
    apply String.eqb_eq in Hk'. now subst.
Qed.

(* ================================================================== *)
(** * A parent the search does not find (C9) *)
(* ================================================================== *)

(** C9. In every run whose walk completes, the grouping pass raises no
    error; every recorded parent is listed in the group of the content
    address its record names, found or not; and when the search does not
    find a parent at its turn, no node is rewritten for it: the pass goes on
    with the remaining parents from the tree as it was. *)
Theorem missing_parent_skipped :
  forall (name lastModified : string) (roots : list RawNode)
         (nodes : list JValue) (s : Store),
    walkRoots roots = Ok (nodes, s) ->
    exists vectorParents design childrenToParents,
      obj_get "vectorParents" s.(globalVars) = Some (JObj vectorParents)
      /\ simplifyRoots name lastModified roots = Ok design
      /\ obj_get "childrenToParents" design.(sd_globalVars)
         = Some (childrenToParents_toJ childrenToParents)
      /\ design.(sd_nodes)
         = fold_left rewriteParent (List.concat (obj_values childrenToParents)) nodes
      /\ (forall parentId data,
            In (parentId, data) vectorParents ->
            exists childrenId,
              jget "childrenId" data = JStr childrenId
              /\ In parentId (groupOf childrenId childrenToParents))
      /\ (forall parentId before after,
            List.concat (obj_values childrenToParents) = before ++ parentId :: after ->
            findNodeById parentId (fold_left rewriteParent before nodes) = None ->
            fold_left rewriteParent [parentId] (fold_left rewriteParent before nodes)
            = fold_left rewriteParent before nodes
            /\ design.(sd_nodes)
               = fold_left rewriteParent after (fold_left rewriteParent before nodes)).
Proof.
  intros name lastModified roots nodes s Hwalk.
  pose proof (walkRoots_wellFormed _ _ _ Hwalk) as (_ & _ & vp & Hvp & _ & Hrec).
  destruct (parseGlobalVars_total _ nodes _ Hvp Hrec) as (vars' & nodes' & Hpg).
  pose proof (parseGlobalVars_inv _ _ _ _ Hpg) as (vp' & c2p & vars1 & Hvp' & Hgroup & Hvars & Hnodes).
  rewrite Hvp in Hvp'. injection Hvp' as <-.
  exists vp, (mkSimplifiedDesign name lastModified nodes' vars'), c2p.
  split; [exact Hvp|]. split.
  { unfold simplifyRoots. now rewrite Hwalk, Hpg. }
  simpl. split.
  { subst vars'. rewrite obj_get_delete_other by discriminate. apply obj_get_set_same. }
  split; [exact Hnodes|]. split.
  - intros parentId data Hin.
    rewrite Forall_forall in Hrec. destruct (Hrec _ Hin) as (p & vid & Hentry & _).
    injection Hentry as -> ->. exists vid. split; [reflexivity|].
    apply (groupVectorParents_members _ _ _ _ _ Hgroup). right.
    eexists. split; [exact Hin | reflexivity].
  - intros parentId before after Hsplit Hmissing.
    pose proof (rewriteParent_missing _ _ Hmissing) as Hskip.
    split; [simpl; exact Hskip|].
    rewrite Hnodes, Hsplit, fold_left_app. simpl. now rewrite Hskip.
Qed.

(* ================================================================== *)
(** * The simplified object under construction *)
(* ================================================================== *)

Lemma setsOnly_one keys k v o : In k keys -> setsOnly keys o (obj_set k v o).
Proof. intros H. eapply sets_more; [exact H | constructor]. Qed.

Lemma setsOnly_trans keys o1 o2 o3 :
  setsOnly keys o1 o2 -> setsOnly keys o2 o3 -> setsOnly keys o1 o3.
Proof. induction 1; [auto | intros; eapply sets_more; eauto]. Qed.

Lemma setsOnly_incl keys keys' o o' :
  incl keys keys' -> setsOnly keys o o' -> setsOnly keys' o o'.
Proof. intros Hincl. induction 1; [constructor | eapply sets_more; eauto]. Qed.

Lemma setsOnly_get keys o o' k :
  setsOnly keys o o' -> ~ In k keys -> obj_get k o' = obj_get k o.
Proof.
  induction 1 as [|o k' v o' Hk' _ IH]; [reflexivity|].
  intros Hk. rewrite IH by assumption. apply obj_get_set_other. congruence.
Qed.

Lemma setsOnly_NoDup keys o o' :
  setsOnly keys o o' -> NoDup (obj_keys o) -> NoDup (obj_keys o').
Proof. induction 1; [auto | intros; auto using obj_set_NoDup]. Qed.

Ltac sets_only :=
  repeat match goal with
  | |- setsOnly _ ?o ?o => apply sets_none
  | |- setsOnly _ _ (obj_set _ _ _) => apply setsOnly_one; simpl; tauto
  end.

Lemma parseTextStyle_sets n simplified s x s' :
  parseTextStyle n simplified s = Ok (x, s') -> setsOnly ["textStyle"] simplified x.
Proof.
  unfold parseTextStyle.
  destruct (hasValue (rawField (n_style n)) None && negb (Object_keys_length (n_style n) =? 0));
    intros H; monad_inv H; sets_only.
Qed.

Lemma parsePaints_sets key paints simplified s x s' :
  parsePaints key paints simplified s = Ok (x, s') -> setsOnly [key] simplified x.
Proof.
  unfold parsePaints.
  cbv zeta. destruct (hasValue paints None && nonEmptyList (fieldOr [] paints));
    intros H; monad_inv H; sets_only.
Qed.

Lemma parseStyles_sets n simplified s x s' :
  parseStyles n simplified s = Ok (x, s') -> setsOnly ["styles"] simplified x.
Proof.
  unfold parseStyles.
  destruct (hasValue (rawField (n_styles n)) None); intros H; monad_inv H; sets_only.
Qed.

Lemma parseLayout_sets n parent simplified s x s' :
  parseLayout n parent simplified s = Ok (x, s') -> setsOnly ["layout"] simplified x.
Proof.
  unfold parseLayout.
  destruct (1 <? Object_keys_length (buildSimplifiedLayout n parent));
    intros H; monad_inv H; sets_only.
Qed.

Lemma parseStrokeWeights_sets n simplified s x s' :
  parseStrokeWeights n simplified s = Ok (x, s') ->
  setsOnly ["individualStrokeWeights"] simplified x.
Proof.
  unfold parseStrokeWeights.
  destruct (hasValue (n_individualStrokeWeights n) (Some isStrokeWeights));
    [destruct (n_individualStrokeWeights n)|];
    intros H; monad_inv H; sets_only.
Qed.

Lemma parseSimpleProps_sets n simplified :
  setsOnly ["text"; "strokeWeight"; "strokeDashes"] simplified (parseSimpleProps n simplified).
Proof.
  unfold parseSimpleProps.
  eapply setsOnly_trans; [eapply setsOnly_trans|].
  - instantiate (1 := if hasValue (n_characters n) (Some isTruthy)
                      then match n_characters n with
                           | Some text => obj_set "text" (JStr text) simplified
                           | None => simplified
                           end
                      else simplified).
    destruct (hasValue (n_characters n) (Some isTruthy)); [destruct (n_characters n)|];
      sets_only.
  - match goal with
    | |- setsOnly _ ?o _ =>
        instantiate (1 := if hasValue (n_strokeWeight n) None && strokesLength o
                          then match n_strokeWeight n with
                               | Some w => obj_set "strokeWeight" (JNum w) o
                               | None => o
                               end
                          else o)
    end.
    match goal with
    | |- setsOnly _ ?o _ =>
        destruct (hasValue (n_strokeWeight n) None && strokesLength o);
          [destruct (n_strokeWeight n)|]; sets_only
    end.
  - cbv zeta.
    destruct (hasValue (n_strokeDashes n) None && nonEmptyList (fieldOr [] (n_strokeDashes n)));
      sets_only.
Qed.

Lemma parseOpacityRadius_sets n simplified :
  setsOnly ["opacity"; "borderRadius"] simplified (parseOpacityRadius n simplified).
Proof.
  unfold parseOpacityRadius.
  eapply setsOnly_trans.
  - instantiate (1 := if hasValue (n_opacity n) None
                      then match n_opacity n with
                           | Some o => obj_set "opacity" (JNum o) simplified
                           | None => simplified
                           end
                      else simplified).
    destruct (hasValue (n_opacity n) None); [destruct (n_opacity n)|]; sets_only.
  - destruct (hasValue (n_cornerRadius n) None); [destruct (n_cornerRadius n)|]; sets_only.
Qed.

Lemma parseOwnFields_inv n parent s simplified s' :
  parseOwnFields n parent s = Ok (simplified, s') ->
  exists simplified1 s1,
    parseTextStyle n [("id", JStr n.(n_id)); ("type", JStr n.(n_type))] s
      = Ok (simplified1, s1)
    /\ setsOnly laterFieldKeys simplified1 simplified.
Proof.
  unfold parseOwnFields. intros H. monad_inv H.
  exists x, s0. split; [assumption|].
  repeat match goal with
  | Hs : parsePaints _ _ _ _ = Ok _ |- _ => apply parsePaints_sets in Hs
  | Hs : parseStyles _ _ _ = Ok _ |- _ => apply parseStyles_sets in Hs
  | Hs : parseLayout _ _ _ _ = Ok _ |- _ => apply parseLayout_sets in Hs
  | Hs : parseStrokeWeights _ _ _ = Ok _ |- _ => apply parseStrokeWeights_sets in Hs
  end.
  repeat (eapply setsOnly_trans;
          [eapply setsOnly_incl; [|eassumption]; intros k Hk; simpl in *; tauto|]).
  eapply setsOnly_trans;
    [eapply setsOnly_incl; [|apply parseSimpleProps_sets]; intros k Hk; simpl in *; tauto|].
  eapply setsOnly_trans;
    [eapply setsOnly_incl; [|eassumption]; intros k Hk; simpl in *; tauto|].
  eapply setsOnly_incl; [|apply parseOpacityRadius_sets]. intros k Hk; simpl in *; tauto.
Qed.

Lemma parseOwnFields_shape n parent s simplified s' :
  parseOwnFields n parent s = Ok (simplified, s') ->
  NoDup (obj_keys simplified)
  /\ obj_get "id" simplified = Some (JStr n.(n_id))
  /\ obj_get "type" simplified = Some (JStr n.(n_type))
  /\ obj_get "children" simplified = None.
Proof.
  intros H. apply parseOwnFields_inv in H.
  destruct H as (simplified1 & s1 & Htext & Hlater).
  apply parseTextStyle_sets in Htext.
  assert (Hall : setsOnly ("textStyle" :: laterFieldKeys)
                   [("id", JStr n.(n_id)); ("type", JStr n.(n_type))] simplified).
  { eapply setsOnly_trans; (eapply setsOnly_incl; [|eassumption]);
      intros k Hk; simpl in *; tauto. }
  repeat split.
  - eapply setsOnly_NoDup; [exact Hall|]. simpl.
    repeat constructor; simpl; intuition discriminate.
  - rewrite (setsOnly_get _ _ _ "id" Hall); [reflexivity|].
    simpl. intuition discriminate.
  - rewrite (setsOnly_get _ _ _ "type" Hall); [reflexivity|].
    simpl. intuition discriminate.
  - rewrite (setsOnly_get _ _ _ "children" Hall); [reflexivity|].
    simpl. intuition discriminate.
Qed.

Lemma parseOwnFields_no_proto n parent s simplified s' :
  parseOwnFields n parent s = Ok (simplified, s') ->
  obj_get "__proto__" simplified = None.
Proof.
  intros H. apply parseOwnFields_inv in H.
  destruct H as (simplified1 & s1 & Htext & Hlater).
  apply parseTextStyle_sets in Htext.
  assert (Hall : setsOnly ("textStyle" :: laterFieldKeys)
                   [("id", JStr n.(n_id)); ("type", JStr n.(n_type))] simplified).
  { eapply setsOnly_trans; (eapply setsOnly_incl; [|eassumption]);
      intros k Hk; simpl in *; tauto. }
  rewrite (setsOnly_get _ _ _ "__proto__" Hall); [reflexivity|].
  simpl. intuition discriminate.
Qed.

(** Lookup in a pruned object. *)
Lemma obj_get_cleanProps clean props k :
  NoDup (obj_keys props) ->
  obj_get k (cleanProps clean props) =
  match obj_get k props with
  | Some v => if keepCleaned (clean v) && createsOwnProperty k then Some (clean v) else None
  | None => None
  end.
Proof.
  induction props as [|[k' v] rest IH]; simpl; [reflexivity|].
  intros Hnd. inversion Hnd as [|? ? Hnot Hnd']; subst.
  destruct (String.eqb_spec k' k) as [->|Hne].
  - destruct (keepCleaned (clean v) && createsOwnProperty k) eqn:E; simpl.
    + now rewrite String.eqb_refl.
    + rewrite IH by assumption.
      apply obj_get_None in Hnot. now rewrite Hnot.
  - destruct (keepCleaned (clean v) && createsOwnProperty k'); simpl.
    + destruct (String.eqb_spec k' k); [congruence | auto].
    + auto.
Qed.

Lemma inChildren_get {B} (k : list JValue -> option B) props :
  inChildren k props =
  match obj_get "children" props with
  | Some (JArr items) => k items
  | _ => None
  end.
Proof.
  induction props as [|[key v] rest IH]; simpl; [reflexivity|].
  destruct (String.eqb key "children"); [now destruct v | exact IH].
Qed.

(* ================================================================== *)
(** * The invisibility filter (C2) *)
(* ================================================================== *)

Lemma visibleTree_unfold n :
  visibleTree n =
  if isInvisible n then None
  else Some (IdNode n.(n_id) (filterNonNull (map visibleTree n.(n_children)))).
Proof. destruct n; reflexivity. Qed.

Lemma filterNonNull_map_filterNonNull {A B} (f : A -> option B) (rs : list (option A)) :
  filterNonNull (map f (filterNonNull rs)) =
  filterNonNull (map (fun r => match r with Some x => f x | None => None end) rs).
Proof.
  induction rs as [|[x|] rest IH]; simpl; [reflexivity | | exact IH].
  destruct (f x); simpl; now rewrite IH.
Qed.

Lemma parseNode_invisible n parent s :
  isInvisible n = true -> parseNode n parent s = Ok (None, s).
Proof. intros H. rewrite parseNode_unfold, H. reflexivity. Qed.

Lemma parseNode_visible_inv n parent s result s' :
  isInvisible n = false ->
  parseNode n parent s = Ok (result, s') ->
  exists simplified0 s0 children s1 simplified,
    parseOwnFields n parent s = Ok (simplified0, s0)
    /\ mapM (fun child => parseNode child (Some n)) n.(n_children) s0 = Ok (children, s1)
    /\ simplified = attachChildren children simplified0
    /\ (if String.eqb n.(n_type) "VECTOR"
        then registerVector parent simplified s1 = Ok (tt, s')
        else s' = s1)
    /\ result = Some (removeEmptyKeys (JObj simplified)).
Proof.
  intros Hvis H. rewrite parseNode_unfold, Hvis in H.
  apply bind_Ok in H. destruct H as (simplified0 & s0 & Hown & H).
  apply bind_Ok in H. destruct H as (simplified & s1 & Hchildren & H).
  apply bind_Ok in H. destruct H as ([] & s2 & Hvector & H).
  apply ret_Ok in H. destruct H as [-> ->].
  assert (Hc : exists children,
             mapM (fun child => parseNode child (Some n)) (n_children n) s0 = Ok (children, s1)
             /\ simplified = attachChildren children simplified0).
  { destruct (n_children n) as [|c cs].
    - apply ret_Ok in Hchildren. destruct Hchildren as [-> ->]. exists []. auto.
    - change (nonEmptyList (c :: cs)) with true in Hchildren. cbv iota in Hchildren.
      apply bind_Ok in Hchildren. destruct Hchildren as (children & s3 & Hm & Hr).
      apply ret_Ok in Hr. destruct Hr as [-> ->]. exists children. auto. }
  destruct Hc as (children & Hm & ->).
  exists simplified0, s0, children, s1, (attachChildren children simplified0).
  repeat split; auto.
  destruct (String.eqb (n_type n) "VECTOR"); [assumption|].
  apply ret_Ok in Hvector. now destruct Hvector.
Qed.

Lemma parseNode_result_pruned n parent s node s' :
  parseNode n parent s = Ok (Some node, s') -> removeEmptyKeys node = node.
Proof.
  intros H. destruct (isInvisible n) eqn:Hvis.
  - rewrite (parseNode_invisible _ _ _ Hvis) in H. discriminate.
  - apply (parseNode_visible_inv _ _ _ _ _ Hvis) in H.
    destruct H as (? & ? & ? & ? & ? & _ & _ & _ & _ & Hres).
    injection Hres as ->. apply (removeEmptyKeys_idem (JObj _)).
Qed.

Lemma mapM_parseNode_pruned parent children s results s' :
  mapM (fun child => parseNode child parent) children s = Ok (results, s') ->
  map removeEmptyKeys (filterNonNull results) = filterNonNull results.
Proof.
  revert s results. induction children as [|c cs IH]; intros s results H.
  - simpl in H. monad_inv H. reflexivity.
  - apply mapM_Ok_cons in H. destruct H as (y & s1 & ys & Hc & Hcs & ->).
    destruct y as [node|]; simpl; [|eauto].
    rewrite (parseNode_result_pruned _ _ _ _ _ Hc). f_equal. eauto.
Qed.

Lemma mapM_parseNode_trees parent children :
  Forall (fun c => forall p s r s', parseNode c p s = Ok (r, s') ->
                                    resultTree r = visibleTree c) children ->
  forall s results s',
    mapM (fun child => parseNode child parent) children s = Ok (results, s') ->
    filterNonNull (map outputTree (filterNonNull results))
    = filterNonNull (map visibleTree children).
Proof.
  intros Hall s results s' H. rewrite filterNonNull_map_filterNonNull.
  revert s results H. induction Hall as [|c cs Hc _ IH]; intros s results H.
  - simpl in H. monad_inv H. reflexivity.
  - apply mapM_Ok_cons in H. destruct H as (y & s1 & ys & Hy & Hys & ->).
    simpl. apply Hc in Hy. unfold resultTree in Hy. rewrite Hy.
    destruct (visibleTree c); simpl; [f_equal|]; eauto.
Qed.

(** The walk keeps the skeleton of the visible part of the tree. *)
Lemma parseNode_tree n :
  forall parent s result s',
    parseNode n parent s = Ok (result, s') -> resultTree result = visibleTree n.
Proof.
  induction n as [n IH] using RawNode_children_ind.
  intros parent s result s' H. rewrite visibleTree_unfold.
  destruct (isInvisible n) eqn:Hvis.
  - rewrite (parseNode_invisible _ _ _ Hvis) in H. now injection H as <- _.
  - apply (parseNode_visible_inv _ _ _ _ _ Hvis) in H.
    destruct H as (simplified0 & s0 & children & s1 & simplified
                   & Hown & Hchildren & -> & _ & ->).
    apply parseOwnFields_shape in Hown. destruct Hown as (Hnd & Hid & _ & Hnone).
    pose proof (mapM_parseNode_trees _ _ IH _ _ _ Hchildren) as Htrees.
    pose proof (mapM_parseNode_pruned _ _ _ _ _ Hchildren) as Hpruned.
    unfold resultTree, attachChildren. simpl.
    destruct (filterNonNull children) as [|c cs] eqn:Ecs; simpl.
    + rewrite obj_get_cleanProps, Hid by assumption. simpl.
      rewrite inChildren_get, obj_get_cleanProps, Hnone by assumption.
      now rewrite <- Htrees.
    + assert (Hnd' : NoDup (obj_keys (obj_set "children" (JArr (c :: cs)) simplified0)))
        by now apply obj_set_NoDup.
      rewrite obj_get_cleanProps by assumption.
      rewrite obj_get_set_other, Hid by discriminate. simpl.
      rewrite inChildren_get, obj_get_cleanProps by assumption.
      rewrite obj_get_set_same. simpl.
      simpl in Hpruned. injection Hpruned as -> ->.
      now rewrite <- Htrees.
Qed.

Lemma outputIds_cons node nodes :
  outputIds (node :: nodes) = optTreeIds (outputTree node) ++ outputIds nodes.
Proof. unfold outputIds. simpl. now destruct (outputTree node). Qed.

Lemma rewriteChildren_children k props props' :
  rewriteChildren k props = Some props' ->
  exists items items',
    obj_get "children" props = Some (JArr items)
    /\ k items = Some items'
    /\ obj_get "children" props' = Some (JArr items').
Proof.
  revert props'. induction props as [|[key v] rest IH]; simpl; intros props'; [discriminate|].
  destruct (String.eqb key "children") eqn:Ekey.
  - destruct v as [| | | | |items|]; try discriminate.
    destruct (k items) as [items'|] eqn:Ek; [|discriminate].
    intros [= <-]. exists items, items'. simpl. rewrite Ekey. auto.
  - destruct (rewriteChildren k rest) as [rest'|]; [|discriminate].
    intros [= <-]. destruct (IH rest' eq_refl) as (items & items' & H1 & H2 & H3).
    exists items, items'. simpl. rewrite Ekey. auto.
Qed.

Lemma shrinks_list id nodes :
  Forall (shrinks id) nodes ->
  forall nodes', rewriteFirst (rewriteInNode id) nodes = Some nodes' ->
                 incl (outputIds nodes') (outputIds nodes).
Proof.
  induction 1 as [|node rest [Hnode _] _ IH]; simpl; intros nodes'; [discriminate|].
  destruct (rewriteInNode id node) as [node'|] eqn:E.
  - intros [= <-]. rewrite !outputIds_cons.
    apply incl_app; [apply incl_appl; auto | apply incl_appr, incl_refl].
  - destruct (rewriteFirst (rewriteInNode id) rest) as [rest'|]; [|discriminate].
    intros [= <-]. rewrite !outputIds_cons.
    apply incl_app; [apply incl_appl, incl_refl | apply incl_appr; auto].
Qed.

Lemma shrinks_all id v : shrinks id v.
Proof.
  induction v as [| | b | q | s | items IH | props IH] using JValue_nested_ind;
    try (split; [discriminate | exact I]).
  - split; [discriminate|]. now apply shrinks_list.
  - split; [|exact I]. intros v'. simpl. destruct (hasId id props) eqn:Eid.
    + intros [= <-]. simpl. rewrite (hasId_true _ _ Eid). simpl.
      intros k [<- | []]. now left.
    + destruct (rewriteChildren (rewriteFirst (rewriteInNode id)) props) as [props'|] eqn:E;
        [|discriminate].
      intros [= <-]. simpl.
      rewrite (rewriteChildren_id _ _ _ E).
      destruct (obj_get "id" props) as [[| | | |i| |]|]; try apply incl_refl.
      destruct (rewriteChildren_children _ _ _ E) as (items & items' & Hc & Hk & Hc').
      rewrite !inChildren_get, Hc, Hc'. simpl.
      apply incl_cons; [now left|]. apply incl_tl.
      rewrite Forall_forall in IH.
      destruct (IH _ (obj_get_In _ _ _ Hc)) as [_ Hitems]. now apply Hitems.
Qed.

Lemma rewriteParent_ids nodes parentId :
  incl (outputIds (rewriteParent nodes parentId)) (outputIds nodes).
Proof.
  unfold rewriteParent.
  destruct (rewriteFirst (rewriteInNode parentId) nodes) as [nodes'|] eqn:E;
    [|apply incl_refl].
  eapply shrinks_list; [|exact E].
  apply Forall_forall. intros x _. apply shrinks_all.
Qed.

Lemma fold_rewriteParent_ids parentIds nodes :
  incl (outputIds (fold_left rewriteParent parentIds nodes)) (outputIds nodes).
Proof.
  revert nodes. induction parentIds as [|p rest IH]; intros nodes; simpl; [apply incl_refl|].
  eapply incl_tran; [apply IH | apply rewriteParent_ids].
Qed.

Lemma bucketOf_find value id s s' :
  findOrCreateVar value s = Ok (id, s') -> bucketOf s' = bucketOf s.
Proof.
  intros H. apply findOrCreateVar_inv in H. destruct H as [w E Hne -> | Hnone -> ->];
    [reflexivity|].
  unfold bucketOf. simpl. rewrite obj_get_set_other; [reflexivity | discriminate].
Qed.

Lemma bucketOf_record p vectorId s s' :
  recordVectorParent p vectorId s = Ok (tt, s') ->
  bucketOf s' = obj_set p.(n_id) (vectorParentRecord p vectorId) (bucketOf s).
Proof.
  intros H. apply recordVectorParent_inv in H. destruct H as (vp & Hvp & _ & ->).
  unfold bucketOf. simpl. now rewrite obj_get_set_same, Hvp.
Qed.

Lemma parseNode_bucket_keys n parent s result s' :
  parseNode n parent s = Ok (result, s') -> bucketKeysWithin (recordKeys n parent) s s'.
Proof.
  apply (parseNode_preserves_keys bucketKeysWithin); unfold bucketKeysWithin.
  - intros keys s0. apply incl_appl, incl_refl.
  - intros keys s1 s2 s3 H12 H23 k Hk. apply H23 in Hk. apply in_app_or in Hk.
    destruct Hk as [Hk | Hk]; [auto | apply in_or_app; now right].
  - intros keys keys' s0 s1 Hincl H k Hk. apply H in Hk. apply in_app_or in Hk.
    apply in_or_app. destruct Hk; auto.
  - intros keys value id s0 s1 H. rewrite (bucketOf_find _ _ _ _ H).
    apply incl_appl, incl_refl.
  - intros p simplified s0 s1 H. apply registerVector_inv in H.
    destruct H as (vid & s2 & Hfind & H). apply bucketOf_find in Hfind.
    destruct p as [p|]; [|subst; rewrite Hfind; apply incl_appl, incl_refl].
    rewrite (bucketOf_record _ _ _ _ H), Hfind. intros k Hk.
    apply obj_keys_set_In in Hk. apply in_or_app. simpl. destruct Hk; auto.
Qed.

Lemma recordKeys_visible n :
  forall parent k,
    In k (recordKeys n parent) ->
    (exists p, parent = Some p /\ k = p.(n_id)) \/ In k (optTreeIds (visibleTree n)).
Proof.
  induction n as [n IH] using RawNode_children_ind.
  intros parent k. rewrite recordKeys_unfold, visibleTree_unfold.
  destruct (isInvisible n); [intros []|].
  intros Hk. apply in_app_or in Hk. destruct Hk as [Hk | Hk].
  - right. simpl. apply in_flat_map in Hk. destruct Hk as (c & Hc & Hk).
    rewrite Forall_forall in IH. destruct (IH c Hc _ _ Hk) as [(p & [= <-] & ->) | Hin].
    + now left.
    + right. apply in_flat_map.
      destruct (visibleTree c) as [t|] eqn:Et; [|destruct Hin].
      exists t. split; [|exact Hin].
      clear -Hc Et. induction (n_children n) as [|c' cs IHcs]; [destruct Hc|].
      simpl. destruct Hc as [-> | Hc].
      * rewrite Et. now left.
      * destruct (visibleTree c'); [right|]; auto.
  - destruct (String.eqb (n_type n) "VECTOR"); [|destruct Hk].
    destruct parent as [p|]; [|destruct Hk]. destruct Hk as [<- | []].
    left. now exists p.
Qed.

Lemma walkRoots_bucket_visible roots nodes s :
  walkRoots roots = Ok (nodes, s) ->
  incl (obj_keys (bucketOf s)) (visibleIds roots).
Proof.
  unfold walkRoots.
  destruct (mapM (fun n => parseNode n None) roots initialStore) as [[parsed s1]|e] eqn:E;
    [|discriminate].
  intros [= _ <-].
  assert (H : forall s0 parsed0 s2,
             mapM (fun n => parseNode n None) roots s0 = Ok (parsed0, s2) ->
             incl (obj_keys (bucketOf s2)) (obj_keys (bucketOf s0) ++ visibleIds roots)).
  { clear. induction roots as [|n rest IH]; intros s0 parsed0 s2 H.
    - simpl in H. monad_inv H. apply incl_appl, incl_refl.
    - apply mapM_Ok_cons in H. destruct H as (y & s1 & ys & Hn & Hrest & _).
      apply parseNode_bucket_keys in Hn. apply IH in Hrest.
      intros k Hk. apply Hrest in Hk. apply in_app_or in Hk.
      unfold visibleIds. simpl.
      destruct Hk as [Hk | Hk].
      + apply Hn in Hk. apply in_app_or in Hk. destruct Hk as [Hk | Hk];
          [apply in_or_app; now left|].
        apply recordKeys_visible in Hk. destruct Hk as [(p & [=] & _) | Hk].
        apply in_or_app. right.
        destruct (visibleTree n); [|destruct Hk]. simpl. apply in_or_app. now left.
      + apply in_or_app. right.
        destruct (visibleTree n); [|exact Hk]. simpl. apply in_or_app. now right. }
  apply H in E. exact E.
Qed.

Lemma walkRoots_trees roots nodes s :
  walkRoots roots = Ok (nodes, s) ->
  filterNonNull (map outputTree nodes) = filterNonNull (map visibleTree roots).
Proof.
  unfold walkRoots.
  destruct (mapM (fun n => parseNode n None) roots initialStore) as [[parsed s1]|e] eqn:E;
    [|discriminate].
  intros [= <- _]. eapply mapM_parseNode_trees; [|exact E].
  apply Forall_forall. intros c _. intros p s0 r s'. apply parseNode_tree.
Qed.

(** C2. A node with [visible === false] makes [parseNode] return null and
    leaves the store untouched; the tree the walk returns has exactly the
    identifiers and the nesting of the raw tree without its invisible nodes
    and what lies below them, so an invisible child is missing from its
    parent's children; and in the final result every node identifier and
    every parent listed in [childrenToParents] is the identifier of a node
    the walk reached through visible nodes only. *)
Theorem invisible_nodes_pruned :
  (forall n parent s, n.(n_visible) = Some false -> parseNode n parent s = Ok (None, s))
  /\ (forall n parent s result s',
        parseNode n parent s = Ok (result, s') -> resultTree result = visibleTree n)
  /\ (forall n before child after,
        isInvisible n = false -> isInvisible child = true ->
        n.(n_children) = before ++ child :: after ->
        visibleTree n
        = Some (IdNode n.(n_id) (filterNonNull (map visibleTree (before ++ after)))))
  /\ (forall name lastModified roots design,
        simplifyRoots name lastModified roots = Ok design ->
        incl (outputIds design.(sd_nodes)) (visibleIds roots)
        /\ exists childrenToParents,
             obj_get "childrenToParents" design.(sd_globalVars)
             = Some (childrenToParents_toJ childrenToParents)
             /\ forall childrenId parentId,
                  In parentId (groupOf childrenId childrenToParents) ->
                  In parentId (visibleIds roots)).
Proof.
  split.
  { intros n parent s Hvis. apply parseNode_invisible. unfold isInvisible. now rewrite Hvis. }
  split; [intros; eapply parseNode_tree; eauto|].
  split.
  { intros n before child after Hn Hchild Hsplit.
    rewrite visibleTree_unfold, Hn, Hsplit. do 2 f_equal.
    rewrite !map_app. simpl. rewrite (visibleTree_unfold child), Hchild.
    clear. induction (map visibleTree before) as [|[t|] l IH]; simpl; [reflexivity| |exact IH].
    now rewrite IH. }
  intros name lastModified roots design Hrun.
  unfold simplifyRoots in Hrun.
  destruct (walkRoots roots) as [[nodes s]|e] eqn:Hwalk; [|discriminate].
  destruct (parseGlobalVars (globalVars s) nodes) as [[vars' nodes']|e] eqn:Hpg; [|discriminate].
  injection Hrun as <-. simpl.
  apply parseGlobalVars_inv in Hpg.
  destruct Hpg as (vp & c2p & vars1 & Hvp & Hgroup & -> & ->).
  split.
  - eapply incl_tran; [apply fold_rewriteParent_ids|].
    unfold outputIds, visibleIds. rewrite (walkRoots_trees _ _ _ Hwalk). apply incl_refl.
  - exists c2p. split.
    + rewrite obj_get_delete_other by discriminate. apply obj_get_set_same.
    + intros cid pid Hin.
      apply (groupVectorParents_members _ _ _ _ _ Hgroup) in Hin.
      destruct Hin as [[] | (data & Hin & _)].
      apply (walkRoots_bucket_visible _ _ _ Hwalk).
      unfold bucketOf. rewrite Hvp. now apply (in_map fst) in Hin.
Qed.

(* ================================================================== *)
(** * Unknown paint types (C6) *)
(* ================================================================== *)

Lemma mapR_fails {A B} (f : A -> Result B) before x after e :
  f x = Err e -> exists e', mapR f (before ++ x :: after) = Err e'.
Proof.
  intros Hx. induction before as [|y rest IH]; simpl.
  - rewrite Hx. eauto.
  - destruct (f y); [|eauto]. destruct IH as [e' ->]. eauto.
Qed.

Lemma mapR_fails_first {A B} (f : A -> Result B) before x after e ys :
  mapR f before = Ok ys -> f x = Err e -> mapR f (before ++ x :: after) = Err e.
Proof.
  intros Hbefore Hx. revert ys Hbefore. induction before as [|y rest IH]; simpl; intros ys.
  - now rewrite Hx.
  - destruct (f y); [|discriminate].
    destruct (mapR f rest) as [ys'|] eqn:E; [|discriminate].
    intros _. now rewrite (IH ys' eq_refl).
Qed.

Lemma mapM_fails {A B} (f : A -> M B) xs x :
  In x xs -> (forall s, exists e, f x s = Err e) ->
  forall s, exists e, mapM f xs s = Err e.
Proof.
  intros Hin Hx. induction xs as [|y rest IH]; [destruct Hin|].
  intros s. simpl. unfold bind at 1.
  destruct (f y s) as [[z s1]|e] eqn:E; [|eauto].
  destruct Hin as [-> | Hin].
  - destruct (Hx s) as [e He]. congruence.
  - destruct (IH Hin s1) as [e He]. unfold bind. rewrite He. eauto.
Qed.

Lemma parseTextStyle_total n simplified s :
  exists x s', parseTextStyle n simplified s = Ok (x, s').
Proof.
  unfold parseTextStyle.
  destruct (hasValue (rawField (n_style n)) None && negb (Object_keys_length (n_style n) =? 0));
    [|unfold ret; eauto].
  destruct (findOrCreateVar_total (textStyleOf (n_style n)) s) as (id & s' & H).
  unfold bind. rewrite H. unfold ret. eauto.
Qed.

Lemma parseStyles_total n simplified s :
  exists x s', parseStyles n simplified s = Ok (x, s').
Proof.
  unfold parseStyles. destruct (hasValue (rawField (n_styles n)) None); [|unfold ret; eauto].
  destruct (findOrCreateVar_total (n_styles n) s) as (id & s' & H).
  unfold bind. rewrite H. unfold ret. eauto.
Qed.

Lemma parsePaints_fails key raws simplified s e :
  mapR parsePaint raws = Err e -> parsePaints key (Some raws) simplified s = Err e.
Proof.
  intros H. unfold parsePaints. simpl.
  destruct raws as [|raw rest]; [discriminate|].
  change (nonEmptyList (raw :: rest)) with true. cbv iota.
  unfold bind, lift. now rewrite H.
Qed.

Lemma parseOwnFields_fills_fail n parent s raws e :
  n.(n_fills) = Some raws -> mapR parsePaint raws = Err e ->
  parseOwnFields n parent s = Err e.
Proof.
  intros Hfills Hfail. unfold parseOwnFields.
  destruct (parseTextStyle_total n [("id", JStr (n_id n)); ("type", JStr (n_type n))] s)
    as (x & s1 & Htext).
  rewrite (bind_step _ _ _ _ _ Htext). apply bind_Err.
  rewrite Hfills. now apply parsePaints_fails.
Qed.

Lemma parseOwnFields_strokes_fail n parent s raws e :
  n.(n_strokes) = Some raws -> mapR parsePaint raws = Err e ->
  exists e', parseOwnFields n parent s = Err e'.
Proof.
  intros Hstrokes Hfail. unfold parseOwnFields.
  destruct (parseTextStyle_total n [("id", JStr (n_id n)); ("type", JStr (n_type n))] s)
    as (x & s1 & Htext).
  rewrite (bind_step _ _ _ _ _ Htext).
  destruct (parsePaints "fills" (n_fills n) x s1) as [[x2 s2]|e2] eqn:Efills;
    [|exists e2; now apply bind_Err].
  rewrite (bind_step _ _ _ _ _ Efills).
  destruct (parseStyles_total n x2 s2) as (x3 & s3 & Hstyles).
  rewrite (bind_step _ _ _ _ _ Hstyles).
  exists e. apply bind_Err. rewrite Hstrokes. now apply parsePaints_fails.
Qed.

Lemma parseNode_own_fail n parent s e :
  isInvisible n = false -> parseOwnFields n parent s = Err e -> parseNode n parent s = Err e.
Proof.
  intros Hvis H. rewrite parseNode_unfold, Hvis. now apply bind_Err.
Qed.

Lemma parseNode_child_fail n parent s child :
  isInvisible n = false -> In child n.(n_children) ->
  (forall s0, exists e, parseNode child (Some n) s0 = Err e) ->
  exists e, parseNode n parent s = Err e.
Proof.
  intros Hvis Hin Hchild. rewrite parseNode_unfold, Hvis.
  unfold bind at 1.
  destruct (parseOwnFields n parent s) as [[simplified s0]|e] eqn:Eown; [|eauto].
  destruct (mapM_fails (fun c => parseNode c (Some n)) _ _ Hin Hchild s0) as [e He].
  exists e. apply bind_Err.
  destruct (n_children n) as [|c cs]; [destruct Hin|].
  change (nonEmptyList (c :: cs)) with true. cbv iota. now apply bind_Err.
Qed.

Lemma knownPaintType_false t :
  knownPaintType t = false ->
  String.eqb t "IMAGE" = false /\ String.eqb t "SOLID" = false
  /\ includes gradientTypes t = false.
Proof.
  unfold knownPaintType, includes. cbn [existsb]. intros H.
  apply orb_false_elim in H. destruct H as [H1 H].
  apply orb_false_elim in H. destruct H as [H2 H].
  rewrite String.eqb_sym in H1. rewrite String.eqb_sym in H2. auto.
Qed.

(** C6. A paint whose type is none of IMAGE, SOLID and the four gradient
    kinds makes [parsePaint] throw the unknown-paint-type error; the list
    that holds it is not normalized at all (the error is this one when the
    paints before it are fine); the walk of a visible node with such a fill
    or stroke fails, and the failure travels through every visible ancestor
    to the caller of the entry point. *)
Theorem unknown_paint_type_aborts :
  forall raw : Paint,
    knownPaintType raw.(p_type) = false ->
    parsePaint raw = Err (UnknownPaintType raw.(p_type))
    /\ (forall before after,
          exists e, mapR parsePaint (before ++ raw :: after) = Err e)
    /\ (forall before after normalized,
          mapR parsePaint before = Ok normalized ->
          mapR parsePaint (before ++ raw :: after) = Err (UnknownPaintType raw.(p_type)))
    /\ (forall n parent s before after,
          isInvisible n = false ->
          n.(n_fills) = Some (before ++ raw :: after)
          \/ n.(n_strokes) = Some (before ++ raw :: after) ->
          exists e, parseNode n parent s = Err e)
    /\ (forall n parent s before after normalized,
          isInvisible n = false ->
          n.(n_fills) = Some (before ++ raw :: after) ->
          mapR parsePaint before = Ok normalized ->
          parseNode n parent s = Err (UnknownPaintType raw.(p_type)))
    /\ (forall n parent s child,
          isInvisible n = false -> In child n.(n_children) ->
          (forall s0, exists e, parseNode child (Some n) s0 = Err e) ->
          exists e, parseNode n parent s = Err e)
    /\ (forall name lastModified roots n,
          In n roots ->
          (forall s0, exists e, parseNode n None s0 = Err e) ->
          exists e, simplifyRoots name lastModified roots = Err e).
Proof.
  intros raw Hunknown.
  assert (Hraw : parsePaint raw = Err (UnknownPaintType (p_type raw))).
  { apply knownPaintType_false in Hunknown. destruct Hunknown as (H1 & H2 & H3).
    unfold parsePaint. now rewrite H1, H2, H3. }
  split; [exact Hraw|].
  split; [intros; eapply mapR_fails; eauto|].
  split; [intros; eapply mapR_fails_first; eauto|].
  split.
  { intros n parent s before after Hvis [Hfills | Hstrokes];
      destruct (mapR_fails parsePaint before raw after _ Hraw) as [e He].
    - exists e. apply parseNode_own_fail; [assumption|].
      eapply parseOwnFields_fills_fail; eauto.
    - destruct (parseOwnFields_strokes_fail n parent s _ _ Hstrokes He) as [e' He'].
      exists e'. now apply parseNode_own_fail. }
  split.
  { intros n parent s before after normalized Hvis Hfills Hbefore.
    apply parseNode_own_fail; [assumption|].
    eapply parseOwnFields_fills_fail; [exact Hfills|].
    eapply mapR_fails_first; eauto. }
  split; [intros; eapply parseNode_child_fail; eauto|].
  intros name lastModified roots n Hin Hfail.
  destruct (mapM_fails (fun n => parseNode n None) roots n Hin Hfail initialStore) as [e He].
  exists e. unfold simplifyRoots, walkRoots. now rewrite He.
Qed.

(* ================================================================== *)
(** * The text style record (C8) *)
(* ================================================================== *)

Lemma obj_get_stringifyMembers props k :
  NoDup (obj_keys props) ->
  obj_get k (stringifyMembers JSON_stringify props) =
  match obj_get k props with
  | Some v => JSON_stringify v
  | None => None
  end.
Proof.
  induction props as [|[k' v] rest IH]; simpl; [reflexivity|].
  intros Hnd. inversion Hnd as [|? ? Hnot Hnd']; subst.
  destruct (String.eqb_spec k' k) as [->|Hne].
  - destruct (JSON_stringify v) eqn:E; simpl.
    + now rewrite String.eqb_refl.
    + rewrite IH by assumption. apply obj_get_None in Hnot. now rewrite Hnot.
  - destruct (JSON_stringify v); simpl.
    + destruct (String.eqb_spec k' k); [congruence | auto].
    + auto.
Qed.

Lemma textStyleOf_member style k :
  textMember k (textStyleOf style) = JSON_stringify (jget k (textStyleOf style)).
Proof.
  unfold textMember, textStyleOf.
  cbn [JSON_stringify]. rewrite obj_get_stringifyMembers.
  - unfold jget. now destruct (obj_get k _).
  - simpl. repeat constructor; simpl; intuition discriminate.
Qed.

Lemma parseNode_textStyle n parent s node s' :
  isInvisible n = false -> carriesTextStyle n = true ->
  parseNode n parent s = Ok (Some node, s') ->
  exists id s1,
    findOrCreateVar (textStyleOf n.(n_style)) s = Ok (id, s1)
    /\ jget "textStyle" node = JStr id.
Proof.
  intros Hvis Hstyle H.
  apply (parseNode_visible_inv _ _ _ _ _ Hvis) in H.
  destruct H as (simplified0 & s0 & children & s2 & simplified
                 & Hown & _ & -> & _ & Hres).
  injection Hres as ->.
  pose proof (parseOwnFields_shape _ _ _ _ _ Hown) as (Hnd & _ & _ & _).
  apply parseOwnFields_inv in Hown. destruct Hown as (simplified1 & s1 & Htext & Hlater).
  unfold parseTextStyle in Htext. unfold carriesTextStyle in Hstyle. rewrite Hstyle in Htext.
  apply bind_Ok in Htext. destruct Htext as (id & s3 & Hfind & Hret).
  apply ret_Ok in Hret. destruct Hret as [-> ->].
  exists id, s3. split; [exact Hfind|].
  assert (Hget : obj_get "textStyle" simplified0 = Some (JStr id)).
  { rewrite (setsOnly_get _ _ _ "textStyle" Hlater); [reflexivity|].
    simpl. intuition discriminate. }
  assert (Hget' : obj_get "textStyle" (attachChildren children simplified0) = Some (JStr id)
                  /\ NoDup (obj_keys (attachChildren children simplified0))).
  { unfold attachChildren. destruct (nonEmptyList (filterNonNull children)); [|auto].
    split; [now rewrite obj_get_set_other by discriminate | now apply obj_set_NoDup]. }
  destruct Hget' as [Hget' Hnd'].
  simpl. now rewrite obj_get_cleanProps, Hget' by assumption.
Qed.

(** C8. The text style record takes its line height from [lineHeightPx] and,
    when that is undefined or null, from the font size; its letter spacing
    is the raw one when that is a non-zero number and undefined when it is
    zero or missing, so the serialized record has a [letterSpacing] member
    exactly in the first case; and a visible node with a non-empty [style]
    stores as [textStyle] the identifier under which this record is
    registered. *)
Theorem textStyle_defaults :
  forall style : JValue,
    jget "lineHeight" (textStyleOf style)
    = nullish_coalesce (jget "lineHeightPx" style) (jget "fontSize" style)
    /\ (jget "lineHeightPx" style = JUndefined ->
        jget "lineHeight" (textStyleOf style) = jget "fontSize" style
        /\ textMember "lineHeight" (textStyleOf style)
           = JSON_stringify (jget "fontSize" style))
    /\ (forall px, jget "lineHeightPx" style = JNum px ->
                   jget "lineHeight" (textStyleOf style) = JNum px)
    /\ (forall spacing,
          jget "letterSpacing" style = JNum spacing ->
          jget "letterSpacing" (textStyleOf style)
          = (if Qeq_bool spacing 0 then JUndefined else JNum spacing)
          /\ textMember "letterSpacing" (textStyleOf style)
             = (if Qeq_bool spacing 0 then None else Some (TNum (Qred spacing))))
    /\ (jget "letterSpacing" style = JUndefined ->
        textMember "letterSpacing" (textStyleOf style) = None)
    /\ (forall n parent s node s',
          n.(n_style) = style ->
          isInvisible n = false -> carriesTextStyle n = true ->
          parseNode n parent s = Ok (Some node, s') ->
          exists id s1 w,
            findOrCreateVar (textStyleOf style) s = Ok (id, s1)
            /\ jget "textStyle" node = JStr id
            /\ In (id, w) s1.(globalVars)
            /\ JSON_stringify w = JSON_stringify (textStyleOf style)).
Proof.
  intros style.
  split; [reflexivity|].
  split.
  { intros H. rewrite textStyleOf_member. simpl. now rewrite H. }
  split.
  { intros px H. simpl. now rewrite H. }
  split.
  { intros spacing H. rewrite textStyleOf_member. simpl. rewrite H. simpl.
    rewrite andb_diag. now destruct (Qeq_bool spacing 0). }
  split.
  { intros H. rewrite textStyleOf_member. simpl. now rewrite H. }
  intros n parent s node s' <- Hvis Hstyle H.
  destruct (parseNode_textStyle _ _ _ _ _ Hvis Hstyle H) as (id & s1 & Hfind & Hget).
  destruct (findOrCreateVar_bound _ _ _ _ Hfind) as (w & Hin & Hw).
  exists id, s1, w. auto.
Qed.

(* ================================================================== *)
(** * The steps of the pass over a node's own fields *)
(* ================================================================== *)

Lemma parseOwnFields_steps n parent s simplified s' :
  parseOwnFields n parent s = Ok (simplified, s') ->
  exists x1 s1 x2 s2 x3 s3 x4 s4 x5 s5 x6,
    parseTextStyle n [("id", JStr n.(n_id)); ("type", JStr n.(n_type))] s = Ok (x1, s1)
    /\ parsePaints "fills" n.(n_fills) x1 s1 = Ok (x2, s2)
    /\ parseStyles n x2 s2 = Ok (x3, s3)
    /\ parsePaints "strokes" n.(n_strokes) x3 s3 = Ok (x4, s4)
    /\ parseLayout n parent x4 s4 = Ok (x5, s5)
    /\ parseStrokeWeights n (parseSimpleProps n x5) s5 = Ok (x6, s')
    /\ simplified = parseOpacityRadius n x6.
Proof.
  unfold parseOwnFields. intros H.
  apply bind_Ok in H. destruct H as (x1 & s1 & H1 & H).
  apply bind_Ok in H. destruct H as (x2 & s2 & H2 & H).
  apply bind_Ok in H. destruct H as (x3 & s3 & H3 & H).
  apply bind_Ok in H. destruct H as (x4 & s4 & H4 & H).
  apply bind_Ok in H. destruct H as (x5 & s5 & H5 & H).
  apply bind_Ok in H. destruct H as (x6 & s6 & H6 & H).
  apply ret_Ok in H. destruct H as [-> ->].
  exists x1, s1, x2, s2, x3, s3, x4, s4, x5, s5, x6. auto 10.
Qed.

Lemma parsePaints_cases key paints x s x' s' :
  parsePaints key paints x s = Ok (x', s') ->
  match paints with
  | Some (raw :: rest) =>
      exists normalized id,
        mapR parsePaint (raw :: rest) = Ok normalized
        /\ findOrCreateVar (JArr normalized) s = Ok (id, s')
        /\ x' = obj_set key (JStr id) x
  | _ => x' = x /\ s' = s
  end.
Proof.
  unfold parsePaints. destruct paints as [[|raw rest]|]; cbv zeta; cbn [fieldOr hasValue].
  - intros H. apply ret_Ok in H. exact H.
  - change (true && nonEmptyList (raw :: rest)) with true. cbv iota.
    intros H. apply bind_Ok in H. destruct H as (normalized & s1 & Hn & H).
    apply lift_Ok in Hn. destruct Hn as [Hn ->].
    apply bind_Ok in H. destruct H as (id & s2 & Hf & H).
    apply ret_Ok in H. destruct H as [-> ->].
    exists normalized, id. auto.
  - intros H. apply ret_Ok in H. exact H.
Qed.

Lemma parseStyles_cases n x s x' s' :
  parseStyles n x s = Ok (x', s') ->
  if is_undefined n.(n_styles) || is_null n.(n_styles)
  then x' = x /\ s' = s
  else exists id, findOrCreateVar n.(n_styles) s = Ok (id, s')
                  /\ x' = obj_set "styles" (JStr id) x.
Proof.
  unfold parseStyles, rawField.
  destruct (is_undefined (n_styles n) || is_null (n_styles n)); cbn [hasValue]; intros H.
  - apply ret_Ok in H. exact H.
  - apply bind_Ok in H. destruct H as (id & s1 & Hf & H).
    apply ret_Ok in H. destruct H as [-> ->]. eauto.
Qed.

Lemma parseLayout_cases n parent x s x' s' :
  parseLayout n parent x s = Ok (x', s') ->
  if 1 <? Object_keys_length (buildSimplifiedLayout n parent)
  then exists id, findOrCreateVar (buildSimplifiedLayout n parent) s = Ok (id, s')
                  /\ x' = obj_set "layout" (JStr id) x
  else x' = x /\ s' = s.
Proof.
  unfold parseLayout. cbv zeta.
  destruct (1 <? Object_keys_length (buildSimplifiedLayout n parent)); intros H.
  - apply bind_Ok in H. destruct H as (id & s1 & Hf & H).
    apply ret_Ok in H. destruct H as [-> ->]. eauto.
  - apply ret_Ok in H. exact H.
Qed.

Lemma parseStrokeWeights_cases n x s x' s' :
  parseStrokeWeights n x s = Ok (x', s') ->
  match n.(n_individualStrokeWeights) with
  | Some w => exists id, findOrCreateVar (strokeWeightsOf w) s = Ok (id, s')
                         /\ x' = obj_set "individualStrokeWeights" (JStr id) x
  | None => x' = x /\ s' = s
  end.
Proof.
  unfold parseStrokeWeights.
  destruct (n_individualStrokeWeights n) as [w|]; cbn [hasValue isStrokeWeights]; intros H.
  - apply bind_Ok in H. destruct H as (id & s1 & Hf & H).
    apply ret_Ok in H. destruct H as [-> ->]. eauto.
  - apply ret_Ok in H. exact H.
Qed.

(* ================================================================== *)
(** * Vector parents: the record of the last child (C10) *)
(* ================================================================== *)

(** A run whose walk completes, taken apart. *)
Lemma run_grouping name lastModified roots nodes s :
  walkRoots roots = Ok (nodes, s) ->
  exists vectorParents childrenToParents vars1,
    obj_get "vectorParents" s.(globalVars) = Some (JObj vectorParents)
    /\ NoDup (obj_keys vectorParents)
    /\ Forall recordEntry vectorParents
    /\ groupVectorParents vectorParents [] s.(globalVars) = Ok (childrenToParents, vars1)
    /\ simplifyRoots name lastModified roots
       = Ok (mkSimplifiedDesign name lastModified
               (fold_left rewriteParent (List.concat (obj_values childrenToParents)) nodes)
               (obj_delete "vectorParents"
                  (obj_set "childrenToParents" (childrenToParents_toJ childrenToParents)
                     vars1)))
    /\ NoDup (obj_keys childrenToParents).
Proof.
  intros Hwalk.
  pose proof (walkRoots_wellFormed _ _ _ Hwalk) as (_ & _ & vp & Hvp & Hnd & Hrec).
  destruct (parseGlobalVars_total _ nodes _ Hvp Hrec) as (vars' & nodes' & Hpg).
  pose proof (parseGlobalVars_inv _ _ _ _ Hpg)
    as (vp' & c2p & vars1 & Hvp' & Hgroup & -> & ->).
  rewrite Hvp in Hvp'. injection Hvp' as <-.
  exists vp, c2p, vars1. repeat split; auto.
  - unfold simplifyRoots. now rewrite Hwalk, Hpg.
  - apply (groupVectorParents_keys _ _ _ _ _ Hgroup). constructor.
Qed.







(** ** Positions in the walk *)














(** ** The VECTOR block of a child *)


Lemma vectorRegistration_recorded v p sc payload sy vectorId sv :
  vectorRegistration v p sc payload sy vectorId sv ->
  obj_get p.(n_id) (bucketOf sv) = Some (vectorParentRecord p vectorId).
Proof.
  intros (own & sx & children & sz & result & _ & _ & _ & _ & Hrecord & _).
  rewrite (bucketOf_record _ _ _ _ Hrecord). apply obj_get_set_same.
Qed.



(* ================================================================== *)
(** * Vector grouping (C3) *)
(* ================================================================== *)


(** ** The payload of a VECTOR node *)










(** ** The order of two calls *)










(* ================================================================== *)
(** * Further properties: the pruner *)
(* ================================================================== *)

Lemma removeEmptyKeys_noEmptyMembers (x : JValue) :
  noEmptyMembers (removeEmptyKeys x) = true.
Proof.
  induction x as [| | b | q | s | items IH | props IH] using JValue_nested_ind;
    simpl; try reflexivity.
  - apply forallb_forall. intros y Hy. apply in_map_iff in Hy.
    destruct Hy as (x & <- & Hx). rewrite Forall_forall in IH. now apply IH.
  - induction IH as [|[k v] rest Hv _ IHrest]; simpl; [reflexivity|].
    simpl in Hv.
    destruct (keepCleaned (removeEmptyKeys v) && createsOwnProperty k) eqn:E; simpl;
      [|exact IHrest].
    rewrite keepCleaned_isEmptyValue in E. now rewrite E, Hv, IHrest.
Qed.

Lemma noEmptyMembers_fixpoint (x : JValue) :
  noEmptyMembers x = true -> removeEmptyKeys x = x.
Proof.
  induction x as [| | b | q | s | items IH | props IH] using JValue_nested_ind;
    simpl; try reflexivity; intros H.
  - f_equal. rewrite forallb_forall in H. rewrite Forall_forall in IH.
    rewrite <- (map_id items) at 2. apply map_ext_in. intros y Hy. apply IH; auto.
  - f_equal. induction IH as [|[k v] rest Hv _ IHrest]; simpl; [reflexivity|].
    simpl in H, Hv. apply andb_true_iff in H. destruct H as [Hkv Hrest].
    apply andb_true_iff in Hkv. destruct Hkv as [Hne Hno].
    rewrite (Hv Hno), keepCleaned_isEmptyValue, Hne. simpl. f_equal. now apply IHrest.
Qed.

(** X1. Whatever [removeEmptyKeys] returns holds, at no depth, an object
    member that is undefined, an empty array or an empty object, nor an own
    property named [__proto__]; and the values it returns with their own
    properties unchanged are exactly the values of that kind. *)
Theorem removeEmptyKeys_fixpoints :
  forall x : JValue,
    noEmptyMembers (removeEmptyKeys x) = true
    /\ (removeEmptyKeys x = x <-> noEmptyMembers x = true).
Proof.
  intros x. split; [apply removeEmptyKeys_noEmptyMembers|]. split.
  - intros H. rewrite <- H. apply removeEmptyKeys_noEmptyMembers.
  - apply noEmptyMembers_fixpoint.
Qed.

Lemma cleanProps_all_empty props :
  Forall (fun m => isEmptyValue (removeEmptyKeys (snd m)) = true) props ->
  cleanProps removeEmptyKeys props = [].
Proof.
  induction 1 as [|[k v] rest Hv _ IH]; simpl; [reflexivity|].
  simpl in Hv. now rewrite keepCleaned_isEmptyValue, Hv.
Qed.

Lemma cleanProps_no_proto clean props :
  obj_get "__proto__" (cleanProps clean props) = None.
Proof.
  apply obj_get_None. intros Hin. apply in_map_iff in Hin.
  destruct Hin as ([k v] & Hk & Hin). simpl in Hk. subst k.
  pose proof (cleanProps_kept clean props) as Hall. rewrite Forall_forall in Hall.
  destruct (Hall _ Hin) as [_ Hcreates]. discriminate Hcreates.
Qed.

(** X2. What the pruner does to one own property of an object, for a key
    other than [__proto__]: the property is dropped exactly when its pruned
    value is undefined, an empty array or an empty object.  So null,
    booleans, numbers (zero too) and strings (the empty one too) are kept as
    they are; a non-empty array is kept with all of its elements, each
    pruned, even when they are empty themselves; and an object all of whose
    members prune away is dropped with them.  The result never has an own
    property named [__proto__], whatever the input holds under that key. *)
Theorem removeEmptyKeys_member :
  forall (props : list (string * JValue)) (k : string) (v : JValue),
    NoDup (obj_keys props) ->
    obj_get k props = Some v ->
    k <> "__proto__" ->
    ownProperty k (removeEmptyKeys (JObj props))
    = (if isEmptyValue (removeEmptyKeys v) then None else Some (removeEmptyKeys v))
    /\ (typeof_object v = false /\ v <> JUndefined \/ v = JNull ->
        ownProperty k (removeEmptyKeys (JObj props)) = Some v)
    /\ (forall items,
          v = JArr items -> items <> [] ->
          ownProperty k (removeEmptyKeys (JObj props)) = Some (JArr (map removeEmptyKeys items)))
    /\ (forall members,
          v = JObj members ->
          Forall (fun m => isEmptyValue (removeEmptyKeys (snd m)) = true) members ->
          ownProperty k (removeEmptyKeys (JObj props)) = None)
    /\ ownProperty "__proto__" (removeEmptyKeys (JObj props)) = None.
Proof.
  intros props k v Hnd Hget Hproto.
  assert (Hk : ownProperty k (removeEmptyKeys (JObj props))
               = if isEmptyValue (removeEmptyKeys v) then None else Some (removeEmptyKeys v)).
  { simpl. rewrite (obj_get_cleanProps _ _ _ Hnd), Hget, keepCleaned_isEmptyValue.
    unfold createsOwnProperty. apply String.eqb_neq in Hproto. rewrite Hproto.
    now destruct (isEmptyValue (removeEmptyKeys v)). }
  split; [exact Hk|]. rewrite Hk. split; [|split; [|split]].
  - intros [[Hprim Hdef] | ->]; [|reflexivity].
    destruct v; try discriminate Hprim; try reflexivity. congruence.
  - intros items -> Hne. simpl. destruct items; [congruence | reflexivity].
  - intros members -> Hall. simpl. now rewrite (cleanProps_all_empty _ Hall).
  - simpl. apply cleanProps_no_proto.
Qed.

(* ================================================================== *)
(** * Further properties: colours *)
(* ================================================================== *)

Lemma toInt32_small z : (0 <= z < 2147483648)%Z -> toInt32 z = z.
Proof.
  intros H. unfold toInt32.
  change (2 ^ 32)%Z with 4294967296%Z. change (2 ^ 31)%Z with 2147483648%Z.
  rewrite Z.mod_small by lia.
  destruct (z >=? 2147483648)%Z eqn:E; [|reflexivity].
  rewrite Z.geb_leb in E. apply Z.leb_le in E. lia.
Qed.

Lemma shl_16 x : byteRange x -> shl x 16 = (x * 65536)%Z.
Proof.
  intros H. unfold byteRange in H. unfold shl.
  change (16 mod 32)%Z with 16%Z.
  rewrite (toInt32_small x) by lia.
  rewrite Z.shiftl_mul_pow2 by lia. change (2 ^ 16)%Z with 65536%Z.
  apply toInt32_small. lia.
Qed.

Lemma shl_8 x : byteRange x -> shl x 8 = (x * 256)%Z.
Proof.
  intros H. unfold byteRange in H. unfold shl.
  change (8 mod 32)%Z with 8%Z.
  rewrite (toInt32_small x) by lia.
  rewrite Z.shiftl_mul_pow2 by lia. change (2 ^ 8)%Z with 256%Z.
  apply toInt32_small. lia.
Qed.

Lemma hexDigits_step fuel m d acc :
  (0 < m)%Z -> (0 <= d < 16)%Z ->
  hexDigits (S fuel) (m * 16 + d) acc = hexDigits fuel m (String (hexDigit d) acc).
Proof.
  intros Hm Hd.
  assert (Hdiv : ((m * 16 + d) / 16 = m)%Z) by (symmetry; apply (Z.div_unique _ _ _ d); lia).
  assert (Hmod : ((m * 16 + d) mod 16 = d)%Z) by (symmetry; apply (Z.mod_unique _ _ m); lia).
  cbn [hexDigits]. rewrite Hdiv, Hmod.
  destruct (m =? 0)%Z eqn:E; [apply Z.eqb_eq in E; lia | reflexivity].
Qed.

(** The six digits [toString(16)] writes after the leading 1. *)
Lemma toString16_color x y z :
  byteRange x -> byteRange y -> byteRange z ->
  toString16 (shl 1 24 + shl x 16 + shl y 8 + z)
  = String "1"
      (String (hexDigit (x / 16)) (String (hexDigit (x mod 16))
      (String (hexDigit (y / 16)) (String (hexDigit (y mod 16))
      (String (hexDigit (z / 16)) (String (hexDigit (z mod 16)) EmptyString)))))).
Proof.
  intros Hx Hy Hz. rewrite (shl_16 x Hx), (shl_8 y Hy).
  change (shl 1 24) with 16777216%Z. unfold byteRange in *.
  set (n := (16777216 + x * 65536 + y * 256 + z)%Z).
  assert (Hlog : Z.log2 n = 24%Z).
  { apply Z.log2_unique; [lia|]. change (2 ^ 24)%Z with 16777216%Z.
    change (2 ^ Z.succ 24)%Z with 33554432%Z. subst n. lia. }
  unfold toString16. rewrite Hlog.
  replace (n <? 0)%Z with false by (symmetry; apply Z.ltb_ge; subst n; lia).
  change (S (Z.to_nat 24)) with 25.
  pose proof (Z.div_mod x 16 ltac:(lia)) as Ex.
  pose proof (Z.div_mod y 16 ltac:(lia)) as Ey.
  pose proof (Z.div_mod z 16 ltac:(lia)) as Ez.
  pose proof (Z.mod_pos_bound x 16 ltac:(lia)) as Bx.
  pose proof (Z.mod_pos_bound y 16 ltac:(lia)) as By.
  pose proof (Z.mod_pos_bound z 16 ltac:(lia)) as Bz.
  assert (Dx : (0 <= x / 16 < 16)%Z) by (split; [apply Z.div_pos; lia | apply Z.div_lt_upper_bound; lia]).
  assert (Dy : (0 <= y / 16 < 16)%Z) by (split; [apply Z.div_pos; lia | apply Z.div_lt_upper_bound; lia]).
  assert (Dz : (0 <= z / 16 < 16)%Z) by (split; [apply Z.div_pos; lia | apply Z.div_lt_upper_bound; lia]).
  replace n with
    ((((((1 * 16 + x / 16) * 16 + x mod 16) * 16 + y / 16) * 16 + y mod 16) * 16
      + z / 16) * 16 + z mod 16)%Z by (subst n; lia).
  do 6 (rewrite hexDigits_step by lia).
  reflexivity.
Qed.

Lemma Math_round_byte (c : Q) : unitRange c -> byteRange (Math_round (c * 255)).
Proof.
  intros [H0 H1]. split.
  - change 0%Z with (Math_round 0). apply Math_round_mono.
    setoid_replace 0%Q with (0 * 255)%Q by reflexivity.
    apply Qmult_le_compat_r; [exact H0 | discriminate].
  - change 255%Z with (Math_round 255). apply Math_round_mono.
    setoid_replace 255%Q with (1 * 255)%Q by reflexivity.
    apply Qmult_le_compat_r; [exact H1 | discriminate].
Qed.

Lemma convertColor_hex_bytes (color : RGBA) (o : option Q) :
  unitRange color.(r) -> unitRange color.(g) -> unitRange color.(b) ->
  hex (convertColor color o)
  = String "#"
      (String.append (hexByte (Math_round (color.(r) * 255)))
         (String.append (hexByte (Math_round (color.(g) * 255)))
            (hexByte (Math_round (color.(b) * 255))))).
Proof.
  intros Hr Hg Hb. unfold convertColor. cbn [hex].
  rewrite (toString16_color _ _ _ (Math_round_byte _ Hr) (Math_round_byte _ Hg)
             (Math_round_byte _ Hb)).
  reflexivity.
Qed.

(** X3. For a colour whose red, green and blue channels lie in [0,1],
    [convertColor] scales each channel to an integer from 0 to 255 and
    returns as [hex] a [#] followed by the two upper-case hexadecimal digits
    of each channel, red first: seven characters, whatever the alpha and the
    opacity are. *)
Theorem convertColor_hex_format :
  forall (color : RGBA) (o : option Q),
    unitRange color.(r) -> unitRange color.(g) -> unitRange color.(b) ->
    byteRange (Math_round (color.(r) * 255))
    /\ byteRange (Math_round (color.(g) * 255))
    /\ byteRange (Math_round (color.(b) * 255))
    /\ hex (convertColor color o)
       = String "#"
           (String.append (hexByte (Math_round (color.(r) * 255)))
              (String.append (hexByte (Math_round (color.(g) * 255)))
                 (hexByte (Math_round (color.(b) * 255)))))
    /\ String.length (hex (convertColor color o)) = 7
    /\ hex (convertColor color o) = hex (convertColor color None).
Proof.
  intros color o Hr Hg Hb.
  split; [now apply Math_round_byte|]. split; [now apply Math_round_byte|].
  split; [now apply Math_round_byte|].
  rewrite !convertColor_hex_bytes by assumption.
  repeat split; reflexivity.
Qed.

Lemma parseInt16_hexByte (v : Z) : byteRange v -> parseInt16 (hexByte v) = Some v.
Proof.
  intros [H0 H1].
  assert (Hall : forallb (fun n => match parseInt16 (hexByte (Z.of_nat n)) with
                                   | Some z => (z =? Z.of_nat n)%Z
                                   | None => false
                                   end) (seq 0 256) = true) by (vm_compute; reflexivity).
  rewrite forallb_forall in Hall.
  specialize (Hall (Z.to_nat v)). rewrite Z2Nat.id in Hall by lia.
  assert (Hin : In (Z.to_nat v) (seq 0 256)) by (apply in_seq; lia).
  specialize (Hall Hin).
  destruct (parseInt16 (hexByte v)) as [z|]; [|discriminate].
  apply Z.eqb_eq in Hall. now subst.
Qed.

Lemma clamp_unit (q : Q) : unitRange q -> Math_min (Math_max q 0) 1 = q.
Proof.
  intros [H0 H1]. unfold Math_max, Math_min.
  apply Qle_bool_iff in H0. rewrite H0.
  apply Qle_bool_iff in H1. now rewrite H1.
Qed.

(** X4. [hexToRgba] reads back what [convertColor] wrote: for channels, alpha
    and paint opacity in [0,1], converting a colour to [hex] and [opacity]
    and passing the two to [hexToRgba] gives the same text as
    [formatRGBAColor] gives for the colour directly; the three channels
    printed are the scaled, rounded channels of the colour. *)
Theorem hexToRgba_convertColor :
  forall (color : RGBA) (paintOpacity : Q),
    unitRange color.(r) -> unitRange color.(g) -> unitRange color.(b) ->
    unitRange color.(a) -> unitRange paintOpacity ->
    hexToRgba (hex (convertColor color (Some paintOpacity)))
              (Some (opacity (convertColor color (Some paintOpacity))))
    = formatRGBAColor color (Some paintOpacity)
    /\ hexToRgba (hex (convertColor color None)) (Some (opacity (convertColor color None)))
       = formatRGBAColor color None
    /\ formatRGBAColor color (Some paintOpacity)
       = rgbaText (numberToString (inject_Z (Math_round (color.(r) * 255))))
                  (numberToString (inject_Z (Math_round (color.(g) * 255))))
                  (numberToString (inject_Z (Math_round (color.(b) * 255))))
                  (numberToString (opacity (convertColor color (Some paintOpacity)))).
Proof.
  intros color op Hr Hg Hb Ha Ho.
  assert (Hread : forall o q,
             unitRange q ->
             hexToRgba (hex (convertColor color o)) (Some q)
             = rgbaText (numberToString (inject_Z (Math_round (color.(r) * 255))))
                        (numberToString (inject_Z (Math_round (color.(g) * 255))))
                        (numberToString (inject_Z (Math_round (color.(b) * 255))))
                        (numberToString q)).
  { intros o q Hq. rewrite (convertColor_hex_bytes color o Hr Hg Hb).
    unfold hexToRgba. cbn [removeFirstHash Ascii.eqb Bool.eqb].
    unfold hexByte. cbn [String.append String.length Nat.eqb substring].
    fold (hexByte (Math_round (r color * 255))).
    fold (hexByte (Math_round (g color * 255))).
    fold (hexByte (Math_round (b color * 255))).
    rewrite !parseInt16_hexByte by now apply Math_round_byte.
    rewrite (clamp_unit q Hq). reflexivity. }
  assert (Hone : unitRange 1) by (split; discriminate).
  split; [|split].
  - rewrite Hread; [reflexivity|].
    apply rounded_percent_unit.
    + apply Qmult_le_0_compat; [apply Ho | apply Ha].
    + setoid_replace 1%Q with (1 * 1)%Q by reflexivity.
      apply Qmult_le_compat_nonneg; split; try apply Ho; apply Ha.
  - rewrite Hread; [reflexivity|].
    apply rounded_percent_unit.
    + apply Qmult_le_0_compat; [discriminate | apply Ha].
    + rewrite Qmult_1_l. apply Ha.
  - reflexivity.
Qed.

Lemma removeFirstHash_none (s : string) :
  ~ In "#"%char (charsOf s) -> removeFirstHash s = s.
Proof.
  induction s as [|c rest IH]; simpl; [reflexivity|]. intros H.
  destruct (Ascii.eqb c "#") eqn:E.
  - apply Ascii.eqb_eq in E. exfalso. apply H. now left.
  - f_equal. apply IH. intros Hin. apply H. now right.
Qed.

Lemma substring_past (n m : nat) (s : string) :
  String.length s <= n -> substring n m s = EmptyString.
Proof.
  revert n. induction s as [|c rest IH]; intros n H.
  - destruct n, m; reflexivity.
  - destruct n; simpl in *; [lia|]. apply IH. lia.
Qed.

(** X5. The edges of [hexToRgba].  The leading [#] is optional; a
    three-character colour stands for the six-character one with each
    character doubled; an opacity above 1 counts as 1, one below 0 as 0, and
    an omitted one as 1; and a colour of fewer than three characters is no
    error: its green and blue channels are printed as NaN. *)
Theorem hexToRgba_edges :
  (forall hex o, ~ In "#"%char (charsOf hex) ->
                 hexToRgba (String "#" hex) o = hexToRgba hex o)
  /\ (forall c1 c2 c3 o,
        c1 <> "#"%char -> c2 <> "#"%char -> c3 <> "#"%char ->
        hexToRgba (String c1 (String c2 (String c3 EmptyString))) o
        = hexToRgba (String c1 (String c1 (String c2 (String c2
                      (String c3 (String c3 EmptyString)))))) o)
  /\ (forall hex o, (1 < o)%Q -> hexToRgba hex (Some o) = hexToRgba hex (Some 1%Q))
  /\ (forall hex o, (o < 0)%Q -> hexToRgba hex (Some o) = hexToRgba hex (Some 0%Q))
  /\ (forall hex, hexToRgba hex None = hexToRgba hex (Some 1%Q))
  /\ (forall hex o,
        String.length (removeFirstHash hex) <= 2 ->
        exists red,
          hexToRgba hex (Some o)
          = rgbaText red "NaN" "NaN" (numberToString (Math_min (Math_max o 0) 1))).
Proof.
  split; [|split; [|split; [|split; [|split]]]].
  - intros h o Hh. unfold hexToRgba. cbn [removeFirstHash Ascii.eqb Bool.eqb].
    now rewrite (removeFirstHash_none h Hh).
  - intros c1 c2 c3 o H1 H2 H3. unfold hexToRgba.
    assert (E : forall s, ~ In "#"%char (charsOf s) -> removeFirstHash s = s)
      by apply removeFirstHash_none.
    rewrite !E by (simpl; intuition congruence).
    reflexivity.
  - intros h o Ho.
    assert (E : Math_min (Math_max o 0) 1 = Math_min (Math_max 1 0) 1).
    { unfold Math_max, Math_min.
      assert (H0 : Qle_bool 0 o = true)
        by (apply Qle_bool_iff; apply Qlt_le_weak; eapply Qlt_trans; [|exact Ho]; reflexivity).
      rewrite H0.
      destruct (Qle_bool o 1) eqn:E; [|reflexivity].
      apply Qle_bool_iff in E. exfalso. exact (Qlt_not_le _ _ Ho E). }
    unfold hexToRgba. cbv zeta. now rewrite E.
  - intros h o Ho.
    assert (E : Math_min (Math_max o 0) 1 = Math_min (Math_max 0 0) 1).
    { unfold Math_max, Math_min.
      destruct (Qle_bool 0 o) eqn:E; [|reflexivity].
      apply Qle_bool_iff in E. exfalso. exact (Qlt_not_le _ _ Ho E). }
    unfold hexToRgba. cbv zeta. now rewrite E.
  - reflexivity.
  - intros h o Hlen. unfold hexToRgba. cbv zeta.
    destruct (String.length (removeFirstHash h) =? 3) eqn:E;
      [apply Nat.eqb_eq in E; lia|].
    rewrite (substring_past 2 2), (substring_past 4 2) by lia. eexists. reflexivity.
Qed.

(* ================================================================== *)
(** * Further properties: identifiers *)
(* ================================================================== *)

Lemma charAt_alphabet i :
  i < 36 ->
  charAt chars i = String (alphabetChar i) EmptyString
  /\ In (alphabetChar i) (charsOf chars).
Proof.
  intros Hi.
  assert (Hall : forallb (fun i => match String.get i chars with
                                   | Some c => existsb (Ascii.eqb c) (charsOf chars)
                                   | None => false
                                   end) (seq 0 36) = true) by (vm_compute; reflexivity).
  rewrite forallb_forall in Hall.
  specialize (Hall i ltac:(apply in_seq; lia)).
  unfold charAt, alphabetChar. destruct (String.get i chars) as [c|]; [|discriminate].
  split; [reflexivity|].
  apply existsb_exists in Hall. destruct Hall as (c' & Hin & Hc).
  apply Ascii.eqb_eq in Hc. now subst.
Qed.

Lemma alphabetChar_inj i j : i < 36 -> j < 36 -> alphabetChar i = alphabetChar j -> i = j.
Proof.
  intros Hi Hj.
  assert (Hall : forallb (fun i => forallb (fun j => negb (Ascii.eqb (alphabetChar i)
                                                              (alphabetChar j))
                                                     || (i =? j))
                                           (seq 0 36)) (seq 0 36) = true)
    by (vm_compute; reflexivity).
  rewrite forallb_forall in Hall.
  specialize (Hall i ltac:(apply in_seq; lia)).
  rewrite forallb_forall in Hall.
  specialize (Hall j ltac:(apply in_seq; lia)).
  intros E. rewrite E, Ascii.eqb_refl in Hall. now apply Nat.eqb_eq in Hall.
Qed.

Lemma drawn_below call : random call mod String.length chars < 36.
Proof. change (String.length chars) with 36. apply Nat.mod_upper_bound. discriminate. Qed.

Lemma randomChars_cons count call :
  randomChars (S count) call
  = String (alphabetChar (random call mod 36)) (randomChars count (S call)).
Proof.
  cbn [randomChars].
  destruct (charAt_alphabet _ (drawn_below call)) as [E _].
  rewrite E. reflexivity.
Qed.

Lemma randomChars_shape count :
  forall call,
    String.length (randomChars count call) = count
    /\ Forall (fun c => In c (charsOf chars)) (charsOf (randomChars count call)).
Proof.
  induction count as [|count IH]; intros call.
  - split; [reflexivity | constructor].
  - rewrite randomChars_cons. destruct (IH (S call)) as [Hlen Hall].
    split; [simpl; now rewrite Hlen|].
    constructor; [|exact Hall].
    apply (charAt_alphabet _ (drawn_below call)).
Qed.

Lemma append_length (s1 s2 : string) :
  String.length (String.append s1 s2) = String.length s1 + String.length s2.
Proof. induction s1 as [|c rest IH]; simpl; [reflexivity | now rewrite IH]. Qed.

Lemma append_cancel (p s1 s2 : string) :
  String.append p s1 = String.append p s2 -> s1 = s2.
Proof. induction p as [|c rest IH]; simpl; [auto|]. intros [= H]. auto. Qed.

(** X6. [generateVarId] never fails and returns the prefix, an underscore
    and exactly six characters, each one of the 36 of the alphabet (an
    upper-case letter or a digit): the index it computes never leaves the
    alphabet.  It draws six random numbers and touches nothing else. *)
Theorem generateVarId_shape :
  forall (prefix : string) (s : Store),
    exists suffix,
      generateVarId prefix s
      = Ok (String.append prefix (String.append "_" suffix),
            mkStore s.(globalVars) (s.(randomCalls) + 6))
      /\ String.length suffix = 6
      /\ Forall (fun c => In c (charsOf chars)) (charsOf suffix)
      /\ String.length (String.append prefix (String.append "_" suffix))
         = String.length prefix + 7.
Proof.
  intros prefix s. exists (randomChars 6 s.(randomCalls)).
  destruct (randomChars_shape 6 s.(randomCalls)) as [Hlen Hall].
  split; [reflexivity|]. split; [exact Hlen|]. split; [exact Hall|].
  rewrite !append_length, Hlen. reflexivity.
Qed.

Lemma randomChars_eq count :
  forall c1 c2,
    randomChars count c1 = randomChars count c2
    <-> forall i, i < count -> random (c1 + i) mod 36 = random (c2 + i) mod 36.
Proof.
  induction count as [|count IH]; intros c1 c2.
  - split; [intros _ i Hi; lia | reflexivity].
  - rewrite !randomChars_cons. split.
    + intros [= Hc Hrest] i Hi.
      apply alphabetChar_inj in Hc; try apply drawn_below.
      destruct i as [|i]; [now rewrite !Nat.add_0_r|].
      rewrite <- !Nat.add_succ_comm. apply (proj1 (IH (S c1) (S c2)) Hrest). lia.
    + intros H. f_equal.
      * specialize (H 0 ltac:(lia)). rewrite !Nat.add_0_r in H. now rewrite H.
      * apply IH. intros i Hi. rewrite !Nat.add_succ_comm. apply H. lia.
Qed.

(** X7. Two identifiers made with the same prefix are the same string
    exactly when the six random draws behind them agree one by one on the
    alphabet index: the alphabet has no repeated symbol, and nothing but the
    draws goes into an identifier. *)
Theorem generateVarId_collision :
  forall (prefix : string) (s1 s2 : Store),
    exists id1 id2 s1' s2',
      generateVarId prefix s1 = Ok (id1, s1')
      /\ generateVarId prefix s2 = Ok (id2, s2')
      /\ (id1 = id2
          <-> forall i, i < 6 ->
                random (s1.(randomCalls) + i) mod 36 = random (s2.(randomCalls) + i) mod 36).
Proof.
  intros prefix s1 s2. do 4 eexists.
  split; [reflexivity|]. split; [reflexivity|].
  rewrite <- randomChars_eq. unfold varIdAt. split.
  - intros H. apply append_cancel in H. now injection H.
  - intros H. now rewrite H.
Qed.

(* ================================================================== *)
(** * Further properties: the store and the paints *)
(* ================================================================== *)

(** X8. [findOrCreateVar] never fails.  The identifier it returns is bound,
    in the store it leaves, to a payload with the serialization of the one
    passed in; no other binding of the store is touched and no key is
    removed; and either the store is left as it was (the payload was found)
    or exactly one identifier was minted, from six random draws, and bound
    to the payload. *)
Theorem findOrCreateVar_frame :
  forall (value : JValue) (s : Store),
    NoDup (obj_keys s.(globalVars)) ->
    exists id s',
      findOrCreateVar value s = Ok (id, s')
      /\ (exists w, obj_get id s'.(globalVars) = Some w
                    /\ JSON_stringify w = JSON_stringify value)
      /\ (forall k, k <> id -> obj_get k s'.(globalVars) = obj_get k s.(globalVars))
      /\ incl (obj_keys s.(globalVars)) (obj_keys s'.(globalVars))
      /\ NoDup (obj_keys s'.(globalVars))
      /\ (s' = s
          \/ (id = varIdAt "var" s.(randomCalls)
              /\ s' = mkStore (obj_set id value s.(globalVars)) (s.(randomCalls) + 6))).
Proof.
  intros value s Hnd.
  destruct (findOrCreateVar_total value s) as (id & s' & H).
  exists id, s'. split; [exact H|].
  destruct (findOrCreateVar_inv _ _ _ _ H) as [w Hfind Hne -> | Hmiss -> ->].
  - apply findExisting_Some in Hfind. destruct Hfind as [Hin Hsame].
    split; [|repeat split; auto using incl_refl].
    exists w. split; [now apply In_obj_get | now apply sameJSON_eq].
  - cbn [globalVars randomCalls]. split; [|split; [|split; [|split]]].
    + exists value. split; [apply obj_get_set_same | reflexivity].
    + intros k Hk. now apply obj_get_set_other.
    + intros k Hk. apply obj_keys_set_In. now right.
    + now apply obj_set_NoDup.
    + right. split; reflexivity.
Qed.

Lemma includes_In (l : list string) (t : string) : includes l t = true <-> In t l.
Proof.
  unfold includes. rewrite existsb_exists. split.
  - intros (x & Hin & Hx). apply String.eqb_eq in Hx. now subst.
  - intros Hin. exists t. split; [exact Hin | apply String.eqb_refl].
Qed.
(** X9. [parsePaint] returns a paint exactly for an IMAGE paint, a SOLID
    paint that has a colour and a gradient paint that has its stops; a SOLID
    paint without colour and a gradient without stops fail with a type
    error (not with the unknown-type error).  The paint returned carries
    the raw paint's type; a SOLID one carries the [hex] and [opacity] that
    [convertColor] gives for the paint's colour and opacity; a gradient one
    has one stop per raw stop, in order, each colour converted by
    [convertColor] with the default opacity: the gradient paint's own
    opacity does not enter. *)
Theorem parsePaint_outcomes :
  forall raw : Paint,
    (isOk (parsePaint raw) = true
     <-> raw.(p_type) = "IMAGE"
         \/ (raw.(p_type) = "SOLID" /\ raw.(p_color) <> None)
         \/ (In raw.(p_type) gradientTypes /\ raw.(p_gradientStops) <> None))
    /\ (parsePaint raw = Err TypeError
        <-> (raw.(p_type) = "SOLID" /\ raw.(p_color) = None)
            \/ (In raw.(p_type) gradientTypes /\ raw.(p_gradientStops) = None))
    /\ (forall v, parsePaint raw = Ok v -> jget "type" v = JStr raw.(p_type))
    /\ (forall v color,
          parsePaint raw = Ok v -> raw.(p_type) = "SOLID" -> raw.(p_color) = Some color ->
          jget "hex" v = JStr (hex (convertColor color raw.(p_opacity)))
          /\ jget "opacity" v = JNum (opacity (convertColor color raw.(p_opacity))))
    /\ (forall v stops,
          parsePaint raw = Ok v ->
          In raw.(p_type) gradientTypes -> raw.(p_gradientStops) = Some stops ->
          jget "gradientStops" v
          = JArr (map (fun stop =>
                         JObj [("position", JNum stop.(stop_position));
                               ("color", ColorValue_toJ (convertColor stop.(stop_color) None))])
                      stops)).
Proof.
  intros raw.
  assert (Hgrad : In raw.(p_type) gradientTypes ->
                  raw.(p_type) <> "IMAGE" /\ raw.(p_type) <> "SOLID").
  { simpl. intros [H|[H|[H|[H|[]]]]]; rewrite <- H; split; discriminate. }
  unfold parsePaint.
  destruct (String.eqb_spec raw.(p_type) "IMAGE") as [Ei|Ei].
  { split; [split; [intros _; now left | reflexivity]|].
    split; [split; [discriminate|]|].
    { intros [[Hs _]|[Hg _]]; [congruence | apply Hgrad in Hg; tauto]. }
    split; [intros v [= <-]; rewrite Ei; reflexivity|].
    split; [intros v color _ Hs; congruence|].
    intros v stops _ Hg. apply Hgrad in Hg. tauto. }
  destruct (String.eqb_spec raw.(p_type) "SOLID") as [Es|Es].
  { destruct raw.(p_color) as [color|].
    - remember (convertColor color raw.(p_opacity)) as cv eqn:Ecv.
      split; [split; [intros _; right; left; split; [assumption | discriminate]
                     | reflexivity]|].
      split; [split; [discriminate|]|].
      { intros [[_ Hc]|[Hg _]]; [discriminate | apply Hgrad in Hg; tauto]. }
      split; [intros v [= <-]; rewrite Es; reflexivity|].
      split; [intros v c [= <-] _ [= <-]; rewrite <- Ecv; split; reflexivity|].
      intros v stops _ Hg. apply Hgrad in Hg. tauto.
    - split; [split; [discriminate|]|].
      { intros [Hi|[[_ Hc]|[Hg _]]]; [congruence | congruence | apply Hgrad in Hg; tauto]. }
      split; [split; [intros _; left; split; [assumption | reflexivity] | reflexivity]|].
      split; [discriminate|]. split; [discriminate|]. discriminate. }
  destruct (includes gradientTypes raw.(p_type)) eqn:Eg.
  { apply includes_In in Eg.
    destruct raw.(p_gradientStops) as [stops|].
    - split; [split; [intros _; right; right; split; [assumption | discriminate]
                     | reflexivity]|].
      split; [split; [discriminate|]|].
      { intros [[Hs _]|[_ Hc]]; [congruence | discriminate]. }
      split; [intros v [= <-]; reflexivity|].
      split; [intros v c _ Hs; congruence|].
      intros v st [= <-] _ [= <-]. reflexivity.
    - split; [split; [discriminate|]|].
      { intros [Hi|[[Hs _]|[_ Hc]]]; congruence. }
      split; [split; [intros _; right; split; [assumption | reflexivity] | reflexivity]|].
      split; [discriminate|]. split; [discriminate|]. discriminate. }
  assert (Hng : ~ In raw.(p_type) gradientTypes).
  { intros Hin. apply includes_In in Hin. congruence. }
  split; [split; [discriminate|]|].
  { intros [Hi|[[Hs _]|[Hg _]]]; [congruence | congruence | contradiction]. }
  split; [split; [discriminate|]|].
  { intros [[Hs _]|[Hg _]]; [congruence | contradiction]. }
  split; [discriminate|]. split; [discriminate|]. discriminate.
Qed.

(* ================================================================== *)
(** * Further properties: the node the walk returns *)
(* ================================================================== *)

Lemma jget_removeEmptyKeys props k :
  NoDup (obj_keys props) ->
  obj_get "__proto__" props = None ->
  jget k (removeEmptyKeys (JObj props))
  = match obj_get k props with
    | Some v => if isEmptyValue (removeEmptyKeys v) then JUndefined else removeEmptyKeys v
    | None => JUndefined
    end.
Proof.
  intros Hnd Hproto. simpl. rewrite (obj_get_cleanProps _ _ _ Hnd).
  destruct (obj_get k props) as [v|] eqn:Hget; [|reflexivity].
  assert (Hk : createsOwnProperty k = true).
  { unfold createsOwnProperty. destruct (String.eqb_spec k "__proto__"); [|reflexivity].
    subst k. congruence. }
  rewrite keepCleaned_isEmptyValue, Hk.
  now destruct (isEmptyValue (removeEmptyKeys v)).
Qed.

(** The parts of a successful walk of a visible node. *)
Lemma parseNode_output n parent s node s' :
  parseNode n parent s = Ok (Some node, s') ->
  exists simplified0 s0 children s1,
    isInvisible n = false
    /\ parseOwnFields n parent s = Ok (simplified0, s0)
    /\ mapM (fun child => parseNode child (Some n)) n.(n_children) s0 = Ok (children, s1)
    /\ (if String.eqb n.(n_type) "VECTOR"
        then registerVector parent (attachChildren children simplified0) s1 = Ok (tt, s')
        else s' = s1)
    /\ node = removeEmptyKeys (JObj (attachChildren children simplified0))
    /\ NoDup (obj_keys (attachChildren children simplified0))
    /\ obj_get "children" (attachChildren children simplified0)
       = (if nonEmptyList (filterNonNull children)
          then Some (JArr (filterNonNull children)) else None)
    /\ (forall k, k <> "children" ->
                  obj_get k (attachChildren children simplified0) = obj_get k simplified0).
Proof.
  intros H. destruct (isInvisible n) eqn:Hvis.
  { rewrite (parseNode_invisible _ _ _ Hvis) in H. discriminate. }
  apply (parseNode_visible_inv _ _ _ _ _ Hvis) in H.
  destruct H as (simplified0 & s0 & children & s1 & simplified
                 & Hown & Hchildren & -> & Hvector & [= ->]).
  exists simplified0, s0, children, s1.
  pose proof (parseOwnFields_shape _ _ _ _ _ Hown) as (Hnd & _ & _ & Hnone).
  repeat (split; [assumption || reflexivity|]).
  unfold attachChildren. destruct (nonEmptyList (filterNonNull children)).
  - split; [now apply obj_set_NoDup|]. split; [apply obj_get_set_same|].
    intros k Hk. now apply obj_get_set_other.
  - split; [assumption|]. split; [assumption|]. reflexivity.
Qed.

Lemma parseNode_own_field n parent s node s' k :
  parseNode n parent s = Ok (Some node, s') -> k <> "children" ->
  exists simplified0 s0,
    parseOwnFields n parent s = Ok (simplified0, s0)
    /\ jget k node
       = match obj_get k simplified0 with
         | Some v => if isEmptyValue (removeEmptyKeys v) then JUndefined else removeEmptyKeys v
         | None => JUndefined
         end.
Proof.
  intros H Hk. apply parseNode_output in H.
  destruct H as (simplified0 & s0 & children & s1 & _ & Hown & _ & _ & -> & Hnd & _ & Hother).
  exists simplified0, s0. split; [exact Hown|].
  rewrite (jget_removeEmptyKeys _ _ Hnd), (Hother k Hk); [reflexivity|].
  rewrite Hother by discriminate. eapply parseOwnFields_no_proto; eauto.
Qed.

Lemma parseNode_id_type n parent s node s' :
  parseNode n parent s = Ok (Some node, s') ->
  jget "id" node = JStr n.(n_id) /\ jget "type" node = JStr n.(n_type).
Proof.
  intros H. split.
  - destruct (parseNode_own_field _ _ _ _ _ "id" H ltac:(discriminate))
      as (simplified0 & s0 & Hown & ->).
    apply parseOwnFields_shape in Hown. destruct Hown as (_ & -> & _). reflexivity.
  - destruct (parseNode_own_field _ _ _ _ _ "type" H ltac:(discriminate))
      as (simplified0 & s0 & Hown & ->).
    apply parseOwnFields_shape in Hown. destruct Hown as (_ & _ & -> & _). reflexivity.
Qed.

Lemma parseNode_null n parent s result s' :
  parseNode n parent s = Ok (result, s') -> (result = None <-> isInvisible n = true).
Proof.
  intros H. destruct (isInvisible n) eqn:Hvis.
  - rewrite (parseNode_invisible _ _ _ Hvis) in H. injection H as <- _. tauto.
  - apply (parseNode_visible_inv _ _ _ _ _ Hvis) in H.
    destruct H as (? & ? & ? & ? & ? & _ & _ & _ & _ & ->). split; discriminate.
Qed.

Lemma mapM_parseNode_ids parent children :
  forall s results s',
    mapM (fun child => parseNode child parent) children s = Ok (results, s') ->
    map (jget "id") (filterNonNull results)
    = map (fun c => JStr c.(n_id)) (filter (fun c => negb (isInvisible c)) children).
Proof.
  induction children as [|c cs IH]; intros s results s' H.
  - simpl in H. monad_inv H. reflexivity.
  - apply mapM_Ok_cons in H. destruct H as (y & s1 & ys & Hc & Hcs & ->).
    pose proof (parseNode_null _ _ _ _ _ Hc) as Hnull.
    simpl. destruct y as [node|].
    + destruct (isInvisible c); [destruct Hnull as [_ Hn]; discriminate Hn; reflexivity|].
      simpl. f_equal; [apply (parseNode_id_type _ _ _ _ _ Hc) | eauto].
    + destruct (isInvisible c); [simpl; eauto|].
      destruct Hnull as [Hn _]. discriminate Hn; reflexivity.
Qed.

Lemma parseNode_children_field n parent s node s' :
  parseNode n parent s = Ok (Some node, s') ->
  exists children s0 s1,
    mapM (fun child => parseNode child (Some n)) n.(n_children) s0 = Ok (children, s1)
    /\ jget "children" node
       = match filterNonNull children with
         | [] => JUndefined
         | items => JArr items
         end.
Proof.
  intros H. apply parseNode_output in H.
  destruct H as (simplified0 & s0 & children & s1 & _ & Hown & Hchildren & _ & -> & Hnd
                 & Hget & Hother).
  exists children, s0, s1. split; [exact Hchildren|].
  rewrite (jget_removeEmptyKeys _ _ Hnd), Hget;
    [|rewrite Hother by discriminate; eapply parseOwnFields_no_proto; eauto].
  pose proof (mapM_parseNode_pruned _ _ _ _ _ Hchildren) as Hpruned.
  destruct (filterNonNull children) as [|c cs]; [reflexivity|].
  change (nonEmptyList (c :: cs)) with true. cbv iota.
  change (removeEmptyKeys (JArr (c :: cs))) with (JArr (map removeEmptyKeys (c :: cs))).
  rewrite Hpruned. reflexivity.
Qed.

Lemma filter_nil_forallb {A} (p : A -> bool) (l : list A) :
  filter (fun x => negb (p x)) l = [] <-> forallb p l = true.
Proof.
  induction l as [|x rest IH]; simpl; [tauto|].
  destruct (p x); simpl; [exact IH | split; discriminate].
Qed.

(** X10. What [parseNode] returns for a node.  It is null exactly for an
    invisible node.  Otherwise it is an object that carries the raw node's
    [id] and [type]; its [children] are the simplified visible children, in
    order (their ids are the ids of the raw children that are not
    invisible), and there is no [children] property at all when every child
    is invisible or there is none; and it is fully pruned: pruning it again
    changes nothing. *)
Theorem parseNode_node :
  forall n parent s result s',
    parseNode n parent s = Ok (result, s') ->
    (result = None <-> isInvisible n = true)
    /\ (forall node,
          result = Some node ->
          jget "id" node = JStr n.(n_id)
          /\ jget "type" node = JStr n.(n_type)
          /\ (jget "children" node = JUndefined
              <-> forallb isInvisible n.(n_children) = true)
          /\ (forall items,
                jget "children" node = JArr items ->
                map (jget "id") items
                = map (fun c => JStr c.(n_id))
                      (filter (fun c => negb (isInvisible c)) n.(n_children)))
          /\ removeEmptyKeys node = node).
Proof.
  intros n parent s result s' H.
  split; [eapply parseNode_null; eauto|].
  intros node ->.
  destruct (parseNode_id_type _ _ _ _ _ H) as [Hid Htype].
  destruct (parseNode_children_field _ _ _ _ _ H) as (children & s0 & s1 & Hm & Hc).
  pose proof (mapM_parseNode_ids _ _ _ _ _ Hm) as Hids.
  split; [exact Hid|]. split; [exact Htype|]. split; [|split].
  - rewrite <- filter_nil_forallb, Hc.
    destruct (filterNonNull children) as [|c cs]; simpl in Hids.
    + symmetry in Hids. apply map_eq_nil in Hids. tauto.
    + split; [discriminate|]. intros E. rewrite E in Hids. discriminate.
  - intros items Hitems. rewrite Hc in Hitems.
    destruct (filterNonNull children) as [|c cs]; [discriminate|].
    injection Hitems as <-. exact Hids.
  - eapply parseNode_result_pruned; eauto.
Qed.

Lemma rewriteInNode_id id node node' :
  rewriteInNode id node = Some node' -> jget "id" node' = jget "id" node.
Proof.
  destruct node as [| | | | | |props]; try discriminate. simpl.
  destruct (hasId id props) eqn:E.
  - intros [= <-]. apply hasId_true in E. simpl. now rewrite E.
  - destruct (rewriteChildren (rewriteFirst (rewriteInNode id)) props) as [props'|] eqn:Er;
      [|discriminate].
    intros [= <-]. simpl. now rewrite (rewriteChildren_id _ _ _ Er).
Qed.

Lemma rewriteFirst_top_ids id nodes :
  forall nodes',
    rewriteFirst (rewriteInNode id) nodes = Some nodes' ->
    map (jget "id") nodes' = map (jget "id") nodes.
Proof.
  induction nodes as [|node rest IH]; intros nodes'; simpl; [discriminate|].
  destruct (rewriteInNode id node) as [node'|] eqn:E.
  - intros [= <-]. simpl. now rewrite (rewriteInNode_id _ _ _ E).
  - destruct (rewriteFirst (rewriteInNode id) rest) as [rest'|]; [|discriminate].
    intros [= <-]. simpl. f_equal. now apply IH.
Qed.

Lemma fold_rewriteParent_top_ids parentIds :
  forall nodes,
    map (jget "id") (fold_left rewriteParent parentIds nodes) = map (jget "id") nodes.
Proof.
  induction parentIds as [|p rest IH]; intros nodes; simpl; [reflexivity|].
  rewrite IH. unfold rewriteParent.
  destruct (rewriteFirst (rewriteInNode p) nodes) as [nodes'|] eqn:E; [|reflexivity].
  now apply rewriteFirst_top_ids in E.
Qed.

Lemma walkRoots_ids roots nodes s :
  walkRoots roots = Ok (nodes, s) ->
  map (jget "id") nodes
  = map (fun n => JStr n.(n_id)) (filter (fun n => negb (isInvisible n)) roots).
Proof.
  unfold walkRoots.
  destruct (mapM (fun n => parseNode n None) roots initialStore) as [[parsed s1]|e] eqn:E;
    [|discriminate].
  intros [= <- _]. eapply mapM_parseNode_ids; eauto.
Qed.

Lemma simplifyRoots_top_level name lastModified roots design :
  simplifyRoots name lastModified roots = Ok design ->
  design.(sd_name) = name
  /\ design.(sd_lastModified) = lastModified
  /\ map (jget "id") design.(sd_nodes)
     = map (fun n => JStr n.(n_id)) (filter (fun n => negb (isInvisible n)) roots).
Proof.
  intros Hrun. unfold simplifyRoots in Hrun.
  destruct (walkRoots roots) as [[nodes s]|e] eqn:Hwalk; [|discriminate].
  destruct (parseGlobalVars (globalVars s) nodes) as [[vars' nodes']|e] eqn:Hpg; [|discriminate].
  injection Hrun as <-. cbn [sd_name sd_lastModified sd_nodes].
  apply parseGlobalVars_inv in Hpg.
  destruct Hpg as (vp & c2p & vars1 & _ & _ & _ & ->).
  repeat split.
  rewrite fold_rewriteParent_top_ids. exact (walkRoots_ids _ _ _ Hwalk).
Qed.

(** X11. Both entry points copy [name] and [lastModified] and return one
    top-level node for every top-level raw node that is not invisible, in
    the same order and under the same [id]: the grouping pass rewrites
    nodes where they are and neither adds, removes nor moves one.  For
    [parseFigmaFileResponse] the top-level raw nodes are the children of the
    document (the document node itself is not simplified, and its own
    visibility is not looked at); for [parseFigmaResponse] they are the
    documents of the entries of [nodes], in the order of the entries. *)
Theorem run_keeps_top_level :
  (forall (data : GetFileResponse) (design : SimplifiedDesign),
     parseFigmaFileResponse data = Ok design ->
     design.(sd_name) = data.(file_name)
     /\ design.(sd_lastModified) = data.(file_lastModified)
     /\ map (jget "id") design.(sd_nodes)
        = map (fun n => JStr n.(n_id))
              (filter (fun n => negb (isInvisible n)) data.(file_document).(n_children))
     /\ List.length design.(sd_nodes)
        = List.length (filter (fun n => negb (isInvisible n))
                              data.(file_document).(n_children)))
  /\ (forall (data : GetFileNodesResponse) (design : SimplifiedDesign),
        parseFigmaResponse data = Ok design ->
        design.(sd_name) = data.(nodes_name)
        /\ design.(sd_lastModified) = data.(nodes_lastModified)
        /\ map (jget "id") design.(sd_nodes)
           = map (fun n => JStr n.(n_id))
                 (filter (fun n => negb (isInvisible n)) (map snd data.(nodes_nodes)))
        /\ List.length design.(sd_nodes)
           = List.length (filter (fun n => negb (isInvisible n))
                                 (map snd data.(nodes_nodes)))).
Proof.
  split; intros data design Hrun;
    apply simplifyRoots_top_level in Hrun; destruct Hrun as (Hname & Hdate & Hids);
    (repeat split; [exact Hname | exact Hdate | exact Hids |]);
    apply (f_equal (@List.length _)) in Hids; now rewrite !length_map in Hids.
Qed.

(* ================================================================== *)
(** * Further properties: what a returning run needs *)
(* ================================================================== *)

Lemma treeNormalizes_unfold n :
  treeNormalizes n
  = isInvisible n
    || (paintsNormalize n.(n_fills) && paintsNormalize n.(n_strokes)
        && forallb treeNormalizes n.(n_children)).
Proof. destruct n; reflexivity. Qed.

Lemma parsePaints_normalize key paints simplified s x s' :
  parsePaints key paints simplified s = Ok (x, s') -> paintsNormalize paints = true.
Proof.
  unfold paintsNormalize, parsePaints. cbv zeta.
  destruct (hasValue paints None && nonEmptyList (fieldOr [] paints)) eqn:E.
  - intros H. monad_inv H. monad_inv Hstep. now rewrite H.
  - intros _. destruct paints as [[|raw rest]|]; try reflexivity.
    discriminate E.
Qed.

Lemma parseOwnFields_normalize n parent s x s' :
  parseOwnFields n parent s = Ok (x, s') ->
  paintsNormalize n.(n_fills) = true /\ paintsNormalize n.(n_strokes) = true.
Proof.
  unfold parseOwnFields. intros H. monad_inv H.
  split; eapply parsePaints_normalize; eauto.
Qed.

Lemma parseOwnFields_wellFormed n parent s x s' :
  parseOwnFields n parent s = Ok (x, s') -> wellFormed s -> wellFormed s'.
Proof.
  intros H. eapply sameRun_wellFormed.
  revert H. apply (parseOwnFields_preserves (fun _ => sameRun)) with (keys := []).
  - intros. constructor.
  - intros keys s1 s2 s3. apply sameRun_trans.
  - intros keys value id s1 s2 Hf. eapply run_more; [eapply step_find; eauto | constructor].
Qed.

Lemma mapM_parseNode_normalize parent children :
  Forall (fun c => forall p s r s', parseNode c p s = Ok (r, s') ->
                                    treeNormalizes c = true) children ->
  forall s results s',
    mapM (fun c => parseNode c parent) children s = Ok (results, s') ->
    forallb treeNormalizes children = true.
Proof.
  induction 1 as [|c cs Hc _ IH]; intros s results s' H; [reflexivity|].
  apply mapM_Ok_cons in H. destruct H as (y & s1 & ys & Hy & Hys & _).
  simpl. rewrite (Hc _ _ _ _ Hy). simpl. eauto.
Qed.

Lemma parseNode_normalize n :
  forall parent s result s',
    parseNode n parent s = Ok (result, s') -> treeNormalizes n = true.
Proof.
  induction n as [n IH] using RawNode_children_ind.
  intros parent s result s' H. rewrite treeNormalizes_unfold.
  destruct (isInvisible n) eqn:Hvis; [reflexivity|].
  apply (parseNode_visible_inv _ _ _ _ _ Hvis) in H.
  destruct H as (simplified0 & s0 & children & s1 & simplified & Hown & Hm & _).
  apply parseOwnFields_normalize in Hown. destruct Hown as [-> ->].
  simpl. eapply mapM_parseNode_normalize; eauto.
Qed.

(** X12. A run returns a result only when, in every node the walk reaches
    (a node that is not invisible and has no invisible ancestor), the fill
    list and the stroke list normalize, each paint being an IMAGE, a SOLID
    with its colour or a gradient with its stops: one paint that does not
    normalize, anywhere in the reached tree, leaves the run without a
    result. *)
Theorem run_needs_normal_paints :
  forall (name lastModified : string) (roots : list RawNode) (design : SimplifiedDesign),
    simplifyRoots name lastModified roots = Ok design ->
    forallb treeNormalizes roots = true.
Proof.
  intros name lastModified roots design Hrun. unfold simplifyRoots, walkRoots in Hrun.
  destruct (mapM (fun n => parseNode n None) roots initialStore) as [[parsed s]|e] eqn:E;
    [|discriminate].
  eapply mapM_parseNode_normalize; [|exact E].
  apply Forall_forall. intros c _ p s0 r s'. apply parseNode_normalize.
Qed.

(* ================================================================== *)
(** * Further properties: the search over the walked tree *)
(* ================================================================== *)

Lemma idsAreFound_list nodes :
  Forall idsAreFound nodes ->
  forall id, In id (outputIds nodes) -> firstFound (findInNode id) nodes <> None.
Proof.
  induction 1 as [|node rest [Hnode _] _ IH]; intros id Hin; [destruct Hin|].
  rewrite outputIds_cons in Hin. simpl.
  destruct (findInNode id node) as [f|] eqn:E; [discriminate|].
  apply in_app_or in Hin. destruct Hin as [Hin | Hin]; [|now apply IH].
  apply Hnode in Hin. congruence.
Qed.

Lemma inChildren_jget {B} (k : list JValue -> option B) props :
  inChildren k props =
  match jget "children" (JObj props) with
  | JArr items => k items
  | _ => None
  end.
Proof.
  rewrite inChildren_get. simpl.
  destruct (obj_get "children" props) as [[| | | | | |]|]; reflexivity.
Qed.

Lemma idsAreFound_all v : idsAreFound v.
Proof.
  induction v as [| | b | q | s | items IH | props IH] using JValue_nested_ind;
    try (split; [intros id [] | exact I]).
  - split; [intros id [] | now apply idsAreFound_list].
  - split; [|exact I]. intros id. simpl.
    destruct (obj_get "id" props) as [[| | | |i| |]|] eqn:Eid;
      try (intros Hf; contradiction).
    unfold hasId. rewrite Eid. simpl.
    destruct (String.eqb_spec i id) as [->|Hne]; [discriminate|].
    intros [Hin | Hin]; [congruence|].
    rewrite !inChildren_get in *.
    destruct (obj_get "children" props) as [[| | | | |items|]|] eqn:Ec; try destruct Hin.
    rewrite Forall_forall in IH.
    destruct (IH _ (obj_get_In _ _ _ Ec)) as [_ Hitems]. now apply Hitems.
Qed.

Lemma firstFound_In {B} (f : JValue -> option B) nodes found :
  firstFound f nodes = Some found -> exists node, In node nodes /\ f node = Some found.
Proof.
  induction nodes as [|node rest IH]; simpl; [discriminate|].
  destruct (f node) as [x|] eqn:E.
  - intros [= <-]. exists node. auto.
  - intros H. destruct (IH H) as (node' & Hin & Hf). exists node'. auto.
Qed.

Lemma filterNonNull_In {A} (x : A) (xs : list (option A)) :
  In x (filterNonNull xs) <-> In (Some x) xs.
Proof.
  induction xs as [|[y|] rest IH]; simpl; [tauto | |].
  - rewrite IH. split; intros [H|H]; auto; left; congruence.
  - rewrite IH. split; [auto | intros [H|H]; [discriminate | auto]].
Qed.

Lemma mapM_result_In {A B} (f : A -> M B) xs :
  forall s ys s' y,
    mapM f xs s = Ok (ys, s') -> In y ys ->
    exists x s1 s2, In x xs /\ f x s1 = Ok (y, s2).
Proof.
  induction xs as [|x rest IH]; intros s ys s' y H Hin.
  - simpl in H. apply ret_Ok in H. destruct H as [-> _]. destruct Hin.
  - apply mapM_Ok_cons in H. destruct H as (y0 & s1 & ys' & Hx & Hrest & ->).
    destruct Hin as [<- | Hin].
    + exists x, s, s1. split; [now left | exact Hx].
    + destruct (IH _ _ _ _ Hrest Hin) as (x' & sa & sb & Hx' & Hf).
      exists x', sa, sb. split; [now right | exact Hf].
Qed.

Lemma outputIds_In node nodes id :
  In node nodes -> In id (optTreeIds (outputTree node)) -> In id (outputIds nodes).
Proof.
  induction nodes as [|x rest IH]; intros Hin Hid; [destruct Hin|].
  rewrite outputIds_cons. apply in_or_app.
  destruct Hin as [-> | Hin]; [now left | right; auto].
Qed.

(** In a node the walk returns, whatever the search finds is listed in the
    node's skeleton. *)
Lemma parseNode_found_listed n :
  forall parent s node s',
    parseNode n parent s = Ok (Some node, s') ->
    forall id found,
      findInNode id node = Some found -> In id (optTreeIds (outputTree node)).
Proof.
  induction n as [n IH] using RawNode_children_ind.
  intros parent s node s' H id found Hfound.
  destruct (parseNode_id_type _ _ _ _ _ H) as [Hid _].
  destruct (parseNode_children_field _ _ _ _ _ H) as (children & s0 & s1 & Hm & Hc).
  assert (Hobj : exists props, node = JObj props).
  { apply parseNode_output in H.
    destruct H as (? & ? & ? & ? & _ & _ & _ & _ & -> & _). eexists. reflexivity. }
  destruct Hobj as (props & ->).
  assert (Eid : obj_get "id" props = Some (JStr n.(n_id))).
  { simpl in Hid. destruct (obj_get "id" props); [now subst | discriminate]. }
  simpl in Hfound |- *. rewrite Eid. simpl.
  unfold hasId in Hfound. rewrite Eid in Hfound.
  destruct (String.eqb_spec n.(n_id) id) as [E|E]; [now left|]. right.
  rewrite inChildren_jget, Hc in Hfound. rewrite inChildren_jget, Hc.
  destruct (filterNonNull children) as [|c cs] eqn:Ecs; [discriminate|].
  fold (outputIds (c :: cs)).
  apply firstFound_In in Hfound. destruct Hfound as (item & Hin & Hitem).
  apply (outputIds_In item); [exact Hin|].
  rewrite <- Ecs in Hin. apply filterNonNull_In in Hin.
  destruct (mapM_result_In _ _ _ _ _ _ Hm Hin) as (child & sa & sb & Hchild & Hparse).
  rewrite Forall_forall in IH. eapply IH; eauto.
Qed.

(** X13. In the tree a walk returns, [findNodeById] finds a node for an
    identifier exactly when the identifier is that of a raw node the walk
    reached (not invisible, below no invisible node), and the node it
    returns carries that identifier.  So every parent recorded in the
    [vectorParents] bucket is found in the tree as the walk left it: the
    grouping pass can miss a parent only after it has rewritten the tree
    itself. *)
Theorem search_finds_walked_nodes :
  forall (roots : list RawNode) (nodes : list JValue) (s : Store),
    walkRoots roots = Ok (nodes, s) ->
    (forall id,
       (exists found, findNodeById id nodes = Some found) <-> In id (visibleIds roots))
    /\ (forall id found, findNodeById id nodes = Some found -> jget "id" found = JStr id)
    /\ (forall parentId,
          In parentId (obj_keys (bucketOf s)) ->
          exists found, findNodeById parentId nodes = Some found).
Proof.
  intros roots nodes s Hwalk.
  assert (Hids : outputIds nodes = visibleIds roots).
  { unfold outputIds, visibleIds. now rewrite (walkRoots_trees _ _ _ Hwalk). }
  assert (Hiff : forall id,
             (exists found, findNodeById id nodes = Some found) <-> In id (visibleIds roots)).
  { intros id. rewrite <- Hids. split.
    - intros (found & Hfound). unfold findNodeById in Hfound.
      apply firstFound_In in Hfound. destruct Hfound as (node & Hin & Hnode).
      apply (outputIds_In node); [exact Hin|].
      unfold walkRoots in Hwalk.
      destruct (mapM (fun n => parseNode n None) roots initialStore)
        as [[parsed s1]|e] eqn:E; [|discriminate].
      injection Hwalk as <- _. apply filterNonNull_In in Hin.
      destruct (mapM_result_In _ _ _ _ _ _ E Hin) as (root & sa & sb & _ & Hparse).
      eapply parseNode_found_listed; eauto.
    - intros Hin.
      assert (Hall : Forall idsAreFound nodes)
        by (apply Forall_forall; intros x _; apply idsAreFound_all).
      pose proof (idsAreFound_list _ Hall id Hin) as Hne.
      unfold findNodeById. destruct (firstFound (findInNode id) nodes) as [found|];
        [eexists; reflexivity | congruence]. }
  split; [exact Hiff|]. split; [intros id found; apply findNodeById_id|].
  intros parentId Hin. apply Hiff. eapply walkRoots_bucket_visible; eauto.
Qed.

(* ================================================================== *)
(** * Further properties: the groups of the grouping pass *)
(* ================================================================== *)

Lemma concat_values_replace {A} key (l : list A) p (o : list (string * list A)) :
  obj_get key o = Some l ->
  Permutation (List.concat (obj_values (obj_replace key (l ++ [p]) o)))
              (List.concat (obj_values o) ++ [p]).
Proof.
  induction o as [|[k w] rest IH]; simpl; [discriminate|].
  destruct (String.eqb k key).
  - intros [= ->]. simpl. rewrite <- !app_assoc.
    apply Permutation_app_head, Permutation_app_comm.
  - intros H. simpl. rewrite <- app_assoc. apply Permutation_app_head. now apply IH.
Qed.

Lemma concat_values_insert_nil {A} i key (o : list (string * list A)) :
  List.concat (obj_values (obj_insert_index i key [] o)) = List.concat (obj_values o).
Proof.
  induction o as [|[k w] rest IH]; simpl; [reflexivity|].
  destruct (arrayIndex k) as [j|]; [|reflexivity].
  destruct (j <? i)%N; [|reflexivity]. simpl. now rewrite IH.
Qed.

Lemma concat_values_set_nil {A} key (o : list (string * list A)) :
  obj_get key o = None ->
  List.concat (obj_values (obj_set key [] o)) = List.concat (obj_values o).
Proof.
  intros H. unfold obj_set, obj_has. rewrite H.
  destruct (arrayIndex key); [apply concat_values_insert_nil|].
  unfold obj_values. rewrite map_app, concat_app. simpl. apply app_nil_r.
Qed.

Lemma concat_values_push {A} key (l : list A) p (o : list (string * list A)) :
  obj_get key o = Some l ->
  Permutation (List.concat (obj_values (obj_set key (l ++ [p]) o)))
              (List.concat (obj_values o) ++ [p]).
Proof.
  intros H. unfold obj_set, obj_has. rewrite H. now apply concat_values_replace.
Qed.

Lemma groupStep_listed childrenId parentId acc :
  Permutation (List.concat (obj_values (fst (groupStep childrenId parentId acc))))
              (List.concat (obj_values (fst acc)) ++ [parentId]).
Proof.
  destruct acc as [c2p vars]. unfold groupStep. cbn [fst snd].
  destruct (obj_get childrenId c2p) as [l|] eqn:E; cbn [fst]; unfold pushParent.
  - rewrite E. now apply concat_values_push.
  - rewrite obj_get_set_same.
    rewrite <- (concat_values_set_nil childrenId c2p E).
    apply (concat_values_push childrenId []). apply obj_get_set_same.
Qed.

Lemma groupVectorParents_listed entries :
  forall childrenToParents vars result vars',
    groupVectorParents entries childrenToParents vars = Ok (result, vars') ->
    Permutation (List.concat (obj_values result))
                (List.concat (obj_values childrenToParents) ++ obj_keys entries).
Proof.
  induction entries as [|[parentId data] rest IH]; intros c2p vars result vars' H.
  - simpl in H. injection H as <- _. simpl. now rewrite app_nil_r.
  - apply groupVectorParents_inv in H. destruct H as (cid & _ & _ & H).
    apply IH in H. rewrite H. simpl.
    rewrite (groupStep_listed cid parentId (c2p, vars)). cbn [fst].
    rewrite <- app_assoc. reflexivity.
Qed.

Lemma groupVectorParents_nonempty entries :
  forall childrenToParents vars result vars',
    groupVectorParents entries childrenToParents vars = Ok (result, vars') ->
    (forall cid, In cid (obj_keys childrenToParents) -> groupOf cid childrenToParents <> []) ->
    forall cid, In cid (obj_keys result) -> groupOf cid result <> [].
Proof.
  induction entries as [|[parentId data] rest IH]; intros c2p vars result vars' H Hne.
  - simpl in H. injection H as <- _. exact Hne.
  - apply groupVectorParents_inv in H. destruct H as (cid & _ & _ & H).
    eapply IH; [exact H|]. intros k Hk.
    rewrite groupStep_groupOf. apply groupStep_keys in Hk. cbn [fst] in *.
    destruct (String.eqb_spec k cid) as [->|Hkc].
    + intros E. apply app_eq_nil in E. destruct E as [_ E]. discriminate.
    + destruct Hk as [Hk | Hk]; [congruence | now apply Hne].
Qed.

(** X14. The groups of [childrenToParents] partition the recorded parents:
    in every run whose walk completes, each key of the [vectorParents]
    bucket is listed exactly once over all groups, nothing else is
    listed, no group is empty, and the group keys are exactly the content
    addresses the records name. *)
Theorem grouping_partitions_parents :
  forall (name lastModified : string) (roots : list RawNode)
         (nodes : list JValue) (s : Store),
    walkRoots roots = Ok (nodes, s) ->
    exists design childrenToParents,
      simplifyRoots name lastModified roots = Ok design
      /\ obj_get "childrenToParents" design.(sd_globalVars)
         = Some (childrenToParents_toJ childrenToParents)
      /\ Permutation (List.concat (obj_values childrenToParents)) (obj_keys (bucketOf s))
      /\ NoDup (List.concat (obj_values childrenToParents))
      /\ NoDup (obj_keys childrenToParents)
      /\ (forall cid, In cid (obj_keys childrenToParents) ->
                      groupOf cid childrenToParents <> [])
      /\ (forall cid, In cid (obj_keys childrenToParents)
                      <-> In cid (recordedChildrenIds (bucketOf s))).
Proof.
  intros name lastModified roots nodes s Hwalk.
  destruct (run_grouping name lastModified roots nodes s Hwalk)
    as (vp & c2p & vars1 & Hvp & Hnd & _ & Hgroup & Hrun & Hndc).
  assert (Hbucket : bucketOf s = vp) by (unfold bucketOf; now rewrite Hvp).
  rewrite Hbucket.
  pose proof (groupVectorParents_listed _ _ _ _ _ Hgroup) as Hperm. simpl in Hperm.
  eexists. exists c2p. split; [exact Hrun|]. cbn [sd_globalVars].
  split; [rewrite obj_get_delete_other by discriminate; apply obj_get_set_same|].
  split; [exact Hperm|].
  split; [eapply Permutation_NoDup; [symmetry; exact Hperm | exact Hnd]|].
  split; [exact Hndc|].
  split.
  - eapply groupVectorParents_nonempty; [exact Hgroup|]. intros cid [].
  - intros cid. destruct (groupVectorParents_keys _ _ _ _ _ Hgroup) as [Hkeys _].
    rewrite Hkeys. simpl. tauto.
Qed.

(* ================================================================== *)
(** * Further properties: the result's variables *)
(* ================================================================== *)

Lemma mapM_bucket_keys roots :
  forall s0 parsed s,
    mapM (fun n => parseNode n None) roots s0 = Ok (parsed, s) ->
    incl (obj_keys (bucketOf s))
         (obj_keys (bucketOf s0) ++ flat_map (fun n => recordKeys n None) roots).
Proof.
  induction roots as [|n rest IH]; intros s0 parsed s H.
  - simpl in H. monad_inv H. apply incl_appl, incl_refl.
  - apply mapM_Ok_cons in H. destruct H as (y & s1 & ys & Hn & Hrest & _).
    apply parseNode_bucket_keys in Hn. apply IH in Hrest.
    intros k Hk. apply Hrest in Hk. apply in_app_or in Hk. simpl.
    destruct Hk as [Hk | Hk].
    + apply Hn in Hk. apply in_app_or in Hk.
      destruct Hk as [Hk | Hk]; apply in_or_app; [now left|].
      right. apply in_or_app. now left.
    + apply in_or_app. right. apply in_or_app. now right.
Qed.

Lemma walkRoots_bucket_keys roots nodes s :
  walkRoots roots = Ok (nodes, s) ->
  incl (obj_keys (bucketOf s)) (flat_map (fun n => recordKeys n None) roots).
Proof.
  unfold walkRoots.
  destruct (mapM (fun n => parseNode n None) roots initialStore) as [[parsed s1]|e] eqn:E;
    [|discriminate].
  intros [= _ <-]. apply mapM_bucket_keys in E. exact E.
Qed.

(** X15. When the walk meets no visible VECTOR node that has a parent, the
    grouping pass changes nothing but the bookkeeping: the nodes are
    returned as the walk left them, and [globalVars] is the walk's store
    with an empty [childrenToParents] added and [vectorParents] removed; in
    particular the variable of a top-level VECTOR's payload stays. *)
Theorem run_without_parented_vectors :
  forall (name lastModified : string) (roots : list RawNode)
         (nodes : list JValue) (s : Store),
    walkRoots roots = Ok (nodes, s) ->
    flat_map (fun n => recordKeys n None) roots = [] ->
    simplifyRoots name lastModified roots
    = Ok (mkSimplifiedDesign name lastModified nodes
            (obj_delete "vectorParents"
               (obj_set "childrenToParents" (JObj []) s.(globalVars))))
    /\ forall k, k <> "vectorParents" -> k <> "childrenToParents" ->
                 obj_get k (obj_delete "vectorParents"
                              (obj_set "childrenToParents" (JObj []) s.(globalVars)))
                 = obj_get k s.(globalVars).
Proof.
  intros name lastModified roots nodes s Hwalk Hnone.
  pose proof (walkRoots_bucket_keys _ _ _ Hwalk) as Hkeys. rewrite Hnone in Hkeys.
  pose proof (walkRoots_wellFormed _ _ _ Hwalk) as (_ & _ & vp & Hvp & _).
  assert (Hempty : vp = []).
  { unfold bucketOf in Hkeys. rewrite Hvp in Hkeys.
    destruct vp as [|[k v] rest]; [reflexivity|].
    exfalso. apply (Hkeys k). now left. }
  subst vp. split.
  - unfold simplifyRoots. rewrite Hwalk. unfold parseGlobalVars. rewrite Hvp.
    cbn [groupVectorParents obj_values map fold_left childrenToParents_toJ].
    now destruct (nonEmptyList nodes).
  - intros k Hvpk Hc2p.
    rewrite obj_get_delete_other by assumption. now apply obj_get_set_other.
Qed.

Lemma groupVectorParents_vars_NoDup entries :
  forall childrenToParents vars result vars',
    groupVectorParents entries childrenToParents vars = Ok (result, vars') ->
    NoDup (obj_keys vars) -> NoDup (obj_keys vars').
Proof.
  induction entries as [|[parentId data] rest IH]; intros c2p vars result vars' H Hnd.
  - simpl in H. now injection H as _ <-.
  - apply groupVectorParents_inv in H. destruct H as (cid & _ & _ & H).
    eapply IH; [exact H|].
    apply (groupStep_vars_NoDup cid parentId (c2p, vars)). exact Hnd.
Qed.

(** X16. The [globalVars] of a result: its keys are pairwise different;
    one of them is [childrenToParents] and none is [vectorParents]; every
    other key is an identifier that begins with [var_], and it is bound to
    the payload it was bound to when the walk ended: the grouping pass
    binds nothing new besides [childrenToParents] and rebinds nothing. *)
Theorem result_globalVars_keys :
  forall (name lastModified : string) (roots : list RawNode)
         (nodes : list JValue) (s : Store) (design : SimplifiedDesign),
    walkRoots roots = Ok (nodes, s) ->
    simplifyRoots name lastModified roots = Ok design ->
    NoDup (obj_keys design.(sd_globalVars))
    /\ In "childrenToParents" (obj_keys design.(sd_globalVars))
    /\ ~ In "vectorParents" (obj_keys design.(sd_globalVars))
    /\ (forall k w,
          obj_get k design.(sd_globalVars) = Some w ->
          k <> "childrenToParents" ->
          isVarKey k = true /\ obj_get k s.(globalVars) = Some w).
Proof.
  intros name lastModified roots nodes s design Hwalk Hrun.
  destruct (run_grouping name lastModified roots nodes s Hwalk)
    as (vp & c2p & vars1 & Hvp & _ & _ & Hgroup & Hrun' & _).
  rewrite Hrun in Hrun'. injection Hrun' as ->. cbn [sd_globalVars].
  pose proof (walkRoots_wellFormed _ _ _ Hwalk) as (Hnd & Hgood & _).
  pose proof (groupVectorParents_vars_NoDup _ _ _ _ _ Hgroup Hnd) as Hnd1.
  pose proof (groupVectorParents_vars _ _ _ _ _ Hgroup) as Hvars.
  split; [now apply obj_delete_NoDup, obj_set_NoDup|].
  split.
  { apply obj_keys_delete_In. split; [discriminate|]. apply obj_keys_set_In. now left. }
  split.
  { intros Hin. apply obj_keys_delete_In in Hin. now destruct Hin. }
  intros k w Hk Hc2p.
  destruct (String.eqb_spec k "vectorParents") as [->|Hvpk].
  { now rewrite obj_get_delete_same in Hk. }
  rewrite obj_get_delete_other, obj_get_set_other in Hk by assumption.
  rewrite Hvars in Hk.
  destruct (existsb (String.eqb k) (recordedChildrenIds vp) && negb (obj_has k []));
    [discriminate|].
  split; [|exact Hk].
  rewrite Forall_forall in Hgood. apply obj_get_Some_key, Hgood in Hk.
  unfold goodKey in Hk. apply orb_true_iff in Hk.
  destruct Hk as [Hk | Hk]; [apply String.eqb_eq in Hk; contradiction | exact Hk].
Qed.

(* ================================================================== *)
(** * Further properties: the result is pruned *)
(* ================================================================== *)

Lemma staysPruned_list id nodes :
  Forall (staysPruned id) nodes ->
  forall nodes', rewriteFirst (rewriteInNode id) nodes = Some nodes' ->
                 forallb noEmptyMembers nodes = true ->
                 forallb noEmptyMembers nodes' = true /\ nodes' <> [].
Proof.
  induction 1 as [|node rest [Hnode _] _ IH]; simpl; intros nodes'; [discriminate|].
  intros H Hall. apply andb_true_iff in Hall. destruct Hall as [Hn Hrest].
  destruct (rewriteInNode id node) as [node'|] eqn:E.
  - injection H as <-. split; [|discriminate]. simpl.
    now rewrite (Hnode _ eq_refl Hn), Hrest.
  - destruct (rewriteFirst (rewriteInNode id) rest) as [rest'|]; [|discriminate].
    injection H as <-. split; [|discriminate]. simpl.
    rewrite Hn. now apply (IH rest' eq_refl).
Qed.

Lemma staysPruned_all id v : staysPruned id v.
Proof.
  induction v as [| | b | q | s | items IH | props IH] using JValue_nested_ind;
    try (split; [discriminate | exact I]).
  - split; [discriminate|]. now apply staysPruned_list.
  - split; [|exact I]. intros v'. simpl. destruct (hasId id props).
    + intros [= <-] _. reflexivity.
    + destruct (rewriteChildren (rewriteFirst (rewriteInNode id)) props) as [props'|] eqn:E;
        [|discriminate].
      intros [= <-]. simpl. revert props' E.
      induction IH as [|[key v] rest Hv _ IHrest]; intros props'; simpl; [discriminate|].
      destruct (String.eqb key "children").
      * destruct v as [| | | | |items|]; try discriminate.
        destruct (rewriteFirst (rewriteInNode id) items) as [items'|] eqn:Ei; [|discriminate].
        intros [= <-] Hall. simpl in Hall |- *.
        apply andb_true_iff in Hall. destruct Hall as [Hkv Hrest].
        apply andb_true_iff in Hkv. destruct Hkv as [Hkey Hitems].
        apply andb_true_iff in Hkey. destruct Hkey as [_ Hkey].
        destruct Hv as [_ Hdeep]. destruct (Hdeep _ Ei Hitems) as [Hitems' Hne].
        rewrite Hitems', Hrest, Hkey. destruct items'; [congruence | reflexivity].
      * destruct (rewriteChildren (rewriteFirst (rewriteInNode id)) rest) as [rest'|];
          [|discriminate].
        intros [= <-] Hall. simpl in Hall |- *.
        apply andb_true_iff in Hall. destruct Hall as [Hkv Hrest].
        rewrite Hkv. simpl. now apply IHrest.
Qed.

Lemma fold_rewriteParent_pruned parentIds :
  forall nodes,
    forallb noEmptyMembers nodes = true ->
    forallb noEmptyMembers (fold_left rewriteParent parentIds nodes) = true.
Proof.
  induction parentIds as [|p rest IH]; intros nodes H; simpl; [exact H|].
  apply IH. unfold rewriteParent.
  destruct (rewriteFirst (rewriteInNode p) nodes) as [nodes'|] eqn:E; [|exact H].
  eapply staysPruned_list; [|exact E | exact H].
  apply Forall_forall. intros x _. apply staysPruned_all.
Qed.

Lemma mapM_parseNode_noEmptyMembers parent children s results s' :
  mapM (fun child => parseNode child parent) children s = Ok (results, s') ->
  forallb noEmptyMembers (filterNonNull results) = true.
Proof.
  intros H. apply mapM_parseNode_pruned in H. rewrite <- H.
  apply forallb_forall. intros y Hy. apply in_map_iff in Hy.
  destruct Hy as (x & <- & _). apply removeEmptyKeys_noEmptyMembers.
Qed.

(** X17. Every node of a result is fully pruned: at no depth does a node
    or anything in it hold a property that is undefined, an empty array or
    an empty object, and pruning the result again changes nothing.  This
    holds after the grouping pass too: the stub it writes has two string
    properties, and a [children] list it rewrites keeps its length. *)
Theorem result_is_pruned :
  forall (name lastModified : string) (roots : list RawNode) (design : SimplifiedDesign),
    simplifyRoots name lastModified roots = Ok design ->
    Forall (fun node => noEmptyMembers node = true /\ removeEmptyKeys node = node)
           design.(sd_nodes).
Proof.
  intros name lastModified roots design Hrun.
  unfold simplifyRoots in Hrun.
  destruct (walkRoots roots) as [[nodes s]|e] eqn:Hwalk; [|discriminate].
  destruct (parseGlobalVars (globalVars s) nodes) as [[vars' nodes']|e] eqn:Hpg; [|discriminate].
  injection Hrun as <-. cbn [sd_nodes].
  apply parseGlobalVars_inv in Hpg. destruct Hpg as (vp & c2p & vars1 & _ & _ & _ & ->).
  assert (Hnodes : forallb noEmptyMembers nodes = true).
  { unfold walkRoots in Hwalk.
    destruct (mapM (fun n => parseNode n None) roots initialStore) as [[parsed s1]|e] eqn:E;
      [|discriminate].
    injection Hwalk as <- _. eapply mapM_parseNode_noEmptyMembers; eauto. }
  apply (fold_rewriteParent_pruned (List.concat (obj_values c2p))) in Hnodes.
  rewrite forallb_forall in Hnodes. apply Forall_forall. intros node Hin.
  split; [now apply Hnodes | apply noEmptyMembers_fixpoint; now apply Hnodes].
Qed.

(* ================================================================== *)
(** * Further properties: the fields of a node *)
(* ================================================================== *)

(** The blocks of [parseOwnFields], one after the other. *)
Lemma findOrCreateVar_nonempty value s id s' :
  findOrCreateVar value s = Ok (id, s') -> id <> "".
Proof.
  intros H. destruct (findOrCreateVar_inv _ _ _ _ H) as [w _ Hne _ | _ -> _];
    [exact Hne|].
  apply (isVarKey_not_literal _ (varIdAt_isVarKey _)).
Qed.

Lemma strokesLength_get x x' :
  obj_get "strokes" x' = obj_get "strokes" x -> strokesLength x' = strokesLength x.
Proof. unfold strokesLength. now intros ->. Qed.

Lemma parseSimpleProps_strokeWeight n x :
  obj_get "strokeWeight" x = None ->
  obj_get "strokeWeight" (parseSimpleProps n x)
  = match n.(n_strokeWeight) with
    | Some w => if strokesLength x then Some (JNum w) else None
    | None => None
    end.
Proof.
  intros Hnone. unfold parseSimpleProps. cbv zeta.
  set (x1 := if hasValue (n_characters n) (Some isTruthy)
             then match n_characters n with
                  | Some text => obj_set "text" (JStr text) x
                  | None => x
                  end
             else x).
  assert (H1 : forall k, k <> "text" -> obj_get k x1 = obj_get k x).
  { intros k Hk. subst x1.
    destruct (hasValue (n_characters n) (Some isTruthy)); [|reflexivity].
    destruct (n_characters n); [|reflexivity]. now apply obj_get_set_other. }
  rewrite (strokesLength_get x x1) by (apply H1; discriminate).
  set (x2 := if hasValue (n_strokeWeight n) None && strokesLength x
             then match n_strokeWeight n with
                  | Some w => obj_set "strokeWeight" (JNum w) x1
                  | None => x1
                  end
             else x1).
  assert (H2 : obj_get "strokeWeight" x2
               = match n.(n_strokeWeight) with
                 | Some w => if strokesLength x then Some (JNum w) else None
                 | None => None
                 end).
  { subst x2. destruct (n_strokeWeight n) as [w|]; cbn [hasValue andb].
    - destruct (strokesLength x); [apply obj_get_set_same|].
      rewrite H1 by discriminate. exact Hnone.
    - rewrite H1 by discriminate. exact Hnone. }
  destruct (hasValue (n_strokeDashes n) None && nonEmptyList (fieldOr [] (n_strokeDashes n)));
    [|exact H2].
  rewrite obj_get_set_other by discriminate. exact H2.
Qed.

(** What the object holds under [strokes] and [strokeWeight] when
    [parseOwnFields] returns. *)
Lemma parseOwnFields_strokes n parent s simplified s' :
  parseOwnFields n parent s = Ok (simplified, s') ->
  match n.(n_strokes) with
  | Some (raw :: rest) =>
      exists normalized id sa sb,
        mapR parsePaint (raw :: rest) = Ok normalized
        /\ findOrCreateVar (JArr normalized) sa = Ok (id, sb)
        /\ obj_get "strokes" simplified = Some (JStr id)
        /\ obj_get "strokeWeight" simplified
           = match n.(n_strokeWeight) with Some w => Some (JNum w) | None => None end
  | _ =>
      obj_get "strokes" simplified = None /\ obj_get "strokeWeight" simplified = None
  end.
Proof.
  intros H. apply parseOwnFields_steps in H.
  destruct H as (x1 & s1 & x2 & s2 & x3 & s3 & x4 & s4 & x5 & s5 & x6
                 & H1 & H2 & H3 & H4 & H5 & H6 & ->).
  apply parseTextStyle_sets in H1. apply parsePaints_sets in H2.
  apply parseStyles_sets in H3. apply parseLayout_sets in H5.
  apply parseStrokeWeights_sets in H6.
  pose proof (parseOpacityRadius_sets n x6) as H7.
  assert (Hx3 : forall k, k <> "textStyle" -> k <> "fills" -> k <> "styles" ->
                          k <> "id" -> k <> "type" -> obj_get k x3 = None).
  { intros k Ha Hb Hc Hd He.
    rewrite (setsOnly_get _ _ _ k H3) by (simpl; intuition congruence).
    rewrite (setsOnly_get _ _ _ k H2) by (simpl; intuition congruence).
    rewrite (setsOnly_get _ _ _ k H1) by (simpl; intuition congruence).
    cbn [obj_get]. destruct (String.eqb_spec "id" k); [congruence|].
    destruct (String.eqb_spec "type" k); [congruence | reflexivity]. }
  assert (Hlater : forall k, k <> "layout" -> k <> "text" -> k <> "strokeWeight" ->
                             k <> "strokeDashes" -> k <> "individualStrokeWeights" ->
                             k <> "opacity" -> k <> "borderRadius" ->
                             obj_get k (parseOpacityRadius n x6) = obj_get k x4).
  { intros k Ha Hb Hc Hd He Hf Hg.
    rewrite (setsOnly_get _ _ _ k H7) by (simpl; intuition congruence).
    rewrite (setsOnly_get _ _ _ k H6) by (simpl; intuition congruence).
    rewrite (setsOnly_get _ _ _ k (parseSimpleProps_sets n x5)) by (simpl; intuition congruence).
    apply (setsOnly_get _ _ _ k H5). simpl; intuition congruence. }
  assert (Hweight : obj_get "strokeWeight" (parseOpacityRadius n x6)
                    = match n.(n_strokeWeight) with
                      | Some w => if strokesLength x4 then Some (JNum w) else None
                      | None => None
                      end).
  { rewrite (setsOnly_get _ _ _ "strokeWeight" H7) by (simpl; intuition congruence).
    rewrite (setsOnly_get _ _ _ "strokeWeight" H6) by (simpl; intuition congruence).
    assert (Hx5 : obj_get "strokeWeight" x5 = None).
    { rewrite (setsOnly_get _ _ _ "strokeWeight" H5) by (simpl; intuition congruence).
      apply parsePaints_sets in H4.
      rewrite (setsOnly_get _ _ _ "strokeWeight" H4) by (simpl; intuition congruence).
      apply Hx3; discriminate. }
    rewrite (parseSimpleProps_strokeWeight n x5 Hx5).
    rewrite (strokesLength_get x4 x5); [reflexivity|].
    apply (setsOnly_get _ _ _ "strokes" H5). simpl; intuition congruence. }
  rewrite Hweight, Hlater by discriminate.
  apply parsePaints_cases in H4.
  destruct (n_strokes n) as [[|raw rest]|].
  - destruct H4 as [-> _]. unfold strokesLength.
    rewrite (Hx3 "strokes") by discriminate. split; [reflexivity|].
    now destruct (n_strokeWeight n).
  - destruct H4 as (normalized & id & Hn & Hf & ->).
    exists normalized, id, s3, s4. split; [exact Hn|]. split; [exact Hf|].
    rewrite obj_get_set_same. split; [reflexivity|].
    unfold strokesLength. rewrite obj_get_set_same.
    apply findOrCreateVar_nonempty in Hf.
    destruct id as [|c id']; [congruence|]. reflexivity.
  - destruct H4 as [-> _]. unfold strokesLength.
    rewrite (Hx3 "strokes") by discriminate. split; [reflexivity|].
    now destruct (n_strokeWeight n).
Qed.

(** X18. A node carries [strokeWeight] only together with [strokes]: the
    simplified node has the raw stroke weight exactly when the raw node has
    one and has a stroke list that is not empty, in which case the node
    also has a [strokes] reference; a stroke weight of zero is kept, and a
    stroke weight without strokes is dropped. *)
Theorem strokeWeight_needs_strokes :
  forall n parent s node s',
    parseNode n parent s = Ok (Some node, s') ->
    jget "strokeWeight" node
    = match n.(n_strokeWeight), n.(n_strokes) with
      | Some w, Some (_ :: _) => JNum w
      | _, _ => JUndefined
      end
    /\ (jget "strokeWeight" node <> JUndefined ->
        exists id, jget "strokes" node = JStr id /\ id <> "").
Proof.
  intros n parent s node s' H.
  destruct (parseNode_own_field _ _ _ _ _ "strokeWeight" H ltac:(discriminate))
    as (simplified0 & s0 & Hown & Hweight).
  destruct (parseNode_own_field _ _ _ _ _ "strokes" H ltac:(discriminate))
    as (simplified0' & s0' & Hown' & Hstrokes).
  rewrite Hown in Hown'. injection Hown' as <- <-.
  apply parseOwnFields_strokes in Hown.
  rewrite Hweight, Hstrokes.
  destruct (n_strokes n) as [[|raw rest]|].
  - destruct Hown as [-> ->]. split; [now destruct (n_strokeWeight n) | congruence].
  - destruct Hown as (normalized & id & sa & sb & _ & Hf & -> & ->).
    split; [now destruct (n_strokeWeight n)|].
    intros _. exists id. split; [reflexivity|].
    eapply findOrCreateVar_nonempty; eauto.
  - destruct Hown as [-> ->]. split; [now destruct (n_strokeWeight n) | congruence].
Qed.

Lemma findOrCreateVar_registeredAt payload s id s' :
  findOrCreateVar payload s = Ok (id, s') -> registeredAt payload (JStr id) s s'.
Proof.
  intros H. destruct (findOrCreateVar_bound _ _ _ _ H) as (w & Hin & Hw).
  exists id, w. auto.
Qed.

(** What the pass over a node's own fields registers, store by store. *)
Lemma parseOwnFields_registrations n parent s simplified s6 :
  parseOwnFields n parent s = Ok (simplified, s6) ->
  exists s1 s2 s3 s4 s5,
    ownFieldStores n parent s s1 s2 s3 s4 s5 s6
    /\ paintsRegisteredAt n.(n_fills) (jget "fills" (JObj simplified)) s1 s2
    /\ (if is_undefined n.(n_styles) || is_null n.(n_styles)
        then notRegistered (jget "styles" (JObj simplified)) s2 s3
        else registeredAt n.(n_styles) (jget "styles" (JObj simplified)) s2 s3)
    /\ paintsRegisteredAt n.(n_strokes) (jget "strokes" (JObj simplified)) s3 s4
    /\ (if 1 <? Object_keys_length (buildSimplifiedLayout n parent)
        then registeredAt (buildSimplifiedLayout n parent)
               (jget "layout" (JObj simplified)) s4 s5
        else notRegistered (jget "layout" (JObj simplified)) s4 s5)
    /\ match n.(n_individualStrokeWeights) with
       | Some w => registeredAt (strokeWeightsOf w)
                     (jget "individualStrokeWeights" (JObj simplified)) s5 s6
       | None => notRegistered (jget "individualStrokeWeights" (JObj simplified)) s5 s6
       end.
Proof.
  intros H. apply parseOwnFields_steps in H.
  destruct H as (x1 & s1 & x2 & s2 & x3 & s3 & x4 & s4 & x5 & s5 & x6
                 & H1 & H2 & H3 & H4 & H5 & H6 & ->).
  exists s1, s2, s3, s4, s5.
  split; [exists x1, x2, x3, x4, x5, x6; auto 10|].
  pose proof (parseTextStyle_sets _ _ _ _ _ H1) as S1.
  pose proof (parsePaints_sets _ _ _ _ _ _ H2) as S2.
  pose proof (parseStyles_sets _ _ _ _ _ H3) as S3.
  pose proof (parsePaints_sets _ _ _ _ _ _ H4) as S4.
  pose proof (parseLayout_sets _ _ _ _ _ _ H5) as S5.
  pose proof (parseSimpleProps_sets n x5) as S5'.
  pose proof (parseStrokeWeights_sets _ _ _ _ _ H6) as S6.
  pose proof (parseOpacityRadius_sets n x6) as S7.
  assert (Hinit : forall k, k <> "id" -> k <> "type" ->
            obj_get k [("id", JStr n.(n_id)); ("type", JStr n.(n_type))] = None).
  { intros k Hid Htype. cbn [obj_get].
    destruct (String.eqb_spec "id" k); [congruence|].
    destruct (String.eqb_spec "type" k); [congruence | reflexivity]. }
  apply parsePaints_cases in H2. apply parseStyles_cases in H3.
  apply parsePaints_cases in H4. apply parseLayout_cases in H5.
  apply parseStrokeWeights_cases in H6.
  unfold jget.
  repeat split.
  - rewrite (setsOnly_get _ _ _ "fills" S7) by (simpl; intuition congruence).
    rewrite (setsOnly_get _ _ _ "fills" S6) by (simpl; intuition congruence).
    rewrite (setsOnly_get _ _ _ "fills" S5') by (simpl; intuition congruence).
    rewrite (setsOnly_get _ _ _ "fills" S5) by (simpl; intuition congruence).
    rewrite (setsOnly_get _ _ _ "fills" S4) by (simpl; intuition congruence).
    rewrite (setsOnly_get _ _ _ "fills" S3) by (simpl; intuition congruence).
    assert (Hx1 : obj_get "fills" x1 = None).
    { rewrite (setsOnly_get _ _ _ "fills" S1) by (simpl; intuition congruence).
      apply Hinit; discriminate. }
    unfold paintsRegisteredAt.
    destruct (n_fills n) as [[|raw rest]|].
    + destruct H2 as [-> ->]. rewrite Hx1. now split.
    + destruct H2 as (normalized & id & Hn & Hf & ->).
      exists normalized. split; [exact Hn|]. split; [apply (mapR_Ok_length _ _ _ Hn)|].
      rewrite obj_get_set_same. now apply findOrCreateVar_registeredAt.
    + destruct H2 as [-> ->]. rewrite Hx1. now split.
  - rewrite (setsOnly_get _ _ _ "styles" S7) by (simpl; intuition congruence).
    rewrite (setsOnly_get _ _ _ "styles" S6) by (simpl; intuition congruence).
    rewrite (setsOnly_get _ _ _ "styles" S5') by (simpl; intuition congruence).
    rewrite (setsOnly_get _ _ _ "styles" S5) by (simpl; intuition congruence).
    rewrite (setsOnly_get _ _ _ "styles" S4) by (simpl; intuition congruence).
    assert (Hx2 : obj_get "styles" x2 = None).
    { rewrite (setsOnly_get _ _ _ "styles" S2) by (simpl; intuition congruence).
      rewrite (setsOnly_get _ _ _ "styles" S1) by (simpl; intuition congruence).
      apply Hinit; discriminate. }
    destruct (is_undefined (n_styles n) || is_null (n_styles n)).
    + destruct H3 as [-> ->]. rewrite Hx2. now split.
    + destruct H3 as (id & Hf & ->). rewrite obj_get_set_same.
      now apply findOrCreateVar_registeredAt.
  - rewrite (setsOnly_get _ _ _ "strokes" S7) by (simpl; intuition congruence).
    rewrite (setsOnly_get _ _ _ "strokes" S6) by (simpl; intuition congruence).
    rewrite (setsOnly_get _ _ _ "strokes" S5') by (simpl; intuition congruence).
    rewrite (setsOnly_get _ _ _ "strokes" S5) by (simpl; intuition congruence).
    assert (Hx3 : obj_get "strokes" x3 = None).
    { rewrite (setsOnly_get _ _ _ "strokes" S3) by (simpl; intuition congruence).
      rewrite (setsOnly_get _ _ _ "strokes" S2) by (simpl; intuition congruence).
      rewrite (setsOnly_get _ _ _ "strokes" S1) by (simpl; intuition congruence).
      apply Hinit; discriminate. }
    unfold paintsRegisteredAt.
    destruct (n_strokes n) as [[|raw rest]|].
    + destruct H4 as [-> ->]. rewrite Hx3. now split.
    + destruct H4 as (normalized & id & Hn & Hf & ->).
      exists normalized. split; [exact Hn|]. split; [apply (mapR_Ok_length _ _ _ Hn)|].
      rewrite obj_get_set_same. now apply findOrCreateVar_registeredAt.
    + destruct H4 as [-> ->]. rewrite Hx3. now split.
  - rewrite (setsOnly_get _ _ _ "layout" S7) by (simpl; intuition congruence).
    rewrite (setsOnly_get _ _ _ "layout" S6) by (simpl; intuition congruence).
    rewrite (setsOnly_get _ _ _ "layout" S5') by (simpl; intuition congruence).
    assert (Hx4 : obj_get "layout" x4 = None).
    { rewrite (setsOnly_get _ _ _ "layout" S4) by (simpl; intuition congruence).
      rewrite (setsOnly_get _ _ _ "layout" S3) by (simpl; intuition congruence).
      rewrite (setsOnly_get _ _ _ "layout" S2) by (simpl; intuition congruence).
      rewrite (setsOnly_get _ _ _ "layout" S1) by (simpl; intuition congruence).
      apply Hinit; discriminate. }
    destruct (1 <? Object_keys_length (buildSimplifiedLayout n parent)).
    + destruct H5 as (id & Hf & ->). rewrite obj_get_set_same.
      now apply findOrCreateVar_registeredAt.
    + destruct H5 as [-> ->]. rewrite Hx4. now split.
  - rewrite (setsOnly_get _ _ _ "individualStrokeWeights" S7)
      by (simpl; intuition congruence).
    assert (Hnone : obj_get "individualStrokeWeights" (parseSimpleProps n x5) = None).
    { rewrite (setsOnly_get _ _ _ "individualStrokeWeights" S5')
        by (simpl; intuition congruence).
      rewrite (setsOnly_get _ _ _ "individualStrokeWeights" S5)
        by (simpl; intuition congruence).
      rewrite (setsOnly_get _ _ _ "individualStrokeWeights" S4)
        by (simpl; intuition congruence).
      rewrite (setsOnly_get _ _ _ "individualStrokeWeights" S3)
        by (simpl; intuition congruence).
      rewrite (setsOnly_get _ _ _ "individualStrokeWeights" S2)
        by (simpl; intuition congruence).
      rewrite (setsOnly_get _ _ _ "individualStrokeWeights" S1)
        by (simpl; intuition congruence).
      apply Hinit; discriminate. }
    destruct (n_individualStrokeWeights n) as [w|].
    + destruct H6 as (id & Hf & ->). rewrite obj_get_set_same.
      now apply findOrCreateVar_registeredAt.
    + destruct H6 as [-> ->]. rewrite Hnone. now split.
Qed.

(** A reference of the object under construction is the reference of the
    node. *)
Lemma parseNode_reference n parent s node s' simplified0 s0 k :
  parseNode n parent s = Ok (Some node, s') ->
  parseOwnFields n parent s = Ok (simplified0, s0) ->
  k <> "children" ->
  jget k (JObj simplified0) = JUndefined
  \/ (exists id, jget k (JObj simplified0) = JStr id) ->
  jget k node = jget k (JObj simplified0).
Proof.
  intros H Hown Hk Hcases.
  destruct (parseNode_own_field _ _ _ _ _ k H Hk) as (x & s0' & Hown' & ->).
  rewrite Hown in Hown'. injection Hown' as <- <-.
  unfold jget in *. destruct (obj_get k simplified0) as [v|]; [|reflexivity].
  destruct Hcases as [-> | (id & ->)]; reflexivity.
Qed.

Lemma registeredAt_cases payload field sa sb :
  registeredAt payload field sa sb ->
  field = JUndefined \/ (exists id, field = JStr id).
Proof. intros (id & w & _ & -> & _). right. eauto. Qed.

Lemma notRegistered_cases field sa sb :
  notRegistered field sa sb -> field = JUndefined \/ (exists id, field = JStr id).
Proof. intros [-> _]. now left. Qed.

Lemma paintsRegisteredAt_cases paints field sa sb :
  paintsRegisteredAt paints field sa sb ->
  field = JUndefined \/ (exists id, field = JStr id).
Proof.
  unfold paintsRegisteredAt. destruct paints as [[|raw rest]|];
    try apply notRegistered_cases.
  intros (normalized & _ & _ & H). eapply registeredAt_cases; eauto.
Qed.

(** X19. The [fills] and the [strokes] of a node, on the stores of its own
    pass.  A raw list that is missing or empty leaves no property and the
    store as it was.  Any other list is normalized, one paint for each raw
    paint and in their order; the node holds the identifier that
    [findOrCreateVar] returns for that array on the store reached just
    before (after the text style for the fills, after the styles for the
    strokes), and the store the call leaves binds the identifier to a
    payload with the serialization of the array. *)
Theorem paint_lists_registered :
  forall n parent s node s',
    parseNode n parent s = Ok (Some node, s') ->
    exists s1 s2 s3 s4 s5 s6,
      ownFieldStores n parent s s1 s2 s3 s4 s5 s6
      /\ paintsRegisteredAt n.(n_fills) (jget "fills" node) s1 s2
      /\ paintsRegisteredAt n.(n_strokes) (jget "strokes" node) s3 s4.
Proof.
  intros n parent s node s' H.
  destruct (parseNode_output _ _ _ _ _ H) as (simplified0 & s0 & _ & _ & _ & Hown & _).
  destruct (parseOwnFields_registrations _ _ _ _ _ Hown)
    as (s1 & s2 & s3 & s4 & s5 & Hstores & Hfills & _ & Hstrokes & _).
  exists s1, s2, s3, s4, s5, s0. split; [exact Hstores|].
  rewrite (parseNode_reference _ _ _ _ _ _ _ "fills" H Hown)
    by (discriminate || eapply paintsRegisteredAt_cases; eauto).
  rewrite (parseNode_reference _ _ _ _ _ _ _ "strokes" H Hown)
    by (discriminate || eapply paintsRegisteredAt_cases; eauto).
  split; assumption.
Qed.

(* ================================================================== *)
(** * Further properties: references resolve *)
(* ================================================================== *)

Lemma keysKept_refl s : keysKept s s.
Proof. apply incl_refl. Qed.

Lemma keysKept_trans s1 s2 s3 : keysKept s1 s2 -> keysKept s2 s3 -> keysKept s1 s3.
Proof. unfold keysKept. intros H12 H23. eapply incl_tran; eauto. Qed.

Lemma keysKept_find value id s s' :
  findOrCreateVar value s = Ok (id, s') -> keysKept s s'.
Proof.
  intros H. destruct (findOrCreateVar_inv _ _ _ _ H) as [w _ _ -> | _ _ ->];
    [apply incl_refl|].
  intros k Hk. cbn [globalVars]. apply obj_keys_set_In. now right.
Qed.

Lemma keysKept_register parent simplified s s' :
  registerVector parent simplified s = Ok (tt, s') -> keysKept s s'.
Proof.
  intros H. apply registerVector_inv in H. destruct H as (vid & s1 & Hf & H).
  apply keysKept_find in Hf. destruct parent as [p|]; [|now subst].
  apply recordVectorParent_inv in H. destruct H as (vp & _ & _ & ->).
  eapply keysKept_trans; [exact Hf|].
  intros k Hk. cbn [globalVars]. apply obj_keys_set_In. now right.
Qed.

Lemma sameRun_keysKept s s' : sameRun s s' -> keysKept s s'.
Proof.
  apply (sameRun_preserves keysKept).
  - apply keysKept_refl.
  - apply keysKept_trans.
  - apply keysKept_find.
  - apply keysKept_register.
Qed.

Lemma refsBound_kept x s s' : keysKept s s' -> refsBound x s -> refsBound x s'.
Proof.
  intros Hk Hb key v Hkey Hget. destruct (Hb key v Hkey Hget) as (id & -> & Hin).
  exists id. split; [reflexivity | now apply Hk].
Qed.

Lemma refsBound_find key value x s id s' :
  findOrCreateVar value s = Ok (id, s') ->
  refsBound x s -> refsBound (obj_set key (JStr id) x) s'.
Proof.
  intros Hf Hb key' v Hkey Hget.
  destruct (String.eqb_spec key' key) as [->|Hne].
  - rewrite obj_get_set_same in Hget. injection Hget as <-.
    exists id. split; [reflexivity|].
    destruct (findOrCreateVar_bound _ _ _ _ Hf) as (w & Hin & _).
    now apply (in_map fst) in Hin.
  - rewrite obj_get_set_other in Hget by assumption.
    apply (refsBound_kept x s s' (keysKept_find _ _ _ _ Hf) Hb key' v Hkey Hget).
Qed.

Lemma refsBound_sets keys x x' s :
  setsOnly keys x x' -> (forall k, In k keys -> ~ In k referenceKeys) ->
  refsBound x s -> refsBound x' s.
Proof.
  intros Hsets Hkeys Hb key v Hkey Hget.
  rewrite (setsOnly_get _ _ _ key Hsets) in Hget; [eauto|].
  intros Hin. now apply (Hkeys key).
Qed.

Lemma parseOwnFields_refsBound n parent s simplified s' :
  parseOwnFields n parent s = Ok (simplified, s') -> refsBound simplified s'.
Proof.
  intros H. apply parseOwnFields_steps in H.
  destruct H as (x1 & s1 & x2 & s2 & x3 & s3 & x4 & s4 & x5 & s5 & x6
                 & H1 & H2 & H3 & H4 & H5 & H6 & ->).
  assert (B0 : refsBound [("id", JStr n.(n_id)); ("type", JStr n.(n_type))] s).
  { intros key v Hkey Hget. simpl in Hkey.
    destruct Hkey as [<-|[<-|[<-|[<-|[<-|[<-|[]]]]]]]; discriminate Hget. }
  assert (B1 : refsBound x1 s1).
  { unfold parseTextStyle in H1.
    destruct (hasValue (rawField (n_style n)) None
              && negb (Object_keys_length (n_style n) =? 0));
      monad_inv H1; eauto using refsBound_find. }
  assert (B2 : refsBound x2 s2).
  { apply parsePaints_cases in H2. destruct (n_fills n) as [[|raw rest]|];
      try (destruct H2 as [-> ->]; exact B1).
    destruct H2 as (normalized & id & _ & Hf & ->). eauto using refsBound_find. }
  assert (B3 : refsBound x3 s3).
  { unfold parseStyles in H3.
    destruct (hasValue (rawField (n_styles n)) None);
      monad_inv H3; eauto using refsBound_find. }
  assert (B4 : refsBound x4 s4).
  { apply parsePaints_cases in H4. destruct (n_strokes n) as [[|raw rest]|];
      try (destruct H4 as [-> ->]; exact B3).
    destruct H4 as (normalized & id & _ & Hf & ->). eauto using refsBound_find. }
  assert (B5 : refsBound x5 s5).
  { unfold parseLayout in H5. cbv zeta in H5.
    destruct (1 <? Object_keys_length (buildSimplifiedLayout n parent));
      monad_inv H5; eauto using refsBound_find. }
  assert (B5' : refsBound (parseSimpleProps n x5) s5).
  { eapply refsBound_sets; [apply parseSimpleProps_sets | | exact B5].
    intros k Hk Hr. simpl in Hk, Hr. intuition congruence. }
  assert (B6 : refsBound x6 s').
  { unfold parseStrokeWeights in H6.
    destruct (hasValue (n_individualStrokeWeights n) (Some isStrokeWeights));
      [destruct (n_individualStrokeWeights n)|];
      monad_inv H6; eauto using refsBound_find. }
  eapply refsBound_sets; [apply parseOpacityRadius_sets | | exact B6].
  intros k Hk Hr. simpl in Hk, Hr. intuition congruence.
Qed.

(** X20. The references of a node resolve.  Each of [textStyle], [fills],
    [styles], [strokes], [layout] and [individualStrokeWeights] is, in the
    node [parseNode] returns, either missing or an identifier that is a key
    of the store at that moment; and no step of the walk removes a key, so
    the identifier is still a key of every later store of the same run,
    up to the grouping pass. *)
Theorem references_are_bound :
  forall n parent s node s',
    parseNode n parent s = Ok (Some node, s') ->
    forall key,
      In key referenceKeys ->
      jget key node = JUndefined
      \/ exists id,
           jget key node = JStr id
           /\ In id (obj_keys s'.(globalVars))
           /\ forall s2, sameRun s' s2 -> In id (obj_keys s2.(globalVars)).
Proof.
  intros n parent s node s' H key Hkey.
  assert (Hk : key <> "children").
  { intros ->. simpl in Hkey. intuition discriminate. }
  destruct (parseNode_own_field _ _ _ _ _ key H Hk) as (simplified0 & s0 & Hown & Hget).
  pose proof (parseOwnFields_refsBound _ _ _ _ _ Hown) as Hb.
  assert (Hkept : keysKept s0 s').
  { apply parseNode_output in H.
    destruct H as (x & sa & children & s1 & _ & Hown' & Hm & Hv & _).
    rewrite Hown in Hown'. injection Hown' as <- <-.
    apply sameRun_mapM_parseNode, sameRun_keysKept in Hm.
    eapply keysKept_trans; [exact Hm|].
    destruct (String.eqb (n_type n) "VECTOR"); [|subst; apply keysKept_refl].
    eapply keysKept_register; eauto. }
  rewrite Hget. destruct (obj_get key simplified0) as [v|] eqn:E; [|now left].
  destruct (Hb key v Hkey E) as (id & -> & Hin). right. exists id.
  split; [reflexivity|]. split; [now apply Hkept|].
  intros s2 Hrun. apply (sameRun_keysKept _ _ Hrun). now apply Hkept.
Qed.

(* ================================================================== *)
(** * Further properties: the properties copied from the raw node *)
(* ================================================================== *)

Lemma parseOwnFields_copied n parent s simplified s' :
  parseOwnFields n parent s = Ok (simplified, s') ->
  obj_get "text" simplified
  = match n.(n_characters) with
    | Some text => if isTruthy text then Some (JStr text) else None
    | None => None
    end
  /\ obj_get "strokeDashes" simplified
     = match n.(n_strokeDashes) with
       | Some (d :: ds) => Some (JArr (map JNum (d :: ds)))
       | _ => None
       end
  /\ obj_get "opacity" simplified
     = match n.(n_opacity) with Some o => Some (JNum o) | None => None end
  /\ obj_get "borderRadius" simplified
     = match n.(n_cornerRadius) with
       | Some radius => Some (JStr (String.append (numberToString radius) "px"))
       | None => None
       end.
Proof.
  intros H. apply parseOwnFields_steps in H.
  destruct H as (x1 & s1 & x2 & s2 & x3 & s3 & x4 & s4 & x5 & s5 & x6
                 & H1 & H2 & H3 & H4 & H5 & H6 & ->).
  apply parseTextStyle_sets in H1. apply parsePaints_sets in H2.
  apply parseStyles_sets in H3. apply parsePaints_sets in H4.
  apply parseLayout_sets in H5. apply parseStrokeWeights_sets in H6.
  assert (Hx5 : forall k, ~ In k ["id"; "type"; "textStyle"; "fills"; "styles"; "strokes";
                                  "layout"] -> obj_get k x5 = None).
  { intros k Hk.
    rewrite (setsOnly_get _ _ _ k H5) by (simpl in *; intuition congruence).
    rewrite (setsOnly_get _ _ _ k H4) by (simpl in *; intuition congruence).
    rewrite (setsOnly_get _ _ _ k H3) by (simpl in *; intuition congruence).
    rewrite (setsOnly_get _ _ _ k H2) by (simpl in *; intuition congruence).
    rewrite (setsOnly_get _ _ _ k H1) by (simpl in *; intuition congruence).
    cbn [obj_get].
    destruct (String.eqb_spec "id" k); [exfalso; apply Hk; simpl; auto|].
    destruct (String.eqb_spec "type" k); [exfalso; apply Hk; simpl; auto | reflexivity]. }
  assert (Hsimple : obj_get "text" (parseSimpleProps n x5)
                    = match n.(n_characters) with
                      | Some text => if isTruthy text then Some (JStr text) else None
                      | None => None
                      end
                    /\ obj_get "strokeDashes" (parseSimpleProps n x5)
                       = match n.(n_strokeDashes) with
                         | Some (d :: ds) => Some (JArr (map JNum (d :: ds)))
                         | _ => None
                         end
                    /\ obj_get "opacity" (parseSimpleProps n x5) = None
                    /\ obj_get "borderRadius" (parseSimpleProps n x5) = None).
  { unfold parseSimpleProps. cbv zeta.
    set (x1' := if hasValue (n_characters n) (Some isTruthy)
                then match n_characters n with
                     | Some text => obj_set "text" (JStr text) x5
                     | None => x5
                     end
                else x5).
    assert (T1 : obj_get "text" x1'
                 = match n.(n_characters) with
                   | Some text => if isTruthy text then Some (JStr text) else None
                   | None => None
                   end).
    { subst x1'. destruct (n_characters n) as [text|]; cbn [hasValue].
      - destruct (isTruthy text); [apply obj_get_set_same|].
        apply Hx5. simpl; intuition discriminate.
      - apply Hx5. simpl; intuition discriminate. }
    assert (O1 : forall k, k <> "text" -> obj_get k x1' = obj_get k x5).
    { intros k Hk. subst x1'.
      destruct (hasValue (n_characters n) (Some isTruthy)); [|reflexivity].
      destruct (n_characters n); [|reflexivity]. now apply obj_get_set_other. }
    set (x2' := if hasValue (n_strokeWeight n) None && strokesLength x1'
                then match n_strokeWeight n with
                     | Some w => obj_set "strokeWeight" (JNum w) x1'
                     | None => x1'
                     end
                else x1').
    assert (O2 : forall k, k <> "strokeWeight" -> obj_get k x2' = obj_get k x1').
    { intros k Hk. subst x2'.
      destruct (hasValue (n_strokeWeight n) None && strokesLength x1'); [|reflexivity].
      destruct (n_strokeWeight n); [|reflexivity]. now apply obj_get_set_other. }
    assert (D : obj_get "strokeDashes" x2' = None).
    { rewrite O2, O1 by discriminate. apply Hx5. simpl; intuition discriminate. }
    set (x3' := if hasValue (n_strokeDashes n) None
                   && nonEmptyList (fieldOr [] (n_strokeDashes n))
                then obj_set "strokeDashes"
                       (JArr (map JNum (fieldOr [] (n_strokeDashes n)))) x2'
                else x2').
    assert (O3 : forall k, k <> "strokeDashes" -> obj_get k x3' = obj_get k x2').
    { intros k Hk. subst x3'.
      destruct (hasValue (n_strokeDashes n) None
                && nonEmptyList (fieldOr [] (n_strokeDashes n))); [|reflexivity].
      now apply obj_get_set_other. }
    split; [rewrite O3, O2 by discriminate; exact T1|].
    split.
    { subst x3'. destruct (n_strokeDashes n) as [[|d ds]|]; cbn [hasValue fieldOr andb].
      - exact D.
      - change (nonEmptyList (d :: ds)) with true. cbv iota. apply obj_get_set_same.
      - exact D. }
    split; rewrite O3, O2, O1 by discriminate; apply Hx5; simpl; intuition discriminate. }
  destruct Hsimple as (T & D & O & B).
  assert (Hx6 : forall k, k <> "individualStrokeWeights" ->
                          obj_get k x6 = obj_get k (parseSimpleProps n x5)).
  { intros k Hk. apply (setsOnly_get _ _ _ k H6). simpl; intuition congruence. }
  unfold parseOpacityRadius. cbv zeta.
  set (y := if hasValue (n_opacity n) None
            then match n_opacity n with
                 | Some o => obj_set "opacity" (JNum o) x6
                 | None => x6
                 end
            else x6).
  assert (Y : forall k, k <> "opacity" -> obj_get k y = obj_get k x6).
  { intros k Hk. subst y. destruct (hasValue (n_opacity n) None); [|reflexivity].
    destruct (n_opacity n); [|reflexivity]. now apply obj_get_set_other. }
  assert (YO : obj_get "opacity" y
               = match n.(n_opacity) with Some o => Some (JNum o) | None => None end).
  { subst y. destruct (n_opacity n) as [o|]; cbn [hasValue].
    - apply obj_get_set_same.
    - rewrite Hx6 by discriminate. exact O. }
  destruct (n_cornerRadius n) as [radius|]; cbn [hasValue].
  - rewrite obj_get_set_same. rewrite !obj_get_set_other by discriminate.
    rewrite (Y "text"), (Y "strokeDashes"), (Hx6 "text"), (Hx6 "strokeDashes")
      by discriminate.
    auto.
  - rewrite (Y "text"), (Y "strokeDashes"), (Y "borderRadius"),
      (Hx6 "text"), (Hx6 "strokeDashes"), (Hx6 "borderRadius") by discriminate.
    auto.
Qed.

(** X21. The properties a node copies from the raw node come through the
    later blocks and the pruning unchanged: [opacity] is the raw opacity
    whenever there is one, zero included; [borderRadius] is the raw corner
    radius followed by [px]; [text] is the raw characters when they are not
    the empty string; [strokeDashes] is the raw list when it is not empty;
    and each is missing otherwise. *)
Theorem copied_properties :
  forall n parent s node s',
    parseNode n parent s = Ok (Some node, s') ->
    jget "opacity" node
    = match n.(n_opacity) with Some o => JNum o | None => JUndefined end
    /\ jget "borderRadius" node
       = match n.(n_cornerRadius) with
         | Some radius => JStr (String.append (numberToString radius) "px")
         | None => JUndefined
         end
    /\ jget "text" node
       = match n.(n_characters) with
         | Some (String c rest) => JStr (String c rest)
         | _ => JUndefined
         end
    /\ jget "strokeDashes" node
       = match n.(n_strokeDashes) with
         | Some (d :: ds) => JArr (map JNum (d :: ds))
         | _ => JUndefined
         end.
Proof.
  intros n parent s node s' H.
  assert (Hfield : forall k, k <> "children" ->
             exists simplified0 s0,
               parseOwnFields n parent s = Ok (simplified0, s0)
               /\ jget k node
                  = match obj_get k simplified0 with
                    | Some v => if isEmptyValue (removeEmptyKeys v)
                                then JUndefined else removeEmptyKeys v
                    | None => JUndefined
                    end)
    by (intros k Hk; eapply parseNode_own_field; eauto).
  destruct (Hfield "opacity" ltac:(discriminate)) as (x & s0 & Hown & ->).
  destruct (Hfield "borderRadius" ltac:(discriminate)) as (x' & s0' & Hown' & ->).
  rewrite Hown in Hown'. injection Hown' as <- <-.
  destruct (Hfield "text" ltac:(discriminate)) as (x' & s0' & Hown' & ->).
  rewrite Hown in Hown'. injection Hown' as <- <-.
  destruct (Hfield "strokeDashes" ltac:(discriminate)) as (x' & s0' & Hown' & ->).
  rewrite Hown in Hown'. injection Hown' as <- <-.
  destruct (parseOwnFields_copied _ _ _ _ _ Hown) as (-> & -> & -> & ->).
  repeat split.
  - now destruct (n_opacity n).
  - now destruct (n_cornerRadius n).
  - now destruct (n_characters n) as [[|c rest]|].
  - destruct (n_strokeDashes n) as [[|d ds]|]; try reflexivity.
    assert (E : forall l, map removeEmptyKeys (map JNum l) = map JNum l)
      by (intros l; rewrite map_map; reflexivity).
    change (removeEmptyKeys (JArr (map JNum (d :: ds))))
      with (JArr (map removeEmptyKeys (map JNum (d :: ds)))).
    rewrite E. reflexivity.
Qed.

(* ================================================================== *)
(** * Further properties: how the store compares payloads *)
(* ================================================================== *)

(** X22. The lookup of [findOrCreateVar] returns the first match: when the
    store, read in the order of its keys, has an entry whose payload
    serializes like the value and no entry before it does, the key of that
    entry is returned and the store is left as it is, whatever comes after
    it and whatever the entry is (the [vectorParents] bucket too). *)
Theorem findOrCreateVar_first_match :
  forall (value : JValue) (s : Store) (before after : list (string * JValue))
         (k : string) (w : JValue),
    s.(globalVars) = before ++ (k, w) :: after ->
    JSON_stringify w = JSON_stringify value ->
    (forall k' w', In (k', w') before -> JSON_stringify w' <> JSON_stringify value) ->
    k <> "" ->
    findOrCreateVar value s = Ok (k, s).
Proof.
  intros value s before after k w Hvars Hw Hbefore Hk.
  apply (findOrCreateVar_hit value s k w); [|exact Hk].
  unfold findExisting. rewrite Hvars, find_append.
  rewrite find_all_false.
  - simpl. apply sameJSON_eq in Hw. now rewrite Hw.
  - intros [k' w'] Hin. simpl.
    destruct (sameJSON w' value) eqn:E; [|reflexivity].
    apply sameJSON_eq in E. exfalso. exact (Hbefore k' w' Hin E).
Qed.

Lemma JSON_stringify_None v : JSON_stringify v = None <-> v = JUndefined.
Proof. destruct v; simpl; split; congruence. Qed.

Lemma stringifyMembers_defined props :
  stringifyMembers JSON_stringify
    (filter (fun kv => negb (is_undefined (snd kv))) props)
  = stringifyMembers JSON_stringify props.
Proof.
  induction props as [|[k v] rest IH]; [reflexivity|].
  destruct v; simpl; now rewrite IH.
Qed.

(** X23. The store compares payloads by their JSON text, so it cannot tell
    a property whose value is undefined from a property that is missing,
    nor an undefined array element from null: a payload and the same
    payload without its undefined properties get the same identifier, one
    looked up right after the other, and the second call allocates
    nothing. *)
Theorem store_ignores_undefined :
  forall (s : Store) (props : list (string * JValue)) (items : list JValue),
    ~ In "" (obj_keys s.(globalVars)) ->
    (exists id s1,
       findOrCreateVar (JObj props) s = Ok (id, s1)
       /\ findOrCreateVar
            (JObj (filter (fun kv => negb (is_undefined (snd kv))) props)) s1
          = Ok (id, s1))
    /\ (exists id s1,
          findOrCreateVar (JArr items) s = Ok (id, s1)
          /\ findOrCreateVar
               (JArr (map (fun x => if is_undefined x then JNull else x) items)) s1
             = Ok (id, s1)).
Proof.
  intros s props items Hkeys. split.
  - destruct (findOrCreateVar_total (JObj props) s) as (id & s1 & H).
    exists id, s1. split; [exact H|].
    apply (findOrCreateVar_twice s (JObj props) _ id s1 Hkeys); [|exact H].
    simpl. now rewrite stringifyMembers_defined.
  - destruct (findOrCreateVar_total (JArr items) s) as (id & s1 & H).
    exists id, s1. split; [exact H|].
    apply (findOrCreateVar_twice s (JArr items) _ id s1 Hkeys); [|exact H].
    simpl. do 2 f_equal. rewrite map_map. apply map_ext.
    intros x. now destruct x.
Qed.

(* ================================================================== *)
(** * Further properties: styles, layout and stroke weights *)
(* ================================================================== *)

(** X24. The [styles], the [layout] and the [individualStrokeWeights] of a
    node, on the stores of its own pass.  A raw [styles] value that is
    neither undefined nor null is registered as it is; the layout the
    layout builder returns is registered when it has more than one key and
    dropped otherwise; the four raw stroke weights are registered as an
    object of [top], [right], [bottom] and [left].  In each case the node
    holds the identifier that [findOrCreateVar] returns for the payload on
    the store reached just before, and no inline value; when there is
    nothing to register the node holds nothing and the store is as it
    was. *)
Theorem objects_registered :
  forall n parent s node s',
    parseNode n parent s = Ok (Some node, s') ->
    exists s1 s2 s3 s4 s5 s6,
      ownFieldStores n parent s s1 s2 s3 s4 s5 s6
      /\ (if is_undefined n.(n_styles) || is_null n.(n_styles)
          then notRegistered (jget "styles" node) s2 s3
          else registeredAt n.(n_styles) (jget "styles" node) s2 s3)
      /\ (if 1 <? Object_keys_length (buildSimplifiedLayout n parent)
          then registeredAt (buildSimplifiedLayout n parent) (jget "layout" node) s4 s5
          else notRegistered (jget "layout" node) s4 s5)
      /\ match n.(n_individualStrokeWeights) with
         | Some w =>
             registeredAt (strokeWeightsOf w) (jget "individualStrokeWeights" node) s5 s6
         | None => notRegistered (jget "individualStrokeWeights" node) s5 s6
         end.
Proof.
  intros n parent s node s' H.
  destruct (parseNode_output _ _ _ _ _ H) as (simplified0 & s0 & _ & _ & _ & Hown & _).
  destruct (parseOwnFields_registrations _ _ _ _ _ Hown)
    as (s1 & s2 & s3 & s4 & s5 & Hstores & _ & Hstyles & _ & Hlayout & Hweights).
  exists s1, s2, s3, s4, s5, s0. split; [exact Hstores|].
  rewrite (parseNode_reference _ _ _ _ _ _ _ "styles" H Hown);
    [|discriminate
     |destruct (is_undefined (n_styles n) || is_null (n_styles n));
      [eapply notRegistered_cases | eapply registeredAt_cases]; eauto].
  rewrite (parseNode_reference _ _ _ _ _ _ _ "layout" H Hown);
    [|discriminate
     |destruct (1 <? Object_keys_length (buildSimplifiedLayout n parent));
      [eapply registeredAt_cases | eapply notRegistered_cases]; eauto].
  rewrite (parseNode_reference _ _ _ _ _ _ _ "individualStrokeWeights" H Hown);
    [|discriminate
     |destruct (n_individualStrokeWeights n);
      [eapply registeredAt_cases | eapply notRegistered_cases]; eauto].
  repeat split; assumption.
Qed.

End Engine.

(* ================================================================== *)
(** * Concrete runs *)
(* ================================================================== *)

#[local] Set Warnings "-notation-for-abbreviation".

Notation sampleWalk := (walkRoots trivialLayout sampleNumberToString countingRandom).

Notation sampleRun :=
  (simplifyRoots trivialLayout sampleNumberToString countingRandom "file" "today").

(** Outside the range of C5 nothing in [convertColor] clamps: a paint
    opacity of 2, which no Figma paint carries, would yield 2, not 1. *)
Example convertColor_out_of_range :
  unitRange (r (mkRGBA 0 0 0 1)) /\ unitRange (g (mkRGBA 0 0 0 1)) /\
  unitRange (b (mkRGBA 0 0 0 1)) /\ unitRange (a (mkRGBA 0 0 0 1)) /\
  (opacity (convertColor (mkRGBA 0 0 0 1) (Some 2%Q)) == 2)%Q /\
  (spec_opacity (mkRGBA 0 0 0 1) 2 == 1)%Q /\
  ~ (opacity (convertColor (mkRGBA 0 0 0 1) (Some 2%Q)) == spec_opacity (mkRGBA 0 0 0 1) 2)%Q.
Proof.
  unfold unitRange. simpl.
  repeat split; try (vm_compute; congruence).
Qed.


Example twoFrames_run :
  sampleRun twoFrames
  = Ok (mkSimplifiedDesign "file" "today"
          [imageStub "1:2"; imageStub "1:5"]
          [("childrenToParents",
            JObj [("var_ABCDEF", JArr [JStr "1:2"; JStr "1:5"])])]).
Proof. vm_compute. reflexivity. Qed.

(** ** C1 *)

(** C1 as stated fails in two ways.  The identifier of a payload is lost
    when the generator repeats it for another payload: here "x" is
    registered, "y" is given the same identifier, and "x" then gets a new
    one.  And a payload that serializes like the bookkeeping bucket is given
    the bucket's key while the bucket is empty and a minted identifier once
    it is not: the two nodes with [styles: {}] get different references. *)
Lemma findOrCreateVar_not_content_addressed :
  (id1 <- findOrCreateVar repeatingRandom (JStr "x") ;;
   id2 <- findOrCreateVar repeatingRandom (JStr "y") ;;
   id3 <- findOrCreateVar repeatingRandom (JStr "x") ;;
   ret (id1, id2, id3)) initialStore
  = Ok (("var_AAAAAA", "var_AAAAAA", "var_BBBBBB"),
        mkStore [("vectorParents", JObj []); ("var_AAAAAA", JStr "y");
                 ("var_BBBBBB", JStr "x")] 18)
  /\ map (jget "styles") (walkNodes (sampleWalk emptyStylesAroundVector))
     = [JStr "vectorParents"; JUndefined; JStr "var_GHIJKL"]
  /\ "var_AAAAAA" <> "var_BBBBBB"
  /\ JStr "vectorParents" <> JStr "var_GHIJKL".
Proof.
  split; [vm_compute; reflexivity|].
  split; [vm_compute; reflexivity|].
  split; discriminate.
Qed.

Lemma findOrCreateVar_content_addressed_witness :
  findOrCreateVar countingRandom (JStr "x")
    (mkStore [("vectorParents", JObj []); ("var_ABCDEF", JStr "x")] 6)
  = Ok ("var_ABCDEF", mkStore [("vectorParents", JObj []); ("var_ABCDEF", JStr "x")] 6).
Proof.
  refine (proj1 (findOrCreateVar_content_addressed
                   trivialLayout sampleNumberToString countingRandom
                   initialStore (JStr "x") (JStr "x") "var_ABCDEF"
                   (mkStore [("vectorParents", JObj []); ("var_ABCDEF", JStr "x")] 6)
                   _ eq_refl eq_refl)).
  simpl. intros [H | []]. discriminate H.
Defined.

(** ** C3 *)



(** ** C4 *)

(** C4 as stated fails: the variable minted for the vector payload is in
    the store when the walk ends, it is not the bucket, and it is not a key
    of the returned [globalVars]: the grouping pass deletes it. *)
Lemma vector_variable_removed :
  obj_get "var_ABCDEF" (walkVars (sampleWalk twoFrames))
  = Some (JObj [("type", JStr "VECTOR")])
  /\ "var_ABCDEF" <> "vectorParents"
  /\ isOk (sampleRun twoFrames) = true
  /\ obj_get "var_ABCDEF" (resultVars (sampleRun twoFrames)) = None.
Proof.
  split; [vm_compute; reflexivity|].
  split; [discriminate|].
  split; vm_compute; reflexivity.
Qed.

Lemma bindings_survive_run_witness :
  obj_get "vectorParents" (resultVars (sampleRun emptyStylesAroundVector)) = None
  /\ obj_get "var_ABCDEF" (resultVars (sampleRun emptyStylesAroundVector)) = None
  /\ obj_get "var_GHIJKL" (resultVars (sampleRun emptyStylesAroundVector)) = Some (JObj []).
Proof.
  pose (s := mkStore
               [("vectorParents",
                 JObj [("1:2", vectorParentRecord (bareNode "1:2" "FRAME" []) "var_ABCDEF")]);
                ("var_ABCDEF", JObj [("type", JStr "VECTOR")]);
                ("var_GHIJKL", JObj [])] 12).
  pose (nodes := walkNodes (sampleWalk emptyStylesAroundVector)).
  assert (Hwalk : sampleWalk emptyStylesAroundVector = Ok (nodes, s)) by reflexivity.
  destruct (bindings_survive_run
              trivialLayout sampleNumberToString countingRandom "file" "today"
              emptyStylesAroundVector nodes s
              (mkSimplifiedDesign "file" "today"
                 (resultNodes (sampleRun emptyStylesAroundVector))
                 (resultVars (sampleRun emptyStylesAroundVector)))
              Hwalk eq_refl)
    as (vp & Hvp & Hnone & Hremoved & Hkept).
  simpl in Hvp. injection Hvp as <-.
  split; [exact Hnone|]. split.
  - apply Hremoved. simpl. now left.
  - apply (Hkept s).
    + exact (walkRoots_sameRun _ _ _ _ _ _ Hwalk).
    + apply run_here.
    + reflexivity.
    + discriminate.
    + apply mintedBetween_same.
    + simpl. intros [H | []]. discriminate H.
Defined.

Lemma unknown_paint_type_aborts_witness :
  parsePaint emojiPaint = Err (UnknownPaintType "EMOJI")
  /\ mapR parsePaint [solidRed; emojiPaint; solidRed] = Err (UnknownPaintType "EMOJI").
Proof.
  pose proof (unknown_paint_type_aborts
                trivialLayout sampleNumberToString countingRandom emojiPaint eq_refl)
    as (Hpaint & _ & Hlist & _).
  split; [exact Hpaint|].
  exact (Hlist [solidRed] [solidRed] _ eq_refl).
Defined.

Example unknown_paint_run :
  simplifyRoots trivialLayout sampleNumberToString countingRandom "file" "today"
    [bareNode "1:1" "FRAME"
       [mkRawNode "1:2" "r" "RECTANGLE" None JUndefined (Some [solidRed; emojiPaint])
                  JUndefined None None None None None None None []]]
  = Err (UnknownPaintType "EMOJI").
Proof. vm_compute. reflexivity. Qed.

(** ** C9 *)

Lemma missing_parent_skipped_witness :
  exists design,
    sampleRun nestedFrames = Ok design
    /\ exists childrenToParents,
         obj_get "childrenToParents" design.(sd_globalVars)
         = Some (childrenToParents_toJ childrenToParents)
         /\ In "1:4" (groupOf "var_ABCDEF" childrenToParents).
Proof.
  pose (nodes := walkNodes (sampleWalk nestedFrames)).
  pose (s := mkStore
               [("vectorParents",
                 JObj [("1:2", vectorParentRecord (bareNode "1:2" "FRAME" []) "var_ABCDEF");
                       ("1:4", vectorParentRecord (bareNode "1:4" "FRAME" []) "var_ABCDEF")]);
                ("var_ABCDEF", JObj [("type", JStr "VECTOR")])] 6).
  assert (Hwalk : sampleWalk nestedFrames = Ok (nodes, s)) by reflexivity.
  destruct (missing_parent_skipped
              trivialLayout sampleNumberToString countingRandom "file" "today"
              nestedFrames nodes s Hwalk)
    as (vp & design & c2p & Hvp & Hrun & Hc2p & _ & Hlisted & _).
  exists design. split; [exact Hrun|]. exists c2p. split; [exact Hc2p|].
  simpl in Hvp. injection Hvp as <-.
  destruct (Hlisted "1:4" (vectorParentRecord (bareNode "1:4" "FRAME" []) "var_ABCDEF"))
    as (cid & Hcid & Hin).
  - simpl. auto.
  - injection Hcid as <-. exact Hin.
Defined.

(** The nested frame 1:4 is recorded and listed, but when its turn comes the
    outer frame is already a stub: the search finds nothing and the result
    holds the one stub. *)
Example nestedFrames_run :
  findNodeById "1:4" (rewriteParent (walkNodes (sampleWalk nestedFrames)) "1:2") = None
  /\ sampleRun nestedFrames
     = Ok (mkSimplifiedDesign "file" "today"
             [imageStub "1:2"]
             [("childrenToParents",
               JObj [("var_ABCDEF", JArr [JStr "1:2"; JStr "1:4"])])]).
Proof. split; vm_compute; reflexivity. Qed.

Example hidden_child_run :
  sampleRun [bareNode "1:1" "FRAME"
               [bareNode "1:2" "RECTANGLE" [];
                hiddenNode "1:3" "FRAME" [bareNode "1:4" "VECTOR" []];
                bareNode "1:5" "TEXT" []]]
  = Ok (mkSimplifiedDesign "file" "today"
          [JObj [("id", JStr "1:1"); ("type", JStr "FRAME");
                 ("children",
                  JArr [JObj [("id", JStr "1:2"); ("type", JStr "RECTANGLE")];
                        JObj [("id", JStr "1:5"); ("type", JStr "TEXT")]])]]
          [("childrenToParents", JObj [])]).
Proof. vm_compute. reflexivity. Qed.

Example text_styles_run :
  sampleRun [textNode "1:1" (JObj [("fontSize", JNum 12); ("letterSpacing", JNum 0)]);
             textNode "1:2" (JObj [("fontSize", JNum 12); ("letterSpacing", JNum 2);
                                   ("lineHeightPx", JNum 14)])]
  = Ok (mkSimplifiedDesign "file" "today"
          [JObj [("id", JStr "1:1"); ("type", JStr "TEXT");
                 ("textStyle", JStr "var_ABCDEF"); ("text", JStr "hello")];
           JObj [("id", JStr "1:2"); ("type", JStr "TEXT");
                 ("textStyle", JStr "var_GHIJKL"); ("text", JStr "hello")]]
          [("var_ABCDEF",
            JObj [("fontFamily", JUndefined); ("fontWeight", JUndefined);
                  ("fontSize", JNum 12); ("lineHeight", JNum 12);
                  ("letterSpacing", JUndefined); ("textCase", JUndefined);
                  ("textAlignHorizontal", JUndefined); ("textAlignVertical", JUndefined)]);
           ("var_GHIJKL",
            JObj [("fontFamily", JUndefined); ("fontWeight", JUndefined);
                  ("fontSize", JNum 12); ("lineHeight", JNum 14);
                  ("letterSpacing", JNum 2); ("textCase", JUndefined);
                  ("textAlignHorizontal", JUndefined); ("textAlignVertical", JUndefined)]);
           ("childrenToParents", JObj [])]).
Proof. vm_compute. reflexivity. Qed.

Example last_vector_child_run :
  obj_get "1:2" (match obj_get "vectorParents" (walkVars (sampleWalk twoFramesThreeVectors)) with
                 | Some (JObj bucket) => bucket
                 | _ => []
                 end)
  = Some (vectorParentRecord (bareNode "1:2" "FRAME" []) "var_MNOPQR")
  /\ obj_get "var_MNOPQR" (walkVars (sampleWalk twoFramesThreeVectors))
     = Some (JObj [("type", JStr "VECTOR"); ("styles", JStr "var_GHIJKL")]).
Proof. split; vm_compute; reflexivity. Qed.

(* ================================================================== *)
(** * Concrete runs of the further properties *)
(* ================================================================== *)

Notation sampleNode n :=
  (parseNode trivialLayout sampleDecimal countingRandom n None initialStore).

Ltac unit_range :=
  match goal with |- unitRange _ => split; unfold Qle; simpl; lia end.

Lemma removeEmptyKeys_member_witness :
  ownProperty "opacity"
    (removeEmptyKeys (JObj [("opacity", JNum 0); ("__proto__", JObj [("x", JNum 1)]);
                            ("children", JArr [])]))
  = Some (JNum 0)
  /\ ownProperty "__proto__"
       (removeEmptyKeys (JObj [("opacity", JNum 0); ("__proto__", JObj [("x", JNum 1)]);
                               ("children", JArr [])]))
     = None.
Proof.
  assert (Hnd : NoDup (obj_keys [("opacity", JNum 0); ("__proto__", JObj [("x", JNum 1)]);
                                 ("children", JArr [])])).
  { repeat constructor; simpl; intuition discriminate. }
  assert (Hk : "opacity" <> "__proto__") by discriminate.
  pose proof (removeEmptyKeys_member _ "opacity" (JNum 0) Hnd eq_refl Hk) as H.
  split; [|exact (proj2 (proj2 (proj2 (proj2 H))))].
  apply (proj1 (proj2 H)). left. split; [reflexivity | discriminate].
Defined.

Lemma convertColor_hex_format_witness :
  hex (convertColor orange None) = "#FF8000".
Proof.
  destruct (convertColor_hex_format orange None) as (_ & _ & _ & Hhex & _);
    try unit_range.
  rewrite Hhex. reflexivity.
Defined.

Lemma hexToRgba_convertColor_witness :
  hexToRgba sampleDecimal (hex (convertColor orange (Some 1%Q)))
            (Some (opacity (convertColor orange (Some 1%Q))))
  = "rgba(255, 128, 0, 1)".
Proof.
  destruct (hexToRgba_convertColor sampleDecimal orange 1%Q) as (Hround & _);
    try unit_range.
  rewrite Hround. reflexivity.
Defined.

Lemma findOrCreateVar_frame_witness :
  exists id s',
    findOrCreateVar countingRandom (JStr "x") initialStore = Ok (id, s')
    /\ obj_get "vectorParents" s'.(globalVars) = Some (JObj [])
    /\ exists w, obj_get id s'.(globalVars) = Some w.
Proof.
  destruct (findOrCreateVar_frame countingRandom (JStr "x") initialStore)
    as (id & s' & Hcall & (w & Hbound & _) & Hframe & _).
  { repeat constructor; simpl; intuition discriminate. }
  exists id, s'. split; [exact Hcall|]. split; [|exists w; exact Hbound].
  rewrite Hframe; [reflexivity|].
  intros <-. vm_compute in Hcall. discriminate Hcall.
Defined.

Lemma parseNode_node_witness :
  match sampleNode (bareNode "3:1" "FRAME" [hiddenNode "3:2" "VECTOR" []]) with
  | Ok (Some node, _) =>
      jget "id" node = JStr "3:1" /\ jget "children" node = JUndefined
  | _ => False
  end.
Proof.
  destruct (sampleNode (bareNode "3:1" "FRAME" [hiddenNode "3:2" "VECTOR" []]))
    as [[[node|] s']|e] eqn:H; try (vm_compute in H; discriminate H).
  destruct (parseNode_node _ _ _ _ _ _ _ _ H) as (_ & Hnode).
  destruct (Hnode node eq_refl) as (Hid & _ & Hchildren & _).
  split; [exact Hid|]. apply Hchildren. reflexivity.
Defined.

Lemma run_keeps_top_level_witness :
  match parseFigmaFileResponse trivialLayout sampleNumberToString countingRandom
          (mkGetFileResponse "file" "today" (hiddenNode "0:0" "DOCUMENT" partlyHidden)) with
  | Ok design =>
      design.(sd_name) = "file"
      /\ map (jget "id") design.(sd_nodes) = [JStr "3:1"; JStr "3:4"]
  | Err _ => False
  end.
Proof.
  destruct (parseFigmaFileResponse trivialLayout sampleNumberToString countingRandom
              (mkGetFileResponse "file" "today" (hiddenNode "0:0" "DOCUMENT" partlyHidden)))
    as [design|e] eqn:H; [|vm_compute in H; discriminate H].
  destruct (proj1 (run_keeps_top_level trivialLayout sampleNumberToString countingRandom)
              _ _ H) as (Hname & _ & Hids & _).
  split; [exact Hname | exact Hids].
Defined.

Lemma run_needs_normal_paints_witness :
  forallb treeNormalizes twoFrames = true
  /\ forallb treeNormalizes unknownFill = false
  /\ sampleRun unknownFill = Err (UnknownPaintType "EMOJI").
Proof.
  split; [|split; reflexivity].
  destruct (sampleRun twoFrames) as [design|e] eqn:H; [|vm_compute in H; discriminate H].
  exact (run_needs_normal_paints trivialLayout sampleNumberToString countingRandom
           "file" "today" twoFrames design H).
Defined.

Lemma search_finds_walked_nodes_witness :
  (exists found, findNodeById "1:6" (walkNodes (sampleWalk twoFrames)) = Some found)
  /\ ~ (exists found, findNodeById "9:9" (walkNodes (sampleWalk twoFrames)) = Some found).
Proof.
  destruct (sampleWalk twoFrames) as [[nodes s]|e] eqn:H;
    [|vm_compute in H; discriminate H].
  destruct (search_finds_walked_nodes _ _ _ _ _ _ H) as (Hiff & _).
  cbn [walkNodes]. split.
  - apply Hiff. vm_compute. tauto.
  - intros Hfound. apply Hiff in Hfound. vm_compute in Hfound.
    intuition discriminate.
Defined.

Lemma grouping_partitions_parents_witness :
  exists design childrenToParents,
    sampleRun twoFramesThreeVectors = Ok design
    /\ Permutation (List.concat (obj_values childrenToParents)) ["1:2"; "1:5"]
    /\ NoDup (List.concat (obj_values childrenToParents)).
Proof.
  destruct (sampleWalk twoFramesThreeVectors) as [[nodes s]|e] eqn:H;
    [|vm_compute in H; discriminate H].
  destruct (grouping_partitions_parents _ _ _ "file" "today" _ _ _ H)
    as (design & c2p & Hrun & _ & Hperm & Hnd & _).
  exists design, c2p. split; [exact Hrun|]. split; [|exact Hnd].
  vm_compute in H. injection H as _ <-. exact Hperm.
Defined.

Lemma run_without_parented_vectors_witness :
  resultVars (sampleRun loneVector)
  = [("var_ABCDEF", JObj [("type", JStr "VECTOR")]); ("childrenToParents", JObj [])].
Proof.
  destruct (sampleWalk loneVector) as [[nodes s]|e] eqn:H;
    [|vm_compute in H; discriminate H].
  destruct (run_without_parented_vectors _ _ _ "file" "today" _ _ _ H eq_refl) as (Hrun & _).
  rewrite Hrun. vm_compute in H. injection H as _ <-. reflexivity.
Defined.

Lemma result_globalVars_keys_witness :
  In "childrenToParents" (obj_keys (resultVars (sampleRun twoFrames)))
  /\ ~ In "vectorParents" (obj_keys (resultVars (sampleRun twoFrames))).
Proof.
  destruct (sampleWalk twoFrames) as [[nodes s]|e] eqn:Hwalk;
    [|vm_compute in Hwalk; discriminate Hwalk].
  destruct (sampleRun twoFrames) as [design|e] eqn:Hrun;
    [|vm_compute in Hrun; discriminate Hrun].
  destruct (result_globalVars_keys _ _ _ _ _ _ _ _ _ Hwalk Hrun) as (_ & Hin & Hout & _).
  split; assumption.
Defined.

Lemma result_is_pruned_witness :
  Forall (fun node => removeEmptyKeys node = node) (resultNodes (sampleRun twoFrames)).
Proof.
  destruct (sampleRun twoFrames) as [design|e] eqn:Hrun;
    [|vm_compute in Hrun; discriminate Hrun].
  eapply Forall_impl; [|exact (result_is_pruned _ _ _ _ _ _ _ Hrun)].
  intros node [_ Hnode]. exact Hnode.
Defined.

Lemma strokeWeight_needs_strokes_witness :
  match sampleNode strokedNode, sampleNode unstrokedNode with
  | Ok (Some stroked, _), Ok (Some unstroked, _) =>
      jget "strokeWeight" stroked = JNum 2 /\ jget "strokeWeight" unstroked = JUndefined
  | _, _ => False
  end.
Proof.
  destruct (sampleNode strokedNode) as [[[stroked|] s1]|e] eqn:H1;
    try (vm_compute in H1; discriminate H1).
  destruct (sampleNode unstrokedNode) as [[[unstroked|] s2]|e] eqn:H2;
    try (vm_compute in H2; discriminate H2).
  split.
  - exact (proj1 (strokeWeight_needs_strokes _ _ _ _ _ _ _ _ H1)).
  - exact (proj1 (strokeWeight_needs_strokes _ _ _ _ _ _ _ _ H2)).
Defined.

Lemma paint_lists_registered_witness :
  match sampleNode strokedNode with
  | Ok (Some node, _) =>
      exists s1 s2 s3 s4 s5 s6,
        ownFieldStores trivialLayout countingRandom
          strokedNode None initialStore s1 s2 s3 s4 s5 s6
        /\ paintsRegisteredAt countingRandom strokedNode.(n_fills) (jget "fills" node) s1 s2
        /\ paintsRegisteredAt countingRandom strokedNode.(n_strokes)
             (jget "strokes" node) s3 s4
  | _ => False
  end.
Proof.
  destruct (sampleNode strokedNode) as [[[node|] s1]|e] eqn:H;
    try (vm_compute in H; discriminate H).
  exact (paint_lists_registered _ _ _ _ _ _ _ _ H).
Defined.

Lemma references_are_bound_witness :
  match sampleNode strokedNode with
  | Ok (Some node, s') =>
      jget "fills" node = JUndefined
      \/ exists id, jget "fills" node = JStr id /\ In id (obj_keys s'.(globalVars))
  | _ => False
  end.
Proof.
  destruct (sampleNode strokedNode) as [[[node|] s1]|e] eqn:H;
    try (vm_compute in H; discriminate H).
  destruct (references_are_bound _ _ _ _ _ _ _ _ H "fills") as [Hnone | (id & Hid & Hin & _)].
  - simpl. tauto.
  - now left.
  - right. exists id. split; assumption.
Defined.

Lemma copied_properties_witness :
  match sampleNode strokedNode with
  | Ok (Some node, _) => jget "opacity" node = JNum 0
  | _ => False
  end.
Proof.
  destruct (sampleNode strokedNode) as [[[node|] s1]|e] eqn:H;
    try (vm_compute in H; discriminate H).
  exact (proj1 (copied_properties _ _ _ _ _ _ _ _ H)).
Defined.

Lemma findOrCreateVar_first_match_witness :
  findOrCreateVar countingRandom (JObj []) initialStore = Ok ("vectorParents", initialStore).
Proof.
  apply (findOrCreateVar_first_match countingRandom (JObj []) initialStore
           [] [] "vectorParents" (JObj [])).
  - reflexivity.
  - reflexivity.
  - intros k' w' [].
  - discriminate.
Defined.

Lemma store_ignores_undefined_witness :
  exists id s1,
    findOrCreateVar countingRandom
      (JObj [("fontSize", JNum 12); ("letterSpacing", JUndefined)]) initialStore
    = Ok (id, s1)
    /\ findOrCreateVar countingRandom (JObj [("fontSize", JNum 12)]) s1 = Ok (id, s1).
Proof.
  refine (proj1 (store_ignores_undefined countingRandom initialStore
                   [("fontSize", JNum 12); ("letterSpacing", JUndefined)] [] _)).
  simpl. intuition discriminate.
Defined.

Lemma objects_registered_witness :
  match sampleNode (styledNode "6:1" "RECTANGLE" (JObj [("fill", JStr "S:1")])) with
  | Ok (Some node, _) =>
      exists s2 s3 s4 s5,
        registeredAt countingRandom (JObj [("fill", JStr "S:1")]) (jget "styles" node) s2 s3
        /\ notRegistered (jget "layout" node) s4 s5
  | _ => False
  end.
Proof.
  destruct (sampleNode (styledNode "6:1" "RECTANGLE" (JObj [("fill", JStr "S:1")])))
    as [[[node|] s']|e] eqn:H; try (vm_compute in H; discriminate H).
  destruct (objects_registered _ _ _ _ _ _ _ _ H)
    as (s1 & s2 & s3 & s4 & s5 & s6 & _ & Hstyles & Hlayout & _).
  exists s2, s3, s4, s5. split; [exact Hstyles | exact Hlayout].
Defined.

Example parseInt16_samples :
  parseInt16 "ff" = Some 255%Z
  /\ parseInt16 " -0x1f" = Some (-31)%Z
  /\ parseInt16 "7g" = Some 7%Z
  /\ parseInt16 "g7" = None
  /\ parseInt16 "0x" = None
  /\ parseInt16 "" = None.
Proof. repeat split; reflexivity. Qed.

Example hexToRgba_samples :
  hexToRgba sampleDecimal "#F80" None = "rgba(255, 136, 0, 1)"
  /\ hexToRgba sampleDecimal "ff8000" (Some 3%Q) = "rgba(255, 128, 0, 1)"
  /\ hexToRgba sampleDecimal "#zz" (Some (1 # 2)) = "rgba(NaN, NaN, NaN, 1/2)".
Proof. repeat split; vm_compute; reflexivity. Qed.

Example formatRGBAColor_orange :
  formatRGBAColor sampleDecimal orange None = "rgba(255, 128, 0, 1)".
Proof. vm_compute. reflexivity. Qed.

Example generateVarId_first :
  generateVarId countingRandom "var" initialStore
  = Ok ("var_ABCDEF", mkStore [("vectorParents", JObj [])] 6).
Proof. vm_compute. reflexivity. Qed.

Example strokedNode_run :
  sampleNode strokedNode
  = Ok (Some (JObj [("id", JStr "2:1"); ("type", JStr "RECTANGLE");
                    ("fills", JStr "var_ABCDEF"); ("strokes", JStr "var_ABCDEF");
                    ("strokeWeight", JNum 2); ("opacity", JNum 0)]),
        mkStore [("vectorParents", JObj []);
                 ("var_ABCDEF",
                  JArr [JObj [("type", JStr "SOLID"); ("hex", JStr "#FF0000");
                              ("opacity", JNum (100 # 100))]])] 6).
Proof. vm_compute. reflexivity. Qed.
